(** * Streaming code-generation pipeline: a shallow embedding

    The server route ([src/app/api/anthropic/route.ts]), the two client
    stream consumers ([src/app/workspace/page.tsx] and the generation page)
    and the character-reveal component are embedded as Rocq functions; the
    properties the specification states about them are stated and proved
    against that embedding.

    Conventions.
    - A JavaScript string is the list of its UTF-16 code units ([list N]).
    - A plain object whose own properties hold strings (a FileState) is the
      list of its own enumerable properties in enumeration order; a
      well-formed one has no repeated key.  JavaScript enumerates
      array-index keys first; the model keeps creation order for every key.
    - Reading a property that is not an own property falls through to
      [Object.prototype], as in JavaScript. *)

From Stdlib Require Import NArith ZArith QArith Qpower Qfield List String Ascii
  Lia Bool.
From stdpp Require Import base option list gmap.

Local Open Scope N_scope.
#[local] Set Warnings "-clear-no-such-hyp".

(** ** JavaScript strings *)

Abbreviation jsstring := (list N).

(** Code units of a literal. *)
Definition js (s : string) : jsstring :=
  map N_of_ascii (list_ascii_of_string s).

(** ** Property reads on plain objects *)

Abbreviation object := (list (jsstring * jsstring)).

(** The own properties of [Object.prototype]; every one of them holds a
    function (or, for [__proto__], the prototype object itself). *)
Definition object_prototype_names : list jsstring :=
  [ js "constructor"; js "hasOwnProperty"; js "isPrototypeOf";
    js "propertyIsEnumerable"; js "toLocaleString"; js "toString";
    js "valueOf"; js "__proto__"; js "__defineGetter__";
    js "__defineSetter__"; js "__lookupGetter__"; js "__lookupSetter__" ].

(** What [obj[key]] evaluates to. *)
Inductive jsval :=
| VUndefined
| VString (s : jsstring)
| VInherited (name : jsstring).

Global Instance jsval_eq_dec : EqDecision jsval.
Proof. solve_decision. Defined.

(** Own-property lookup and definition on a property list of any value
    type ([CreateDataProperty]: an existing key keeps its place, a new key
    goes last). *)
Fixpoint assoc {V} (o : list (jsstring * V)) (k : jsstring) : option V :=
  match o with
  | [] => None
  | (k', v) :: o' => if decide (k' = k) then Some v else assoc o' k
  end.

Fixpoint assoc_replace {V} (o : list (jsstring * V)) (k : jsstring) (v : V)
  : list (jsstring * V) :=
  match o with
  | [] => []
  | (k', v') :: o' =>
      if decide (k' = k) then (k', v) :: o'
      else (k', v') :: assoc_replace o' k v
  end.

Definition define {V} (o : list (jsstring * V)) (k : jsstring) (v : V)
  : list (jsstring * V) :=
  match assoc o k with
  | Some _ => assoc_replace o k v
  | None => o ++ [(k, v)]
  end.

Definition keys (o : object) : list jsstring := map fst o.

(** [o[k]] *)
Definition get (o : object) (k : jsstring) : jsval :=
  match assoc o k with
  | Some s => VString s
  | None =>
      if decide (k ∈ object_prototype_names) then VInherited k
      else VUndefined
  end.

(** ToBoolean *)
Definition truthy (v : jsval) : bool :=
  match v with
  | VUndefined => false
  | VString s => negb (bool_decide (s = []))
  | VInherited _ => true
  end.

(** [a !== b] *)
Definition strict_neq (a b : jsval) : bool := negb (bool_decide (a = b)).

(** [o[k] = v] on an object created by a literal, for a string [v]: the
    [__proto__] setter of [Object.prototype] ignores a value that is not
    an object, so no property is written for that key. *)
Definition set (o : object) (k v : jsstring) : object :=
  if decide (k = js "__proto__") then o else define o k v.

(** [new Set(l)]: iteration order is first-insertion order. *)
Fixpoint Set_add_all (seen : list jsstring) (l : list jsstring) : list jsstring :=
  match l with
  | [] => seen
  | x :: l' =>
      if decide (x ∈ seen) then Set_add_all seen l'
      else Set_add_all (seen ++ [x]) l'
  end.

Definition new_Set (l : list jsstring) : list jsstring := Set_add_all [] l.

(** ** Change-set reconciler: [detectFileChanges] *)

Inductive Status := New | Updated | Deleted.

Global Instance Status_eq_dec : EqDecision Status.
Proof. solve_decision. Defined.

(** [previousContent] is [None] when the property is not written. *)
Record FileChange := mkChange {
  path : jsstring;
  status : Status;
  previousContent : option jsval
}.

(** The body of the [for (const path of allPaths)] loop: the change pushed
    for [path], if any. *)
Definition classify (previousFiles newFiles : object) (p : jsstring)
  : option FileChange :=
  let prevContent := get previousFiles p in
  let newContent := get newFiles p in
  if negb (truthy prevContent) && truthy newContent then
    Some (mkChange p New None)
  else if truthy prevContent && negb (truthy newContent) then
    Some (mkChange p Deleted (Some prevContent))
  else if strict_neq prevContent newContent then
    Some (mkChange p Updated (Some prevContent))
  else None.

Definition detectFileChanges (previousFiles newFiles : object)
  : list FileChange :=
  let allPaths := new_Set (keys previousFiles ++ keys newFiles) in
  fold_left
    (fun changes p =>
       match classify previousFiles newFiles p with
       | Some c => changes ++ [c]
       | None => changes
       end)
    allPaths [].

(** ** Upstream client: [fetchWithRetry] *)

(** What one [fetch] call does: it resolves with a response of some status,
    or rejects. *)
Inductive fetch_outcome :=
| Responds (status : Z)
| Rejects.

(** [response.ok] *)
Definition ok (status : Z) : bool := ((200 <=? status) && (status <=? 299))%Z.

(** The observable actions of the wrapper, in order. *)
Inductive action :=
| Fetch
| Sleep (ms : Q).

Inductive fetch_error :=
| StatusError (status : Z)      (* Error(`Status: ${response.status}`) *)
| NetworkError                  (* the rejection of fetch, rethrown *)
| MaxRetriesReached.            (* Error("Max retries reached") *)

(** The [for] loop from [attempt] on; [left] counts the iterations that
    remain ([retries - attempt + 1]); [calls] counts the fetches made so
    far, and [fetch] tells what each call does. *)
Fixpoint retry_loop (fetch : nat -> fetch_outcome) (retries : nat)
    (left : nat) (attempt : nat) (backoff : Q) (calls : nat)
    (trace : list action) : (fetch_error + Z) * list action :=
  match left with
  | O => (inl MaxRetriesReached, trace)
  | S left' =>
      let trace := trace ++ [Fetch] in
      match fetch calls with
      | Responds st =>
          if (st =? 529)%Z && (attempt <? retries)%nat then
            retry_loop fetch retries left' (S attempt) (Qred (backoff * 2))
                       (S calls) (trace ++ [Sleep backoff])
          else if negb (ok st) then
            (* the throw lands in the catch of the same iteration *)
            if (attempt =? retries)%nat then (inl (StatusError st), trace)
            else retry_loop fetch retries left' (S attempt)
                            (Qred (backoff * (3 # 2)))
                            (S calls) (trace ++ [Sleep backoff])
          else (inr st, trace)
      | Rejects =>
          if (attempt =? retries)%nat then (inl NetworkError, trace)
          else retry_loop fetch retries left' (S attempt)
                          (Qred (backoff * (3 # 2)))
                          (S calls) (trace ++ [Sleep backoff])
      end
  end.

Definition fetchWithRetry (fetch : nat -> fetch_outcome)
    (retries : nat) (backoff : Q) : (fetch_error + Z) * list action :=
  retry_loop fetch retries retries 1 backoff 0 [].

Definition default_retries : nat := 3.
Definition default_backoff : Q := 1000.

(** ** The platform's JSON functions

    [JSON.parse] and [JSON.stringify] belong to the JavaScript runtime, not
    to the repository; they are modelled after ECMA-262 (sections
    JSON.parse, QuoteJSONString) and ECMA-404. *)

#[warnings="-register-all"]
Inductive json :=
| JNull
| JBool (b : bool)
| JNumber (lexeme : jsstring)
| JString (s : jsstring)
| JArray (items : list json)
| JObject (members : list (jsstring * json)).

Definition starts_with (p s : jsstring) : bool :=
  bool_decide (take (length p) s = p).

Definition strip_prefix (p s : jsstring) : option jsstring :=
  if starts_with p s then Some (drop (length p) s) else None.

(** JSON white space: space, tab, line feed, carriage return. *)
Definition is_json_ws (c : N) : bool :=
  (c =? 32) || (c =? 9) || (c =? 10) || (c =? 13).

Fixpoint skip_ws (s : jsstring) : jsstring :=
  match s with
  | c :: r => if is_json_ws c then skip_ws r else s
  | [] => []
  end.

Definition is_digit (c : N) : bool := (48 <=? c) && (c <=? 57).

Fixpoint take_digits (s : jsstring) : jsstring * jsstring :=
  match s with
  | c :: r =>
      if is_digit c then let '(ds, r') := take_digits r in (c :: ds, r')
      else ([], s)
  | [] => ([], [])
  end.

(** The value of a hexadecimal digit, either case. *)
Definition hex_value (c : N) : option N :=
  if (48 <=? c) && (c <=? 57) then Some (c - 48)
  else if (97 <=? c) && (c <=? 102) then Some (c - 87)
  else if (65 <=? c) && (c <=? 70) then Some (c - 55)
  else None.

Definition hex4 (a b c d : N) : option N :=
  match hex_value a, hex_value b, hex_value c, hex_value d with
  | Some x, Some y, Some z, Some w => Some (4096 * x + 256 * y + 16 * z + w)
  | _, _, _, _ => None
  end.

(** The character an escape letter stands for. *)
Definition simple_escape (e : N) : option N :=
  if e =? 34 then Some 34            (* quotation mark *)
  else if e =? 92 then Some 92       (* reverse solidus *)
  else if e =? 47 then Some 47       (* solidus *)
  else if e =? 98 then Some 8        (* b: backspace *)
  else if e =? 102 then Some 12      (* f: form feed *)
  else if e =? 110 then Some 10      (* n: line feed *)
  else if e =? 114 then Some 13      (* r: carriage return *)
  else if e =? 116 then Some 9       (* t: tab *)
  else None.

Definition prepend (c : N) (r : option (jsstring * jsstring))
  : option (jsstring * jsstring) :=
  match r with
  | Some (s, rest) => Some (c :: s, rest)
  | None => None
  end.

(** A string literal after its opening quote: the string and what follows
    the closing quote. *)
Fixpoint parse_string_body (s : jsstring) : option (jsstring * jsstring) :=
  match s with
  | [] => None
  | c :: r =>
      if c =? 34 then Some ([], r)
      else if c =? 92 then
        match r with
        | [] => None
        | e :: r1 =>
            if e =? 117 then
              match r1 with
              | h1 :: h2 :: h3 :: h4 :: r2 =>
                  match hex4 h1 h2 h3 h4 with
                  | Some u => prepend u (parse_string_body r2)
                  | None => None
                  end
              | _ => None
              end
            else
              match simple_escape e with
              | Some u => prepend u (parse_string_body r1)
              | None => None
              end
        end
      else if c <? 32 then None
      else prepend c (parse_string_body r)
  end.

(** A number: an optional minus sign, an integer part (a single zero, or
    a non-zero digit followed by digits), an optional fraction (a point and
    at least one digit) and an optional exponent (e or E, an optional sign
    and at least one digit).  The value keeps its lexeme. *)
Definition parse_number (s : jsstring) : option (jsstring * jsstring) :=
  let '(sign, s1) :=
    match s with
    | c :: r => if c =? 45 then ([45], r) else ([], s)
    | [] => ([], s)
    end in
  let int_part :=
    match s1 with
    | c :: r =>
        if c =? 48 then Some ([48], r)
        else if is_digit c then Some (take_digits s1)
        else None
    | [] => None
    end in
  match int_part with
  | None => None
  | Some (ip, s2) =>
      let frac_part :=
        match s2 with
        | c :: r =>
            if c =? 46 then
              match take_digits r with
              | ([], _) => None
              | (ds, r') => Some (46 :: ds, r')
              end
            else Some ([], s2)
        | [] => Some ([], s2)
        end in
      match frac_part with
      | None => None
      | Some (fp, s3) =>
          let exp_part :=
            match s3 with
            | c :: r =>
                if (c =? 101) || (c =? 69) then
                  let '(esign, r1) :=
                    match r with
                    | d :: r' =>
                        if (d =? 43) || (d =? 45) then ([d], r') else ([], r)
                    | [] => ([], r)
                    end in
                  match take_digits r1 with
                  | ([], _) => None
                  | (ds, r2) => Some (c :: esign ++ ds, r2)
                  end
                else Some ([], s3)
            | [] => Some ([], s3)
            end in
          match exp_part with
          | None => None
          | Some (ep, s4) => Some (sign ++ ip ++ fp ++ ep, s4)
          end
      end
  end.

(** A value at the head of [s] (no leading white space), and the members
    of an object or the elements of an array after the first one has been
    announced.  Each nesting level and each element uses one unit of
    [fuel]. *)
Fixpoint parse_value (fuel : nat) (s : jsstring) : option (json * jsstring) :=
  match fuel with
  | O => None
  | S fuel' =>
      match s with
      | [] => None
      | c :: r =>
          if c =? 34 then
            match parse_string_body r with
            | Some (str, rest) => Some (JString str, rest)
            | None => None
            end
          else if c =? 123 then
            match skip_ws r with
            | c' :: r' =>
                if c' =? 125 then Some (JObject [], r')
                else parse_members fuel' (skip_ws r) []
            | [] => None
            end
          else if c =? 91 then
            match skip_ws r with
            | c' :: r' =>
                if c' =? 93 then Some (JArray [], r')
                else parse_elements fuel' (skip_ws r) []
            | [] => None
            end
          else if starts_with (js "true") s then
            Some (JBool true, drop 4 s)
          else if starts_with (js "false") s then
            Some (JBool false, drop 5 s)
          else if starts_with (js "null") s then
            Some (JNull, drop 4 s)
          else
            match parse_number s with
            | Some (lexeme, rest) => Some (JNumber lexeme, rest)
            | None => None
            end
      end
  end
with parse_members (fuel : nat) (s : jsstring) (acc : list (jsstring * json))
  : option (json * jsstring) :=
  match fuel with
  | O => None
  | S fuel' =>
      match s with
      | c :: r =>
          if c =? 34 then
            match parse_string_body r with
            | Some (k, r1) =>
                match skip_ws r1 with
                | c1 :: r2 =>
                    if c1 =? 58 then
                      match parse_value fuel' (skip_ws r2) with
                      | Some (v, r3) =>
                          match skip_ws r3 with
                          | c3 :: r4 =>
                              if c3 =? 44 then
                                parse_members fuel' (skip_ws r4) (define acc k v)
                              else if c3 =? 125 then
                                Some (JObject (define acc k v), r4)
                              else None
                          | [] => None
                          end
                      | None => None
                      end
                    else None
                | [] => None
                end
            | None => None
            end
          else None
      | [] => None
      end
  end
with parse_elements (fuel : nat) (s : jsstring) (acc : list json)
  : option (json * jsstring) :=
  match fuel with
  | O => None
  | S fuel' =>
      match parse_value fuel' s with
      | Some (v, r1) =>
          match skip_ws r1 with
          | c :: r2 =>
              if c =? 44 then parse_elements fuel' (skip_ws r2) (acc ++ [v])
              else if c =? 93 then Some (JArray (acc ++ [v]), r2)
              else None
          | [] => None
          end
      | None => None
      end
  end.

(** [JSON.parse(text)]; [None] stands for the [SyntaxError] it throws.
    The text's length bounds the fuel the grammar can use. *)
Definition JSON_parse (text : jsstring) : option json :=
  match parse_value (S (length text)) (skip_ws text) with
  | Some (v, rest) =>
      match skip_ws rest with
      | [] => Some v
      | _ :: _ => None
      end
  | None => None
  end.

(** [QuoteJSONString]: the escapes [JSON.stringify] writes. *)
Definition hex_digit (n : N) : N := if n <? 10 then 48 + n else 87 + n.

Definition unicode_escape (c : N) : jsstring :=
  [92; 117; hex_digit (c / 4096 mod 16); hex_digit (c / 256 mod 16);
   hex_digit (c / 16 mod 16); hex_digit (c mod 16)].

Definition is_high_surrogate (c : N) : bool := (55296 <=? c) && (c <=? 56319).
Definition is_low_surrogate (c : N) : bool := (56320 <=? c) && (c <=? 57343).

(** One code unit that is not the first half of a surrogate pair. *)
Definition quote_unit (c : N) : jsstring :=
  if c =? 8 then [92; 98]
  else if c =? 9 then [92; 116]
  else if c =? 10 then [92; 110]
  else if c =? 12 then [92; 102]
  else if c =? 13 then [92; 114]
  else if c =? 34 then [92; 34]
  else if c =? 92 then [92; 92]
  else if (c <? 32) || is_high_surrogate c || is_low_surrogate c then
    unicode_escape c
  else [c].

Fixpoint quote_body (s : jsstring) : jsstring :=
  match s with
  | [] => []
  | c :: r =>
      match r with
      | d :: r' =>
          if is_high_surrogate c && is_low_surrogate d then
            c :: d :: quote_body r'
          else quote_unit c ++ quote_body r
      | [] => quote_unit c
      end
  end.

Definition quote (s : jsstring) : jsstring := 34 :: quote_body s ++ [34].

Fixpoint stringify_members (o : object) : jsstring :=
  match o with
  | [] => []
  | [(k, v)] => quote k ++ 58 :: quote v
  | (k, v) :: o' => quote k ++ 58 :: quote v ++ 44 :: stringify_members o'
  end.

(** [JSON.stringify(files)] for an object whose properties hold strings. *)
Definition JSON_stringify (o : object) : jsstring :=
  123 :: stringify_members o ++ [125].

(** ** Partial-JSON extractor: [extractAndParseJSON] *)

(** The regular expression class [\s], which is also what [trim]
    removes: WhiteSpace and LineTerminator code points. *)
Definition is_space (c : N) : bool :=
  (c =? 9) || (c =? 10) || (c =? 11) || (c =? 12) || (c =? 13) || (c =? 32)
  || (c =? 160) || (c =? 5760) || ((8192 <=? c) && (c <=? 8202))
  || (c =? 8232) || (c =? 8233) || (c =? 8239) || (c =? 8287)
  || (c =? 12288) || (c =? 65279).

Definition fence : jsstring := [96; 96; 96].
Definition fence_json : jsstring := fence ++ js "json".

(** The tail of the pattern, [\s*] and the closing fence, tried at the head
    of [s]: the greedy star takes a white-space character first and gives
    it back when the rest does not match. *)
Fixpoint ws_then_fence (s : jsstring) : bool :=
  match s with
  | c :: r =>
      if is_space c then ws_then_fence r || starts_with fence s
      else starts_with fence s
  | [] => false
  end.

(** The lazy group [([\s\S]*?)] followed by the tail: the group stops as
    soon as the tail matches, and takes one more character otherwise. *)
Fixpoint lazy_group (s : jsstring) : option jsstring :=
  if ws_then_fence s then Some []
  else match s with
       | c :: r => cons c <$> lazy_group r
       | [] => None
       end.

(** The greedy [\s*] after the opening fence, then the group. *)
Fixpoint open_ws (s : jsstring) : option jsstring :=
  match s with
  | c :: r =>
      if is_space c then
        match open_ws r with
        | Some g => Some g
        | None => lazy_group s
        end
      else lazy_group s
  | [] => lazy_group []
  end.

(** [responseText.match(...)[1]] for the fenced-block pattern: the first
    capture of the leftmost match, [None] when nothing matches. *)
Fixpoint code_block_match (s : jsstring) : option jsstring :=
  let here :=
    match strip_prefix fence_json s with
    | Some r => open_ws r
    | None => None
    end in
  match here with
  | Some g => Some g
  | None =>
      match s with
      | _ :: r => code_block_match r
      | [] => None
      end
  end.

(** [s.indexOf(c)] *)
Fixpoint indexOf (c : N) (s : jsstring) : option nat :=
  match s with
  | [] => None
  | d :: r => if d =? c then Some O else S <$> indexOf c r
  end.

(** [s.substring(a, b)] for [a <= b] *)
Definition substring (s : jsstring) (a b : nat) : jsstring :=
  take (b - a) (drop a s).

(** The brace-matching loop from index [i] on, [s] being the text from
    that index: the [endIndex] it finds, if it breaks. *)
Fixpoint brace_scan (s : jsstring) (i : nat) (braceCount : Z)
    (inString escaped : bool) : option nat :=
  match s with
  | [] => None
  | char :: r =>
      if negb inString then
        if char =? 123 then
          brace_scan r (S i) (braceCount + 1)%Z inString escaped
        else if char =? 125 then
          let braceCount := (braceCount - 1)%Z in
          if (braceCount =? 0)%Z then Some (S i)
          else brace_scan r (S i) braceCount inString escaped
        else if char =? 34 then brace_scan r (S i) braceCount true escaped
        else brace_scan r (S i) braceCount inString escaped
      else
        if escaped then brace_scan r (S i) braceCount inString false
        else if char =? 92 then brace_scan r (S i) braceCount inString true
        else if char =? 34 then brace_scan r (S i) braceCount false escaped
        else brace_scan r (S i) braceCount inString escaped
  end.

(** The candidate text chosen before fence markers are stripped. *)
Definition candidate (responseText : jsstring) : jsstring :=
  match code_block_match responseText with
  | Some interior => interior
  | None =>
      match indexOf 123 responseText with
      | Some startIndex =>
          match brace_scan (drop startIndex responseText) startIndex 0
                           false false with
          | Some endIndex =>
              if (startIndex <? endIndex)%nat
              then substring responseText startIndex endIndex
              else responseText
          | None => responseText
          end
      | None => responseText
      end
  end.

(** The global replace of the three fence alternatives by the empty
    string; [skip] counts the characters of the current match still to
    drop. *)
Fixpoint remove_fences (skip : nat) (s : jsstring) : jsstring :=
  match s with
  | [] => []
  | c :: r =>
      match skip with
      | S k => remove_fences k r
      | O =>
          if starts_with fence_json s then remove_fences 6 r
          else if starts_with fence s then remove_fences 2 r
          else if starts_with (10 :: fence) s then remove_fences 3 r
          else c :: remove_fences 0 r
      end
  end.

Fixpoint trim_start (s : jsstring) : jsstring :=
  match s with
  | c :: r => if is_space c then trim_start r else s
  | [] => []
  end.

Fixpoint trim_end (s : jsstring) : jsstring :=
  match s with
  | [] => []
  | c :: r =>
      match trim_end r with
      | [] => if is_space c then [] else [c]
      | r' => c :: r'
      end
  end.

Definition trim (s : jsstring) : jsstring := trim_end (trim_start s).

(** Decimal digits of an array index. *)
Fixpoint decimal_from (fuel : nat) (n : N) (acc : jsstring) : jsstring :=
  let acc' := (48 + n mod 10) :: acc in
  match fuel with
  | O => acc'
  | S fuel' => if n <? 10 then acc' else decimal_from fuel' (n / 10) acc'
  end.

Definition decimal (n : nat) : jsstring := decimal_from n (N.of_nat n) [].

Fixpoint join (sep : jsstring) (l : list jsstring) : jsstring :=
  match l with
  | [] => []
  | [x] => x
  | x :: l' => x ++ sep ++ join sep l'
  end.

Fixpoint index_from {A} (i : nat) (l : list A) : list (jsstring * A) :=
  match l with
  | [] => []
  | x :: l' => (decimal i, x) :: index_from (S i) l'
  end.

Inductive extraction_failure :=
| SyntaxError          (* thrown by JSON.parse *)
| NotAnObject          (* "Response is not a valid object" *)
| NoFiles.             (* "No files generated" *)

Section Extractor.

(** [Number.prototype.toString] on the value a number lexeme denotes:
    floating-point formatting is left to the runtime. *)
Variable Number_toString : jsstring -> jsstring.

(** [String(value)] *)
Fixpoint to_String (v : json) : jsstring :=
  match v with
  | JNull => js "null"
  | JBool true => js "true"
  | JBool false => js "false"
  | JNumber lexeme => Number_toString lexeme
  | JString s => s
  | JArray items =>
      join [44]
        (map (fun x => match x with JNull => [] | _ => to_String x end) items)
  | JObject _ => js "[object Object]"
  end.

(** [Object.entries(parsed)] for a value whose [typeof] is ["object"]. *)
Definition entries (v : json) : list (jsstring * json) :=
  match v with
  | JObject members => members
  | JArray items => index_from 0 items
  | _ => []
  end.

(** [extractAndParseJSON]: the files, or the cause of the error
    [Failed to parse generated code: ...] it throws. *)
Definition extractAndParseJSON (responseText : jsstring)
  : extraction_failure + object :=
  let jsonText := candidate responseText in
  let jsonText := trim (remove_fences 0 jsonText) in
  match JSON_parse jsonText with
  | None => inl SyntaxError
  | Some parsed =>
      match parsed with
      | JObject _ | JArray _ =>
          let files :=
            fold_left
              (fun files '(key, value) =>
                 match value with
                 | JString s => set files key s
                 | _ => set files key (to_String value)
                 end)
              (entries parsed) [] in
          match keys files with
          | [] => inl NoFiles
          | _ :: _ => inr files
          end
      | _ => inl NotAnObject
      end
  end.

End Extractor.

(** ** Conversation store and the [POST] handler *)

Record UploadedFile := mkUploadedFile {
  uf_id : Z;
  uf_name : jsstring;
  uf_type : jsstring;
  uf_size : Z;
  uf_content : jsstring;
  uf_lastModified : Z
}.

Record ConversationTurn := mkTurn {
  turn_prompt : option jsstring;
  turn_timestamp : N;
  fileChanges : list FileChange;
  fullState : object
}.

Record Conversation := mkConversation {
  conv_userId : jsstring;
  initialPrompt : option jsstring;
  conv_uploadedFiles : list UploadedFile;
  conversationTurns : list ConversationTurn;
  currentFiles : object
}.

(** The collection, keyed by [_id]. *)
Abbreviation store := (gmap jsstring Conversation).

(** The request body after [request.json()], at its declared type; an
    absent field is [None]. *)
Record Body := mkBody {
  prompt : option jsstring;
  existingFiles : option object;
  uploadedFiles : option (list UploadedFile);
  streaming : option bool;
  userId : option jsstring;
  conversationId : option jsstring;
  isIterativeUpdate : option bool
}.

(** The prompt sent upstream, by the template that builds it. *)
Inductive system_prompt :=
| IterativePrompt (request : option jsstring) (files : object)
                  (history : list ConversationTurn)
| GenerationPrompt (request : option jsstring) (files : option object).

(** The provider's non-streaming reply at its declared type
    [{ content: { text: string }[]; stop_reason?: string }]. *)
Record ProviderData := mkProviderData {
  content : list jsstring;
  stop_reason : option jsstring
}.

(** How the provider answers one request. *)
Record Provider := mkProvider {
  fetch : nat -> fetch_outcome;
      (* what each successive fetch call does *)
  response_json : option ProviderData;
      (* [response.json()]; [None] when it rejects *)
  stream_body : option (list jsstring * bool)
      (* [response.body]: the decoded chunks the reader yields, and whether
         the read after the last chunk reports [done] (it rejects
         otherwise); [None] when the body is null *)
}.

(** Everything outside the handler that one request depends on. *)
Record Env := mkEnv {
  connect_ok : bool;                       (* connectMongo resolves *)
  api_key : option jsstring;               (* process.env.ANTHROPIC_API_KEY *)
  find_ok : jsstring -> bool;              (* findById resolves for this id *)
  save_ok : bool;                          (* conversation.save() resolves *)
  fresh_id : jsstring;                     (* _id of a new document *)
  now : N;                                 (* new Date() *)
  provider : system_prompt -> bool -> Provider
}.

Inductive failure :=
| ConnectFailed
| BodyUnreadable
| FindFailed
| FetchFailed (e : fetch_error)
| EmptyStreamBody          (* "Empty stream body" *)
| ReadFailed
| ResponseUnreadable
| Truncated                (* "Response truncated: Increase max_tokens or
                              simplify prompt" *)
| NoContent                (* "No content generated by Anthropic API" *)
| ExtractionFailed (cause : extraction_failure)
                           (* "Failed to parse generated code: ..." *)
| SaveFailed.

(** Server-sent events, by their [type] field. *)
Inductive event :=
| EStatus (message : jsstring)
| EProgress (text : jsstring)
| EFile (fileName text : jsstring) (changeType : Status)
| EComplete (id : jsstring) (user : jsstring) (changedFiles : list FileChange)
            (fullFiles : object) (iterative : bool)
| EError (error : failure).

(** The body of a JSON response. *)
Inductive reply :=
| ErrorReply (message : jsstring)
| FailureReply (error : failure)
| FilesReply (files fullFiles : object) (changedFiles : list FileChange)
             (id : jsstring) (user : jsstring) (iterative : bool).

Inductive response :=
| Json (status : Z) (body : reply)
| EventStream.

(** What a request leaves behind: the events enqueued on its stream and
    the collection. *)
Record state := mkState {
  events : list event;
  db : store
}.

(** Code that may emit events, write the collection, and throw. *)
Definition task (A : Type) : Type := state -> (failure + A) * state.

Global Instance task_ret : MRet task := fun A a st => (inr a, st).

Global Instance task_bind : MBind task := fun A B k m st =>
  match m st with
  | (inr a, st') => k a st'
  | (inl e, st') => (inl e, st')
  end.

Definition throw {A} (e : failure) : task A := fun st => (inl e, st).

(** [sendData]: the stream controller is set when the stream is built, so
    the event is enqueued. *)
Definition sendData (e : event) : task unit :=
  fun st => (inr tt, mkState (events st ++ [e]) (db st)).

(** [try { body } catch (err) { handler(err) }] *)
Definition try_catch {A} (body : task A) (handler : failure -> task A)
  : task A :=
  fun st =>
    match body st with
    | (inr a, st') => (inr a, st')
    | (inl e, st') => handler e st'
    end.

(** [s.split(sep)] for a one-character separator. *)
Fixpoint split (sep : N) (s : jsstring) : list jsstring :=
  match s with
  | [] => [[]]
  | c :: r =>
      if c =? sep then [] :: split sep r
      else match split sep r with
           | piece :: pieces => (c :: piece) :: pieces
           | [] => [[c]]
           end
  end.

(** The text an upstream stream frame contributes: the payload parses,
    its [type] is ["content_block_delta"] and [delta.text] is a non-empty
    string.  A payload that does not parse, or reads a property of [null],
    throws inside the [try] and is ignored. *)
Definition delta_text (data : jsstring) : option jsstring :=
  match JSON_parse data with
  | Some (JObject members) =>
      match assoc members (js "type"), assoc members (js "delta") with
      | Some (JString ty), Some (JObject delta) =>
          if decide (ty = js "content_block_delta") then
            match assoc delta (js "text") with
            | Some (JString (c :: text)) => Some (c :: text)
            | _ => None
            end
          else None
      | _, _ => None
      end
  | _ => None
  end.

(** The body of [chunk.split("\n").forEach(...)] for one line: the text
    to append to [fullResponse], which is also sent as [progress]. *)
Definition line_text (line : jsstring) : option jsstring :=
  if starts_with (js "data: ") line then
    let data := drop 6 line in
    if decide (data = js "[DONE]") then None else delta_text data
  else None.

(** The read loop: [fullResponse] after all chunks, the progress events
    being sent on the way. *)
Fixpoint read_lines (lines : list jsstring) (fullResponse : jsstring)
  : task jsstring :=
  match lines with
  | [] => mret fullResponse
  | line :: lines' =>
      match line_text line with
      | Some text =>
          sendData (EProgress text) ;;
          read_lines lines' (fullResponse ++ text)
      | None => read_lines lines' fullResponse
      end
  end.

Fixpoint read_chunks (chunks : list jsstring) (done : bool)
    (fullResponse : jsstring) : task jsstring :=
  match chunks with
  | [] => if done then mret fullResponse else throw ReadFailed
  | chunk :: chunks' =>
      fullResponse ← read_lines (split 10 chunk) fullResponse;
      read_chunks chunks' done fullResponse
  end.

(** [{ ...a, ...b }] *)
Definition spread (a b : object) : object :=
  fold_left (fun o '(k, v) => define o k v) (a ++ b) [].

(** [conversation.save()]: one write of the whole document. *)
Definition save (env : Env) (id : jsstring) (c : Conversation) : task unit :=
  fun st =>
    if save_ok env then (inr tt, mkState (events st) (<[id := c]> (db st)))
    else (inl SaveFailed, st).

(** The block shared by both modes builds the document to save: the
    loaded conversation with the turn appended, or a new conversation;
    with it, the [_id] it is saved under. *)
Definition next_document (env : Env) (body : Body)
    (conversation : option (jsstring * Conversation))
    (newFiles fullFileState : object) (changes : list FileChange)
  : jsstring * Conversation :=
  match default false (isIterativeUpdate body), conversation with
  | true, Some (id, c) =>
      let turn := mkTurn (prompt body) (now env) changes fullFileState in
      (id, mkConversation (conv_userId c) (initialPrompt c)
             (conv_uploadedFiles c)
             (conversationTurns c ++ [turn]) fullFileState)
  | _, _ =>
      let turn := mkTurn (prompt body) (now env)
                    (map (fun p => mkChange p New None) (keys newFiles))
                    fullFileState in
      (fresh_id env,
       mkConversation (default (js "anonymous") (userId body))
         (prompt body) (default [] (uploadedFiles body))
         [turn] fullFileState)
  end.

(** ... and saves it.  Returns the conversation's id. *)
Definition persist (env : Env) (body : Body)
    (conversation : option (jsstring * Conversation))
    (newFiles fullFileState : object) (changes : list FileChange)
  : task jsstring :=
  let '(id, c) :=
    next_document env body conversation newFiles fullFileState changes in
  save env id c ;; mret id.

Definition previous_files (body : Body)
    (conversation : option (jsstring * Conversation)) : object :=
  match existingFiles body with
  | Some files => files
  | None =>
      match conversation with
      | Some (_, c) => currentFiles c
      | None => []
      end
  end.

Section Handler.

(** See [to_String]. *)
Variable Number_toString : jsstring -> jsstring.

(** [fetchWithRetry] as a step of a task; the response is consumed
    through the provider record. *)
Definition fetch_upstream (p : Provider) : task unit :=
  match fetchWithRetry (fetch p) default_retries default_backoff with
  | (inr _, _) => mret tt
  | (inl e, _) => throw (FetchFailed e)
  end.

Definition extract (responseText : jsstring) : task object :=
  match extractAndParseJSON Number_toString responseText with
  | inr files => mret files
  | inl cause => throw (ExtractionFailed cause)
  end.

(** [fileChanges.find(c => c.path === fileName)?.status || "new"] *)
Definition change_type (changes : list FileChange) (fileName : jsstring)
  : Status :=
  match List.find (fun c => bool_decide (path c = fileName)) changes with
  | Some c => status c
  | None => New
  end.

(** The [file] events, one per entry of [newFiles]; the 300 ms pause after
    each one has no effect on what is sent. *)
Fixpoint send_files (newFiles : object) (changes : list FileChange)
  : task unit :=
  match newFiles with
  | [] => mret tt
  | (fileName, text) :: rest =>
      sendData (EFile fileName text (change_type changes fileName)) ;;
      send_files rest changes
  end.

(** The asynchronous function started in streaming mode. *)
Definition stream_task (env : Env) (body : Body)
    (conversation : option (jsstring * Conversation))
    (systemPrompt : system_prompt) : task unit :=
  let iterative := default false (isIterativeUpdate body) in
  try_catch
    (sendData (EStatus (if iterative then js "Applying changes..."
                        else js "Starting generation...")) ;;
     let p := provider env systemPrompt true in
     fetch_upstream p ;;
     match stream_body p with
     | None => throw EmptyStreamBody
     | Some (chunks, done) =>
         fullResponse ← read_chunks chunks done [];
         newFiles ← extract fullResponse;
         let previousFiles := previous_files body conversation in
         let fullFileState := spread previousFiles newFiles in
         let changes := detectFileChanges previousFiles newFiles in
         id ← persist env body conversation newFiles fullFileState changes;
         send_files newFiles changes ;;
         sendData (EComplete id (default (js "anonymous") (userId body))
                     changes
                     (if iterative then fullFileState else newFiles)
                     iterative)
     end)
    (fun err => sendData (EError err)).

(** The non-streaming continuation of the handler. *)
Definition respond_json (env : Env) (body : Body)
    (conversation : option (jsstring * Conversation))
    (systemPrompt : system_prompt) : task response :=
  let p := provider env systemPrompt false in
  fetch_upstream p ;;
  match response_json p with
  | None => throw ResponseUnreadable
  | Some data =>
      if decide (stop_reason data = Some (js "max_tokens")) then
        throw Truncated
      else
        match head (content data) with
        | None | Some [] => throw NoContent
        | Some responseText =>
            newFiles ← extract responseText;
            let previousFiles := previous_files body conversation in
            let fullFileState := spread previousFiles newFiles in
            let changes := detectFileChanges previousFiles newFiles in
            id ← persist env body conversation newFiles fullFileState changes;
            mret (Json 200
                    (FilesReply newFiles fullFileState changes id
                       (default (js "anonymous") (userId body))
                       (default false (isIterativeUpdate body))))
        end
  end.

(** After the conversation, if any, is loaded. *)
Definition generate (env : Env) (body : Body)
    (conversation : option (jsstring * Conversation))
    (systemPrompt : system_prompt) : task response :=
  if default false (streaming body) then
    stream_task env body conversation systemPrompt ;; mret EventStream
  else respond_json env body conversation systemPrompt.

(** [findById]: the query rejects, or resolves with the document or null. *)
Definition findById (env : Env) (id : jsstring) : task (option Conversation) :=
  fun st =>
    if find_ok env id then (inr (db st !! id), st) else (inl FindFailed, st).

Definition missing_input (body : Body) : bool :=
  match prompt body with
  | None | Some [] =>
      match uploadedFiles body with
      | None | Some [] => true
      | Some (_ :: _) => false
      end
  | Some (_ :: _) => false
  end.

(** The [try] block of [POST]. *)
Definition handle (env : Env) (request : option Body) : task response :=
  (if connect_ok env then mret tt else throw ConnectFailed) ;;
  body ← match request with
         | Some body => mret body
         | None => throw BodyUnreadable
         end;
  if missing_input body then
    mret (Json 400 (ErrorReply (js "Prompt or uploaded files required")))
  else
    match api_key env with
    | None | Some [] => mret (Json 500 (ErrorReply (js "Missing API key")))
    | Some (_ :: _) =>
        match default false (isIterativeUpdate body), conversationId body with
        | true, Some (c :: id') =>
            let id := c :: id' in
            found ← findById env id;
            match found with
            | None =>
                mret (Json 404 (ErrorReply (js "Conversation not found")))
            | Some conversation =>
                generate env body (Some (id, conversation))
                  (IterativePrompt (prompt body)
                     (default (currentFiles conversation)
                              (existingFiles body))
                     (conversationTurns conversation))
            end
        | _, _ =>
            generate env body None
              (GenerationPrompt (prompt body) (existingFiles body))
        end
    end.

(** [POST]: the response, the events its stream carries and the
    collection afterwards. *)
Definition POST (env : Env) (request : option Body) (collection : store)
  : response * state :=
  match handle env request (mkState [] collection) with
  | (inr r, st) => (r, st)
  | (inl e, st) => (Json 500 (FailureReply e), st)
  end.

End Handler.

(** ** Client stream consumers *)

(** A frame of the event stream after [JSON.parse], at the type the
    consumers read it with; an absent field is [None]. *)
Record Parsed := mkParsed {
  p_type : jsstring;
  p_fileName : option jsstring;
  p_content : option jsstring;
  p_changeType : option Status;
  p_fullFiles : option object;
  p_changedFiles : option (list FileChange);
  p_conversationId : option jsstring;
  p_error : option jsstring
}.

(** ToBoolean of an optional string field. *)
Definition present (s : option jsstring) : bool :=
  match s with
  | Some (_ :: _) => true
  | _ => false
  end.

(** One entry of [promptFileHistory]. *)
Record HistoryEntry := mkHistoryEntry {
  h_prompt : jsstring;
  h_files : list FileChange;
  h_fullState : object
}.

(** The state [handleChatSubmit] of the workspace page writes while it
    reads the stream. *)
Record Workspace := mkWorkspace {
  ws_files : object;
  ws_streamedFiles : object;
  ws_generatedFilesList : list jsstring;
  ws_changedFiles : list FileChange;
  ws_promptFileHistory : list HistoryEntry;
  ws_conversationId : option jsstring;
  ws_chatPrompt : jsstring;
  ws_isStreaming : bool;
  ws_storedFiles : option object          (* sessionStorage.generatedFiles *)
}.

(** The body of the [try] for one parsed frame; [chatPrompt] and
    [prevFiles] are the values captured when the request was sent.  An
    [error] frame throws inside the [try], whose [catch] only logs. *)
Definition workspace_frame (chatPrompt : jsstring) (prevFiles : object)
    (parsed : Parsed) (w : Workspace) : Workspace :=
  if bool_decide (p_type parsed = js "file") && present (p_fileName parsed)
     && present (p_content parsed) then
    let fileName := default [] (p_fileName parsed) in
    let text := default [] (p_content parsed) in
    mkWorkspace (ws_files w)
      (define (ws_streamedFiles w) fileName text)
      (if bool_decide (fileName ∈ ws_generatedFilesList w)
       then ws_generatedFilesList w
       else ws_generatedFilesList w ++ [fileName])
      (match List.find (fun c => bool_decide (path c = fileName))
                       (ws_changedFiles w) with
       | Some _ => ws_changedFiles w
       | None =>
           ws_changedFiles w ++
           [mkChange fileName (default New (p_changeType parsed)) None]
       end)
      (ws_promptFileHistory w) (ws_conversationId w) (ws_chatPrompt w)
      (ws_isStreaming w) (ws_storedFiles w)
  else if bool_decide (p_type parsed = js "complete") then
    let fullFiles := default prevFiles (p_fullFiles parsed) in
    let changed := default [] (p_changedFiles parsed) in
    mkWorkspace fullFiles (ws_streamedFiles w) (ws_generatedFilesList w)
      changed
      (ws_promptFileHistory w ++ [mkHistoryEntry chatPrompt changed fullFiles])
      (if present (p_conversationId parsed) then p_conversationId parsed
       else ws_conversationId w)
      [] false (Some fullFiles)
  else w.

(** The state [handleStreamingGenerate] of the generation page writes. *)
Record GenerationPage := mkGenerationPage {
  gp_generatedFiles : object;
  gp_storedFiles : option object;         (* sessionStorage.generatedFiles *)
  gp_storedPrompt : option jsstring       (* sessionStorage.originalPrompt *)
}.

(** The [switch] on [data.type] for one parsed frame; an [error] frame
    throws inside the [try], whose [catch] only logs. *)
Definition generation_frame (currentPrompt : jsstring) (data : Parsed)
    (g : GenerationPage) : GenerationPage :=
  if bool_decide (p_type data = js "file") then
    if present (p_fileName data) && present (p_content data) then
      mkGenerationPage
        (define (gp_generatedFiles g) (default [] (p_fileName data))
                (default [] (p_content data)))
        (gp_storedFiles g) (gp_storedPrompt g)
    else g
  else if bool_decide (p_type data = js "complete") then
    mkGenerationPage (gp_generatedFiles g) (Some (gp_generatedFiles g))
      (Some currentPrompt)
  else g.

(** ** Character-reveal scheduler: [MultiFileStreamingDisplay] *)

(** The component's state, its navigation ref, and a count of the calls
    made to [onAllFilesComplete]. *)
Record Reveal := mkReveal {
  displayedFiles : object;
  currentFileIndex : nat;
  currentCharIndex : nat;
  isComplete : bool;
  hasNavigated : bool;
  completions : nat
}.

(** What the reset effect leaves at mount. *)
Definition reveal_start : Reveal := mkReveal [] 0 0 false false 0.

(** The file the main effect looks at: [fileNames[currentFileIndex]] and
    [files[currentFileName] || ""]. *)
Definition current_file (files : object) (s : Reveal) : jsstring * jsstring :=
  let currentFileName :=
    default (js "undefined") (keys files !! currentFileIndex s) in
  (currentFileName, default [] (assoc files currentFileName)).

(** One run of the main effect. *)
Inductive effect_outcome :=
| TimerSet              (* a timeout is pending *)
| Rerender (s : Reveal) (* state was set: the component renders again *)
| Nothing.

Definition effect (files : object) (s : Reveal) : effect_outcome :=
  match keys files with
  | [] => Nothing
  | _ :: _ =>
      let '(_, currentFileContent) := current_file files s in
      if (currentCharIndex s <? length currentFileContent)%nat then TimerSet
      else if (currentFileIndex s <? length (keys files) - 1)%nat then
        Rerender (mkReveal (displayedFiles s) (S (currentFileIndex s)) 0
                    (isComplete s) (hasNavigated s) (completions s))
      else if negb (isComplete s) && negb (hasNavigated s) then
        Rerender (mkReveal (displayedFiles s) (currentFileIndex s)
                    (currentCharIndex s) true true (S (completions s)))
      else Nothing
  end.

(** The timeout's callback. *)
Definition timer_fires (files : object) (s : Reveal) : Reveal :=
  let '(currentFileName, currentFileContent) := current_file files s in
  mkReveal
    (define (displayedFiles s) currentFileName
            (take (S (currentCharIndex s)) currentFileContent))
    (currentFileIndex s) (S (currentCharIndex s))
    (isComplete s) (hasNavigated s) (completions s).

(** Renders follow one another until the effect sets a timer or sets no
    state. *)
Fixpoint settle (fuel : nat) (files : object) (s : Reveal) : Reveal :=
  match fuel with
  | O => s
  | S fuel' =>
      match effect files s with
      | Rerender s' => settle fuel' files s'
      | TimerSet | Nothing => s
      end
  end.

(** One timer tick, when a timer is pending, and the renders it causes. *)
Definition tick (files : object) (s : Reveal) : Reveal :=
  match effect files s with
  | TimerSet => settle (S (length files)) files (timer_fires files s)
  | Rerender _ | Nothing => s
  end.

Definition mount (files : object) : Reveal :=
  settle (S (length files)) files reveal_start.

Definition after_ticks (files : object) (n : nat) : Reveal :=
  Nat.iter n (tick files) (mount files).

(** Total number of characters to reveal. *)
Definition total_length (files : object) : nat :=
  sum_list (map (fun e => length (snd e)) files).

(** ** The [GET] handler *)

(** The body of a JSON response of [GET]. *)
Inductive get_answer :=
| GetError (message : jsstring)
| GetConversation (id : jsstring) (conversation : Conversation)
| GetConversations (conversations : list (jsstring * Conversation)).

(** [Conversation.find({ userId }).sort({ updatedAt: -1 })] over the ids
    of the collection in the order of their [updatedAt], latest first;
    the timestamps are kept by the driver and are not among the fields
    of [Conversation], so the order comes with the query. *)
Definition find_by_user (userId : jsstring) (collection : store)
    (latest_first : list jsstring) : list (jsstring * Conversation) :=
  omap (fun id =>
          match collection !! id with
          | Some conversation =>
              if decide (conv_userId conversation = userId)
              then Some (id, conversation) else None
          | None => None
          end)
       latest_first.

(** [GET]: the status and the body of the response.  [userId] and
    [conversationId] are what [searchParams.get] returns, [None] for
    [null]; [latest_first] is [None] when the [find] query rejects. *)
Definition GET (env : Env) (latest_first : option (list jsstring))
    (userId conversationId : option jsstring) (collection : store)
  : Z * get_answer :=
  let failed := (500%Z, GetError (js "Failed to retrieve conversations")) in
  if connect_ok env then
    match userId with
    | None | Some [] => (400%Z, GetError (js "userId is required"))
    | Some (u :: ser) =>
        match conversationId with
        | Some (c :: id') =>
            let id := c :: id' in
            if find_ok env id then
              match collection !! id with
              | None => (404%Z, GetError (js "Conversation not found"))
              | Some conversation =>
                  if decide (conv_userId conversation ≠ u :: ser) then
                    (404%Z, GetError (js "Conversation not found"))
                  else (200%Z, GetConversation id conversation)
              end
            else failed
        | _ =>
            match latest_first with
            | Some ids =>
                (200%Z,
                 GetConversations (find_by_user (u :: ser) collection ids))
            | None => failed
            end
        end
    end
  else failed.

(** ** The cached database connection: [connectMongo] *)

(** [globalThis.mongoose]: [conn] is set once the connection is there;
    [promise] is the promise of [mongoose.connect], present once it has
    been called, with the way it settles. *)
Record Cached := mkCached {
  conn : bool;
  promise : option bool
}.

(** The cache as the module creates it. *)
Definition no_connection : Cached := mkCached false None.

(** One call of [connectMongo]: whether it resolves, how many times it
    called [mongoose.connect], and the cache it leaves.  [connects] tells
    whether a connection attempt made now would succeed. *)
Definition connectMongo (connects : bool) (cached : Cached)
  : bool * nat * Cached :=
  if conn cached then (true, O, cached)
  else
    let '(settles, calls) :=
      match promise cached with
      | Some settled => (settled, O)
      | None => (connects, 1%nat)
      end in
    if settles then (true, calls, mkCached true (Some settles))
    else (false, calls, mkCached false (Some settles)).

(** Successive calls of [connectMongo]: their results and the number of
    calls of [mongoose.connect] they made together. *)
Fixpoint connect_all (attempts : list bool) (cached : Cached)
  : list bool * nat :=
  match attempts with
  | [] => ([], O)
  | connects :: attempts' =>
      let '(result, calls, cached') := connectMongo connects cached in
      let '(results, calls') := connect_all attempts' cached' in
      (result :: results, (calls + calls')%nat)
  end.

(** ** The wire format of the event stream *)

(** What [sendData] enqueues for a payload [JSON.stringify(data)]. *)
Definition sse_frame (payload : jsstring) : jsstring :=
  js "data: " ++ payload ++ [10; 10].

(** ** The workspace page: [handleChatSubmit] *)

(** A character put in front of the first piece of a split. *)
Definition push_front (c : N) (pieces : list jsstring) : list jsstring :=
  match pieces with
  | piece :: pieces' => (c :: piece) :: pieces'
  | [] => [[c]]
  end.

(** [s.split("\n\n")] *)
Fixpoint split_blank (s : jsstring) : list jsstring :=
  match s with
  | [] => [[]]
  | c :: r =>
      match r with
      | d :: r' =>
          if (c =? 10) && (d =? 10) then [] :: split_blank r'
          else push_front c (split_blank r)
      | [] => [[c]]
      end
  end.

(** What the loop over the lines of [handleChatSubmit] hands to
    [JSON.parse] for one line, if anything. *)
Definition chat_payload (line : jsstring) : option jsstring :=
  if starts_with (js "data: ") line then
    let data := drop 6 line in
    if decide (data = js "[DONE]") then None else Some data
  else None.

(** The read loop of [handleChatSubmit]: the payloads handed to
    [JSON.parse], in order; [buffer] is what the previous chunks left. *)
Fixpoint chat_read (chunks : list jsstring) (buffer : jsstring)
  : list jsstring :=
  match chunks with
  | [] => []
  | chunk :: chunks' =>
      let lines := split_blank (buffer ++ chunk) in
      (* buffer = lines.pop() || "" *)
      omap chat_payload (removelast lines)
      ++ chat_read chunks' (default [] (last lines))
  end.

(** [s.includes(needle)] *)
Fixpoint includes (needle s : jsstring) : bool :=
  starts_with needle s
  || match s with
     | [] => false
     | _ :: r => includes needle r
     end.

(** What [fetch] and the reads of the body do for one chat request: the
    request rejects, the response has no body, or the body yields chunks
    and then ends, or rejects with a message. *)
Inductive chat_response :=
| FetchRejects (message : jsstring)
| NoStreamBody
| StreamBody (chunks : list jsstring) (failure : option jsstring).

(** The state of the workspace page that [handleChatSubmit] sets. *)
Record Chat := mkChat {
  chat_workspace : Workspace;
  chatError : jsstring;
  isChatGenerating : bool;
  chatHistory : list jsstring
}.

(** The text the outer [catch] shows for an error message. *)
Definition chat_error_text (errorMessage : jsstring) : jsstring :=
  if includes (js "truncate") errorMessage
     || includes (js "max_tokens") errorMessage
  then js "Response too large. Try a simpler prompt or try again later."
  else if includes (js "529") errorMessage
  then js "Anthropic API is temporarily unavailable. Please try again later."
  else js "Failed to update code: " ++ errorMessage.

Definition stop_streaming (w : Workspace) : Workspace :=
  mkWorkspace (ws_files w) (ws_streamedFiles w) (ws_generatedFilesList w)
    (ws_changedFiles w) (ws_promptFileHistory w) (ws_conversationId w)
    (ws_chatPrompt w) false (ws_storedFiles w).

Section ChatSubmit.

(** [JSON.parse] of a payload, read at the type the consumer declares;
    [None] when it throws. *)
Variable decode : jsstring → option Parsed.

(** [handleChatSubmit] *)
Definition handleChatSubmit (response : chat_response) (s : Chat) : Chat :=
  let w := chat_workspace s in
  let chatPrompt := ws_chatPrompt w in
  if bool_decide (trim chatPrompt = []) then
    mkChat w (js "Please enter a prompt to modify the code")
           (isChatGenerating s) (chatHistory s)
  else
    let prevFiles := ws_files w in
    let started :=
      mkWorkspace (ws_files w) [] (ws_generatedFilesList w)
        (ws_changedFiles w) (ws_promptFileHistory w) (ws_conversationId w)
        chatPrompt true (ws_storedFiles w) in
    let history := chatHistory s ++ [chatPrompt] in
    let caught (w' : Workspace) (message : jsstring) :=
      mkChat (stop_streaming w') (chat_error_text message) false history in
    match response with
    | FetchRejects message => caught started message
    | NoStreamBody => caught started (js "No stream body received")
    | StreamBody chunks failure =>
        let w' :=
          fold_left
            (fun w parsed => workspace_frame chatPrompt prevFiles parsed w)
            (omap decode (chat_read chunks [])) started in
        match failure with
        | None => mkChat w' [] false history
        | Some message => caught w' message
        end
    end.

End ChatSubmit.

(** The request body [handleChatSubmit] sends: [JSON.stringify] leaves
    out the conversation id when the page has none. *)
Definition chat_request (w : Workspace) : Body :=
  mkBody (Some (ws_chatPrompt w)) (Some (ws_files w)) None (Some true)
         (Some (js "anonymous"))
         (if present (ws_conversationId w) then ws_conversationId w else None)
         (Some true).

(** ** The generation page: [handleStreamingGenerate] *)

(** What the loop over the lines hands to [JSON.parse] for one line. *)
Definition generation_payload (line : jsstring) : option jsstring :=
  if starts_with (js "data: ") line then Some (drop 6 line) else None.

(** The read loop: every chunk is split into lines on its own. *)
Definition generation_read (chunks : list jsstring) : list jsstring :=
  omap generation_payload (concat (map (split 10) chunks)).

(** What [fetch] and the reads of the body do for the generation
    request. *)
Inductive generation_response :=
| RequestRejects (message : jsstring)
| Response (status : Z)
           (body : option (list jsstring * option jsstring)).

Record Generation := mkGeneration {
  gen_page : GenerationPage;
  gen_error : jsstring;
  gen_isGenerating : bool
}.

(** The text the outer [catch] shows for an error message. *)
Definition generation_error_text (errorMessage : jsstring) : jsstring :=
  if includes (js "truncate") errorMessage
     || includes (js "max_tokens") errorMessage
  then js "Response too large. Try a simpler prompt or try again later."
  else if includes (js "529") errorMessage
  then js "Anthropic API is temporarily unavailable. Please try again later."
  else js "Failed to generate code: " ++ errorMessage.

Section StreamingGenerate.

(** [JSON.parse] of a payload, read at the declared type; [None] when it
    throws. *)
Variable decode : jsstring → option Parsed.

(** [handleStreamingGenerate] *)
Definition handleStreamingGenerate (response : generation_response)
    (currentPrompt : jsstring) (s : Generation) : Generation :=
  if bool_decide (trim currentPrompt = []) then
    mkGeneration (gen_page s) (js "Please enter a prompt") false
  else
    let started :=
      mkGenerationPage [] (gp_storedFiles (gen_page s))
                       (gp_storedPrompt (gen_page s)) in
    let caught (page : GenerationPage) (message : jsstring) :=
      mkGeneration page (generation_error_text message) false in
    match response with
    | RequestRejects message => caught started message
    | Response status body =>
        if negb (ok status) then
          caught started
            (js "HTTP error! status: " ++ decimal (Z.to_nat status))
        else
          match body with
          | None => caught started (js "No response body received")
          | Some (chunks, failure) =>
              let page :=
                fold_left
                  (fun g data => generation_frame currentPrompt data g)
                  (omap decode (generation_read chunks)) started in
              match failure with
              | None => mkGeneration page [] false
              | Some message => caught page message
              end
          end
    end.

End StreamingGenerate.

(** ** The home page: [handleFileUpload] *)

(** A [File] the user picked, with what a [FileReader] does with it:
    the result of [readAsDataURL] and of [readAsText], [None] when the
    read fails (the [load] event never comes); [pf_id] stands for the
    number [Date.now() + Math.random()] gives when the file is added. *)
Record PickedFile := mkPickedFile {
  pf_name : jsstring;
  pf_type : jsstring;
  pf_size : Z;
  pf_lastModified : Z;
  pf_dataURL : option jsstring;
  pf_text : option jsstring;
  pf_id : Z
}.

(** The promise around a reader resolves only with a non-empty result;
    otherwise the [await] never returns. *)
Definition reader_result (result : option jsstring) : option jsstring :=
  match result with
  | Some (c :: r) => Some (c :: r)
  | _ => None
  end.

(** The content stored for a file; [None] when the handler waits for
    ever. *)
Definition upload_content (file : PickedFile) : option jsstring :=
  if starts_with (js "image/") (pf_type file) then
    reader_result (pf_dataURL file)
  else if bool_decide (pf_type file = js "application/pdf") then
    Some (js "[PDF file - will be processed by AI]")
  else if includes (js "excel") (pf_type file)
          || includes (js "spreadsheet") (pf_type file) then
    Some (js "[Excel file - will be processed by AI]")
  else reader_result (pf_text file).

Definition too_large (file : PickedFile) : bool :=
  (10 * 1024 * 1024 <? pf_size file)%Z.

(** The loop over the picked files: the files pushed and the error text
    set last, if any; [None] when an [await] never returns. *)
Fixpoint read_files (files : list PickedFile) (newFiles : list UploadedFile)
    (error : option jsstring)
  : option (list UploadedFile * option jsstring) :=
  match files with
  | [] => Some (newFiles, error)
  | file :: files' =>
      if too_large file then
        read_files files' newFiles
          (Some (js "File " ++ [34] ++ pf_name file ++ [34]
                 ++ js " is too large. Maximum size is 10MB."))
      else
        match upload_content file with
        | None => None
        | Some text =>
            read_files files'
              (newFiles ++ [mkUploadedFile (pf_id file) (pf_name file)
                              (pf_type file) (pf_size file) text
                              (pf_lastModified file)])
              error
        end
  end.

(** [handleFileUpload]: the new list of uploaded files, which is also
    written to [sessionStorage], and the error text; [None] when the
    handler never gets there. *)
Definition handleFileUpload (files : list PickedFile)
    (uploadedFiles : list UploadedFile) (error : option jsstring)
  : option (list UploadedFile * option jsstring) :=
  match read_files files [] error with
  | Some (newFiles, error') => Some (uploadedFiles ++ newFiles, error')
  | None => None
  end.

(** * Notions the properties are stated with *)

(** Number of entries of a change list that carry a given path. *)
Definition occurrences (p : jsstring) (changes : list FileChange) : nat :=
  length (filter (fun c => path c = p) changes).

(** A FileState whose contents are non-empty and whose paths are not
    names of [Object.prototype]. *)
Definition plain (o : object) : Prop :=
  NoDup (keys o)
  ∧ Forall (fun e => e.2 ≠ [] ∧ e.1 ∉ object_prototype_names) o.

(** An upstream that answers every call with status 529. *)
Definition always_overloaded : nat -> fetch_outcome := fun _ => Responds 529.

(** The members [JSON.parse] builds for an object of strings. *)
Definition to_members (o : object) : list (jsstring * json) :=
  map (fun '(k, v) => (k, JString v)) o.

(** [s.includes("```")] *)
Fixpoint has_fence (s : jsstring) : bool :=
  starts_with fence s
  || match s with
     | [] => false
     | _ :: r => has_fence r
     end.

(** The same property read by an automaton: [n] backticks have just been
    seen. *)
Fixpoint fence_free_from (n : nat) (s : jsstring) : bool :=
  match s with
  | [] => true
  | c :: r =>
      if c =? 96 then
        match n with
        | S (S _) => false
        | _ => fence_free_from (S n) r
        end
      else fence_free_from 0 r
  end.

(** Paths and contents of a FileState contain no run of three backticks. *)
Definition fence_free (o : object) : Prop :=
  Forall (fun e => has_fence e.1 = false ∧ has_fence e.2 = false) o.

(** A text made of white space only. *)
Definition all_space (ws : jsstring) : Prop :=
  Forall (fun c => is_space c = true) ws.

(** A stand-in for [Number.prototype.toString] in closed examples, none
    of which contains a number. *)
Definition lexeme_itself : jsstring → jsstring := fun lexeme => lexeme.

Definition counter_app : object :=
  [ (js "/src/App.js", js "const greet = `hi ${name}`; // { }");
    (js "/src/index.css", []) ].

(** Decides a closed decidable proposition by evaluation. *)
Ltac by_compute :=
  match goal with
  | |- ?P =>
      let d := constr:(_ : Decision P) in
      apply (@bool_decide_unpack P d); vm_compute; exact I
  end.

(** [currentFiles] mirrors the [fullState] of the last turn. *)
Definition mirrors (c : Conversation) : Prop :=
  ∃ turn, last (conversationTurns c) = Some turn
          ∧ currentFiles c = fullState turn.

Definition store_invariant (d : store) : Prop :=
  ∀ id c, d !! id = Some c → mirrors c.

(** A task that leaves the collection as it found it. *)
Definition no_write {A} (m : task A) : Prop :=
  ∀ st, db (m st).2 = db st.

(** A task that writes the collection at most once, and then a document
    whose [currentFiles] mirrors its last turn. *)
Definition one_write {A} (m : task A) : Prop :=
  ∀ st, db (m st).2 = db st
        ∨ ∃ id c, mirrors c ∧ db (m st).2 = <[id := c]> (db st).

Create HintDb effects.

(** The collection after a sequence of requests, each with its own
    environment. *)
Definition serve (Number_toString : jsstring → jsstring)
    (requests : list (Env * option Body)) (d : store) : store :=
  fold_left (fun d '(env, request) => db (POST Number_toString env request d).2)
            requests d.

Definition is_complete (e : event) : bool :=
  match e with
  | EComplete _ _ _ _ _ => true
  | _ => false
  end.

Definition is_error (e : event) : bool :=
  match e with
  | EError _ => true
  | _ => false
  end.

(** [complete] and [error] end a stream. *)
Definition is_terminal (e : event) : bool := is_complete e || is_error e.

(** Events that do not end the stream. *)
Definition quiet (evs : list event) : Prop :=
  Forall (fun e => is_terminal e = false) evs.


(** A JSON text written with apostrophes for quotation marks. *)
Definition jq (s : string) : jsstring :=
  map (fun c => if c =? 39 then 34 else c) (js s).

(** An upstream stream cut by the token limit: part of an object, then
    the frame that carries the stop reason. *)
Definition truncated_stream : Provider :=
  mkProvider (fun _ => Responds 200) None
    (Some
       ([ jq "data: {'type':'content_block_delta','delta':{'type':'text_delta','text':'{\'/src/App.js\':\'import Re'}}"
          ++ [10; 10];
          jq "data: {'type':'message_delta','delta':{'stop_reason':'max_tokens'}}"
          ++ [10; 10] ],
        true)).

(** The same stop reason after a text that happens to be a whole object. *)
Definition capped_stream : Provider :=
  mkProvider (fun _ => Responds 200) None
    (Some
       ([ jq "data: {'type':'content_block_delta','delta':{'type':'text_delta','text':'{\'/a.js\':\'1\'}'}}"
          ++ [10; 10];
          jq "data: {'type':'message_delta','delta':{'stop_reason':'max_tokens'}}"
          ++ [10; 10] ],
        true)).

Definition env_with (p : Provider) : Env :=
  mkEnv true (Some (js "sk-test")) (fun _ => true) true (js "65f0c0ffee") 0
        (fun _ _ => p).

Definition streaming_request : Body :=
  mkBody (Some (js "Create a counter")) None None (Some true) None None None.

(** An upstream that is never reached. *)
Definition unreachable_provider : Provider :=
  mkProvider (fun _ => Rejects) None None.

Definition iterative_without_prompt : Body :=
  mkBody None None None None None (Some (js "65f0missing")) (Some true).

Definition iterative_request : Body :=
  mkBody (Some (js "Make it blue")) None None None None
         (Some (js "65f0missing")) (Some true).

Definition env_without_key : Env :=
  mkEnv true None (fun _ => true) true (js "65f0c0ffee") 0
        (fun _ _ => unreachable_provider).

(** ToBoolean of [process.env.ANTHROPIC_API_KEY] is false. *)
Definition no_key (env : Env) : Prop :=
  api_key env = None ∨ api_key env = Some [].

(** All frames of a stream, in order. *)
Definition workspace_frames (chatPrompt : jsstring) (prevFiles : object)
    (frames : list Parsed) (w : Workspace) : Workspace :=
  fold_left (fun w parsed => workspace_frame chatPrompt prevFiles parsed w)
            frames w.

Definition generation_frames (currentPrompt : jsstring)
    (frames : list Parsed) (g : GenerationPage) : GenerationPage :=
  fold_left (fun g data => generation_frame currentPrompt data g) frames g.


(** What the component shows for a file: [displayedFiles[name] || ""]. *)
Definition shown (s : Reveal) (name : jsstring) : jsstring :=
  default [] (assoc (displayedFiles s) name).

(** Characters revealed so far: the files before the current one in
    full, and the current one up to the cursor. *)
Definition revealed (files : object) (s : Reveal) : nat :=
  (total_length (take (currentFileIndex s) files) + currentCharIndex s)%nat.

(** The state the effect leaves when it moves to the next file, and when
    it signals completion. *)
Definition advanced (s : Reveal) : Reveal :=
  mkReveal (displayedFiles s) (S (currentFileIndex s)) 0
           (isComplete s) (hasNavigated s) (completions s).

Definition completed (s : Reveal) : Reveal :=
  mkReveal (displayedFiles s) (currentFileIndex s) (currentCharIndex s)
           true true (S (completions s)).

(** What holds of every state the component goes through. *)
Definition reveal_inv (files : object) (s : Reveal) : Prop :=
  (currentFileIndex s < length files)%nat
  ∧ (currentCharIndex s ≤ length (current_file files s).2)%nat
  ∧ hasNavigated s = isComplete s
  ∧ completions s = (if isComplete s then 1 else 0)%nat
  ∧ (isComplete s = true → effect files s = Nothing)
  ∧ (∀ j name text,
       files !! j = Some (name, text) →
       shown s name
       = if (j <? currentFileIndex s)%nat then text
         else if (j =? currentFileIndex s)%nat
              then take (currentCharIndex s) text
              else []).

Definition three_files : object :=
  [ (js "/src/App.js", js "ab"); (js "/src/empty.css", []);
    (js "/src/index.js", js "c") ].

(** ** Further notions: the upstream client *)

(** An attempt that ends the loop with a response. *)
Definition succeeds (o : fetch_outcome) : bool :=
  match o with
  | Responds st => ok st
  | Rejects => false
  end.

(** The error a failed last attempt leaves. *)
Definition last_error (o : fetch_outcome) : fetch_error :=
  match o with
  | Responds st => StatusError st
  | Rejects => NetworkError
  end.

(** The factor by which the wait grows after a failed attempt. *)
Definition growth_factor (o : fetch_outcome) : Q :=
  match o with
  | Responds st => if (st =? 529)%Z then 2 else 3 # 2
  | Rejects => 3 # 2
  end.

(** The product of the factors of [n] attempts, from attempt [from] on. *)
Fixpoint growth (fetch : nat → fetch_outcome) (from n : nat) : Q :=
  match n with
  | O => 1
  | S n' => growth_factor (fetch from) * growth fetch (S from) n'
  end.

(** The waits the loop computes after [n] failed attempts. *)
Fixpoint delays (fetch : nat → fetch_outcome) (backoff : Q)
    (from n : nat) : list Q :=
  match n with
  | O => []
  | S n' =>
      backoff
      :: delays fetch (Qred (backoff * growth_factor (fetch from)))
                (S from) n'
  end.

(** The finite double-precision numbers of IEEE 754: [k * 2 ^ e] with
    [|k| < 2 ^ 53] and [e] from -1074 to 971.  A product of two doubles
    whose exact value is such a number is computed without rounding. *)
Definition is_double (q : Q) : Prop :=
  ∃ k e : Z, (Z.abs k < 2 ^ 53)%Z ∧ (-1074 ≤ e ≤ 971)%Z
             ∧ (q == inject_Z k * Qpower 2 e)%Q.

(** A backoff of a whole number of milliseconds, small enough for the
    waits of [retries] attempts to be doubles. *)
Definition whole_backoff (retries : nat) (backoff : Q) : Prop :=
  ∃ m : Z, (0 ≤ m)%Z ∧ (m * 3 ^ Z.of_nat retries < 2 ^ 53)%Z
           ∧ backoff = inject_Z m.

(** A trace of fetches with a sleep between any two of them. *)
Definition attempts (waits : list Q) : list action :=
  flat_map (fun wait => [Fetch; Sleep wait]) waits ++ [Fetch].

(** An upstream that fails twice, once by overload, and then answers. *)
Definition flaky : nat → fetch_outcome :=
  fun call =>
    match call with
    | O => Responds 529
    | S O => Rejects
    | _ => Responds 200
    end.

(** An upstream that is down. *)
Definition down : nat → fetch_outcome := fun _ => Responds 500.

(** ** Further notions: the extractor and the reconciler *)

(** What the callers of the extractor rely on: some file, no path twice,
    and no [__proto__] path. *)
Definition usable (files : object) : Prop :=
  files ≠ [] ∧ NoDup (keys files) ∧ js "__proto__" ∉ keys files.

(** The difference of two FileStates at one path: added, removed, changed
    or the same. *)
Definition difference (previousFiles newFiles : object) (p : jsstring)
  : option FileChange :=
  match assoc previousFiles p, assoc newFiles p with
  | None, Some _ => Some (mkChange p New None)
  | Some old, None => Some (mkChange p Deleted (Some (VString old)))
  | Some old, Some new =>
      if decide (old = new) then None
      else Some (mkChange p Updated (Some (VString old)))
  | None, None => None
  end.

(** The paths of two FileStates: those of the first, then those only the
    second has. *)
Definition union_paths (previousFiles newFiles : object) : list jsstring :=
  keys previousFiles
  ++ List.filter (fun p => negb (bool_decide (p ∈ keys previousFiles)))
                 (keys newFiles).

(** A key made of decimal digits only.  JavaScript enumerates the
    array-index keys of an object first, in numeric order, and the other
    string keys after them in creation order; a key that is not made of
    digits only is not an array index. *)
Definition all_digits (p : jsstring) : bool :=
  match p with
  | [] => false
  | _ => forallb (fun c => (48 <=? c) && (c <=? 57)) p
  end.

(** Objects whose keys are all enumerated in creation order. *)
Definition ordinary_keys (files : object) : Prop :=
  Forall (fun p => all_digits p = false) (keys files).

Definition first_version : object :=
  [ (js "/src/App.js", js "v1"); (js "/src/old.js", js "x");
    (js "/src/index.js", js "i") ].

Definition second_version : object :=
  [ (js "/src/index.js", js "i"); (js "/src/App.js", js "v2");
    (js "/src/new.css", js "c") ].

(** ** Further notions: the handler *)

(** The text deltas an upstream body carries, in the order the read loop
    meets them. *)
Definition deltas (chunks : list jsstring) : list jsstring :=
  omap line_text (concat (map (split 10) chunks)).

(** The [file] events of a generation. *)
Definition file_events (newFiles : object) (changes : list FileChange)
  : list event :=
  map (fun '(fileName, text) =>
         EFile fileName text (change_type changes fileName))
      newFiles.







(** The conversation an iterative request names, as [POST] loads it. *)
Definition loaded (body : Body) (d : store)
  : option (jsstring * Conversation) :=
  match default false (isIterativeUpdate body), conversationId body with
  | true, Some (c :: id') =>
      (fun conversation => (c :: id', conversation)) <$> d !! (c :: id')
  | _, _ => None
  end.

(** An upstream that answers a non-streaming request with one file. *)
Definition one_file_provider : Provider :=
  mkProvider (fun _ => Responds 200)
    (Some (mkProviderData [jq "{'/a.js':'1'}"] (Some (js "end_turn"))))
    None.

Definition plain_request : Body :=
  mkBody (Some (js "Create a counter")) None None None None None None.

(** The reply and the document of a successful non-streaming request
    that extracted [newFiles]. *)
Definition files_reply (env : Env) (body : Body)
    (conversation : option (jsstring * Conversation)) (newFiles : object)
  : reply * (jsstring * Conversation) :=
  let previousFiles := previous_files body conversation in
  let fullFileState := spread previousFiles newFiles in
  let changes := detectFileChanges previousFiles newFiles in
  let document :=
    next_document env body conversation newFiles fullFileState changes in
  (FilesReply newFiles fullFileState changes document.1
     (default (js "anonymous") (userId body))
     (default false (isIterativeUpdate body)),
   document).

(** A stored conversation of one turn, and a collection that holds it. *)
Definition alice_conversation : Conversation :=
  mkConversation (js "alice") (Some (js "Create a counter")) []
    [mkTurn (Some (js "Create a counter")) 0
       [mkChange (js "/src/App.js") New None] [(js "/src/App.js", js "v1")]]
    [(js "/src/App.js", js "v1")].

Definition one_conversation : store :=
  {[ js "65f0aaaa" := alice_conversation ]}.

(** An iterative request on that conversation, sent under another user
    id. *)
Definition foreign_update : Body :=
  mkBody (Some (js "Make it blue")) None None None (Some (js "mallory"))
         (Some (js "65f0aaaa")) (Some true).

(** An iterative request that names no conversation. *)
Definition update_without_id : Body :=
  mkBody (Some (js "Make it blue")) (Some [(js "/a.js", js "0")]) None None
         None None (Some true).

(** ** Further notions: the pages *)

(** A reader for the examples, for frames whose fields are strings. *)
Definition string_field (members : list (jsstring * json)) (name : string)
  : option jsstring :=
  match assoc members (js name) with
  | Some (JString s) => Some s
  | _ => None
  end.

Definition decode_strings (payload : jsstring) : option Parsed :=
  match JSON_parse payload with
  | Some (JObject members) =>
      Some (mkParsed (default [] (string_field members "type"))
              (string_field members "fileName")
              (string_field members "content") None None None
              (string_field members "conversationId")
              (string_field members "error"))
  | _ => None
  end.

(** The page with a prompt typed in, and a stream the server ends with
    an error event, cut in the middle of a frame. *)
Definition chat_before : Chat :=
  mkChat (mkWorkspace [(js "/a.js", js "1")] [] [] [] [] None
            (js "Make it blue") false None)
         [] false [].

Definition error_payloads : list jsstring :=
  [ jq "{'type':'status','message':'Applying changes...'}";
    jq "{'type':'error','error':'Status: 529'}" ].

Definition error_stream : list jsstring :=
  [ js "data: " ++ jq "{'type':'status','mess";
    jq "age':'Applying changes...'}" ++ [10];
    [10] ++ sse_frame (jq "{'type':'error','error':'Status: 529'}") ].

(** No frame of the stream decodes to a [complete] frame. *)
Definition no_complete (decode : jsstring → option Parsed)
    (payloads : list jsstring) : Prop :=
  Forall (fun payload =>
            ∀ parsed, decode payload = Some parsed →
                      p_type parsed ≠ js "complete")
         payloads.

(** A frame cut in two by a chunk boundary, [k] characters into its
    payload. *)
Definition cut_frame (payload : jsstring) (k : nat) : list jsstring :=
  [js "data: " ++ take k payload; drop k payload ++ [10; 10]].

(** ** From the handler's events to the pages *)

(** The frame a page parses for an event the handler sent: the fields
    [sendData] was given, at the type the consumers read them with;
    [message] is the text of [err.message]. *)
Definition frame_of_event (message : failure → jsstring) (e : event)
  : Parsed :=
  match e with
  | EStatus _ =>
      mkParsed (js "status") None None None None None None None
  | EProgress text =>
      mkParsed (js "progress") None (Some text) None None None None None
  | EFile fileName text changeType =>
      mkParsed (js "file") (Some fileName) (Some text) (Some changeType)
               None None None None
  | EComplete id _ changedFiles fullFiles _ =>
      mkParsed (js "complete") None None None (Some fullFiles)
               (Some changedFiles) (Some id) None
  | EError err =>
      mkParsed (js "error") None None None None None None
               (Some (message err))
  end.


(** [JSON.stringify] of the objects [sendData] is given, for the
    examples. *)
Definition status_name (s : Status) : jsstring :=
  match s with
  | New => js "new"
  | Updated => js "updated"
  | Deleted => js "deleted"
  end.

Definition change_payload (c : FileChange) : jsstring :=
  jq "{'path':" ++ quote (path c)
  ++ jq ",'status':" ++ quote (status_name (status c))
  ++ match previousContent c with
     | Some (VString s) => jq ",'previousContent':" ++ quote s
     | _ => []
     end
  ++ js "}".

Fixpoint join_comma (items : list jsstring) : jsstring :=
  match items with
  | [] => []
  | [item] => item
  | item :: items' => item ++ js "," ++ join_comma items'
  end.

Definition wire_payload (message : failure → jsstring) (e : event)
  : jsstring :=
  match e with
  | EStatus m => jq "{'type':'status','message':" ++ quote m ++ js "}"
  | EProgress text =>
      jq "{'type':'progress','content':" ++ quote text ++ js "}"
  | EFile fileName text changeType =>
      jq "{'type':'file','fileName':" ++ quote fileName
      ++ jq ",'content':" ++ quote text
      ++ jq ",'changeType':" ++ quote (status_name changeType) ++ js "}"
  | EComplete id user changedFiles fullFiles iterative =>
      jq "{'type':'complete','conversationId':" ++ quote id
      ++ jq ",'userId':" ++ quote user
      ++ jq ",'changedFiles':["
      ++ join_comma (map change_payload changedFiles)
      ++ jq "],'fullFiles':" ++ JSON_stringify fullFiles
      ++ jq ",'isIterativeUpdate':"
      ++ (if iterative then js "true" else js "false") ++ js "}"
  | EError err => jq "{'type':'error','error':" ++ quote (message err) ++ js "}"
  end.

(** Two frames the generation page cannot tell apart: it reads the type,
    the file name and the content. *)
Definition same_for_generation (a b : Parsed) : Prop :=
  p_type a = p_type b ∧ p_fileName a = p_fileName b
  ∧ p_content a = p_content b.

(** An event whose payload holds no line feed and parses, on the page, to
    the fields the handler sent. *)
Definition readable_frame (message : failure → jsstring)
    (encode : event → jsstring) (decode : jsstring → option Parsed)
    (e : event) : Prop :=
  (10 ∉ encode e)
  ∧ ∃ data, decode (encode e) = Some data
            ∧ same_for_generation data (frame_of_event message e).

(** A chunk the page reads: the frames of some events, whole. *)
Definition wire_chunk (encode : event → jsstring) (group : list event)
  : jsstring :=
  concat (map (fun e => sse_frame (encode e)) group).

(** Paths and contents are non-empty strings. *)
Definition nonempty_entries (files : object) : Prop :=
  Forall (fun e => e.1 ≠ [] ∧ e.2 ≠ []) files.

(** [err.message] for the examples. *)
Definition some_message : failure → jsstring := fun _ => js "Status: 529".

(** A workspace that points to a conversation the collection does not
    hold. *)
Definition stale_workspace : Workspace :=
  mkWorkspace [(js "/a.js", js "1")] [] [] [] [] (Some (js "65f0dead"))
              (js "Make it blue") false None.

(** ** Further notions: uploads, and the two modes *)

(** The file as it is stored, for a file whose content is there. *)
Definition uploaded (file : PickedFile) : option UploadedFile :=
  if too_large file then None
  else
    (fun text => mkUploadedFile (pf_id file) (pf_name file) (pf_type file)
                                (pf_size file) text (pf_lastModified file))
    <$> upload_content file.

Definition notes_file : PickedFile :=
  mkPickedFile (js "notes.txt") (js "text/plain") 5 0 None (Some (js "hello"))
               1.

Definition empty_file : PickedFile :=
  mkPickedFile (js "empty.txt") (js "text/plain") 0 0
               (Some (js "data:text/plain;base64,")) (Some []) 2.

Definition huge_file : PickedFile :=
  mkPickedFile (js "video.bin") (js "application/octet-stream") 20000000 0
               None None 3.



(** * Properties *)

(** ** Reconciler *)

Lemma Set_add_all_elem (l seen : list jsstring) (x : jsstring) :
  x ∈ Set_add_all seen l ↔ x ∈ seen ∨ x ∈ l.
Proof.
  revert seen. induction l as [|y l IH]; intros seen; simpl.
  - rewrite elem_of_nil. tauto.
  - destruct (decide (y ∈ seen)) as [Hin|Hout].
    + rewrite IH, elem_of_cons. split; [tauto|].
      intros [?|[->|?]]; tauto.
    + rewrite IH, elem_of_app, list_elem_of_singleton, elem_of_cons. tauto.
Qed.

Lemma Set_add_all_NoDup (l seen : list jsstring) :
  NoDup seen → NoDup (Set_add_all seen l).
Proof.
  revert seen. induction l as [|y l IH]; intros seen Hnd; simpl; [done|].
  destruct (decide (y ∈ seen)); [by apply IH|].
  apply IH, NoDup_app. split_and!; [done| |apply NoDup_singleton].
  intros z Hz Hz'. apply list_elem_of_singleton in Hz'. by subst.
Qed.

Lemma new_Set_elem (l : list jsstring) (x : jsstring) : x ∈ new_Set l ↔ x ∈ l.
Proof.
  unfold new_Set. rewrite Set_add_all_elem, elem_of_nil. tauto.
Qed.

Lemma new_Set_NoDup (l : list jsstring) : NoDup (new_Set l).
Proof. apply Set_add_all_NoDup, NoDup_nil_2. Qed.

Lemma classify_path (A B : object) (p : jsstring) (c : FileChange) :
  classify A B p = Some c → path c = p.
Proof.
  unfold classify. repeat case_match; intros [= <-]; done.
Qed.

(** The loop that pushes is a filtering map over the paths. *)
Lemma detectFileChanges_omap (A B : object) :
  detectFileChanges A B = omap (classify A B) (new_Set (keys A ++ keys B)).
Proof.
  unfold detectFileChanges.
  generalize (new_Set (keys A ++ keys B)) as l.
  assert (∀ l acc,
    fold_left (fun changes p =>
                 match classify A B p with
                 | Some c => changes ++ [c]
                 | None => changes
                 end) l acc = acc ++ omap (classify A B) l) as H.
  { induction l as [|p l IH]; intros acc; simpl.
    - by rewrite app_nil_r.
    - rewrite IH. destruct (classify A B p); [|done].
      by rewrite <- app_assoc. }
  intros l. by rewrite H.
Qed.

Lemma occurrences_omap (A B : object) (p : jsstring) (l : list jsstring) :
  NoDup l →
  occurrences p (omap (classify A B) l) =
  if bool_decide (p ∈ l) then
    match classify A B p with Some _ => 1%nat | None => 0%nat end
  else 0%nat.
Proof.
  unfold occurrences. induction 1 as [|q l Hq Hnd IH].
  - done.
  - cbn [omap list_omap]. destruct (classify A B q) as [c|] eqn:Hc.
    + rewrite filter_cons. apply classify_path in Hc as Hp.
      destruct (decide (path c = p)) as [Heq|Hne]; cbn [length]; rewrite IH.
      * assert (q = p) as -> by congruence.
        rewrite (bool_decide_eq_false_2 _ Hq).
        rewrite bool_decide_eq_true_2 by left. by rewrite Hc.
      * assert (q ≠ p) by congruence.
        rewrite (bool_decide_ext (p ∈ q :: l) (p ∈ l)); [done|].
        rewrite elem_of_cons. naive_solver.
    + rewrite IH. destruct (decide (p = q)) as [->|Hne].
      * rewrite Hc. by repeat case_bool_decide.
      * rewrite (bool_decide_ext (p ∈ q :: l) (p ∈ l)); [done|].
        rewrite elem_of_cons. naive_solver.
Qed.

Lemma get_string (o : object) (p s : jsstring) :
  get o p = VString s ↔ assoc o p = Some s.
Proof.
  unfold get. destruct (assoc o p); [naive_solver|].
  case_decide; naive_solver.
Qed.

Lemma assoc_is_Some {V} (o : list (jsstring * V)) (p : jsstring) :
  p ∈ map fst o ↔ is_Some (assoc o p).
Proof.
  induction o as [|[k v] o IH]; simpl.
  - rewrite elem_of_nil. split; [done|]. by intros [? ?].
  - rewrite elem_of_cons. destruct (decide (k = p)) as [->|Hne].
    + split; eauto.
    + rewrite IH. naive_solver.
Qed.

(** A path is left out exactly when both objects hold the same string
    under it, or neither object has it. *)
Lemma classify_None (A B : object) (p : jsstring) :
  p ∈ keys A ∨ p ∈ keys B →
  classify A B p = None ↔ ∃ s, assoc A p = Some s ∧ assoc B p = Some s.
Proof.
  intros Hin. unfold classify, strict_neq. split.
  - repeat case_match; try done. intros _.
    match goal with H : negb (bool_decide _) = false |- _ =>
      apply negb_false_iff, bool_decide_eq_true in H; rename H into Heq end.
    unfold keys in Hin.
    destruct Hin as [[s Hs]%assoc_is_Some|[s Hs]%assoc_is_Some]; exists s.
    + apply get_string in Hs as Hg. rewrite Hg in Heq.
      symmetry in Heq. apply get_string in Heq. done.
    + apply get_string in Hs as Hg. rewrite Hg in Heq.
      apply get_string in Heq. done.
  - intros (s & Ha%get_string & Hb%get_string). rewrite Ha, Hb. simpl.
    destruct (bool_decide (s = [])); simpl; by rewrite bool_decide_eq_true_2.
Qed.

(** C2.  For every pair of FileStates, the change list names no path
    twice; a path that holds the same content in both is left out; every
    other path of the union of the two key sets occurs exactly once, with
    status new, updated or deleted; and no other path occurs. *)
Theorem detectFileChanges_classifies_each_path_once (A B : object) :
  let changes := detectFileChanges A B in
  NoDup (map path changes)
  ∧ (∀ p s, assoc A p = Some s → assoc B p = Some s →
            occurrences p changes = 0%nat)
  ∧ (∀ p, p ∈ keys A ∨ p ∈ keys B →
          ¬ (∃ s, assoc A p = Some s ∧ assoc B p = Some s) →
          occurrences p changes = 1%nat
          ∧ ∃ c, c ∈ changes ∧ path c = p
                 ∧ (status c = New ∨ status c = Updated ∨ status c = Deleted))
  ∧ (∀ c, c ∈ changes → path c ∈ keys A ∨ path c ∈ keys B).
Proof.
  intros changes. subst changes. rewrite detectFileChanges_omap.
  pose proof (new_Set_NoDup (keys A ++ keys B)) as Hnd.
  split_and!.
  - revert Hnd. generalize (new_Set (keys A ++ keys B)) as l.
    induction l as [|q l IH]; intros Hnd; simpl; [apply NoDup_nil_2|].
    apply NoDup_cons in Hnd as [Hq Hnd].
    destruct (classify A B q) as [c|] eqn:Hc; [|by apply IH].
    simpl. apply NoDup_cons. split; [|by apply IH].
    rewrite (classify_path _ _ _ _ Hc). intros Hin. apply Hq.
    apply list_elem_of_fmap in Hin as (c' & -> & Hc').
    apply list_elem_of_omap in Hc' as (q' & Hq' & Hcq').
    by rewrite (classify_path _ _ _ _ Hcq').
  - intros p s Ha Hb. rewrite occurrences_omap by done.
    assert (classify A B p = None) as ->.
    { apply classify_None; [|by eauto].
      left. apply assoc_is_Some. by rewrite Ha. }
    by case_bool_decide.
  - intros p Hin Hdiff. rewrite occurrences_omap by done.
    rewrite bool_decide_eq_true_2 by (by apply new_Set_elem, elem_of_app).
    destruct (classify A B p) as [c|] eqn:Hc.
    + split; [done|]. exists c. split_and!.
      * apply list_elem_of_omap. exists p. split; [|done].
        by apply new_Set_elem, elem_of_app.
      * by apply classify_path in Hc.
      * destruct (status c); tauto.
    + by apply classify_None in Hc.
  - intros c (p & Hp & Hc)%list_elem_of_omap.
    apply new_Set_elem, elem_of_app in Hp.
    by rewrite (classify_path _ _ _ _ Hc).
Qed.

Lemma Set_add_all_fresh (l seen : list jsstring) :
  NoDup (seen ++ l) → Set_add_all seen l = seen ++ l.
Proof.
  revert seen. induction l as [|x l IH]; intros seen Hnd; cbn [Set_add_all].
  - by rewrite app_nil_r.
  - rewrite decide_False.
    + rewrite IH; rewrite <- app_assoc; done.
    + apply NoDup_app in Hnd as (_ & Hd & _). intros Hin.
      apply (Hd x Hin). left.
Qed.

Lemma assoc_elem_of {V} (o : list (jsstring * V)) (k : jsstring) (v : V) :
  NoDup (map fst o) → (k, v) ∈ o → assoc o k = Some v.
Proof.
  intros Hnd [i Hi]%list_elem_of_lookup. revert i Hnd Hi.
  induction o as [|[k0 v0] o IH]; intros i Hnd Hi; [done|].
  cbn [map fst] in Hnd. apply NoDup_cons in Hnd as [Hk0 Hnd].
  destruct i as [|i]; cbn in Hi.
  - injection Hi as -> ->. cbn. by rewrite decide_True.
  - cbn [assoc]. rewrite decide_False; [by eapply IH|].
    intros ->. apply Hk0. apply list_elem_of_fmap.
    exists (k, v). split; [done|]. by eapply list_elem_of_lookup_2.
Qed.

Lemma omap_map_Some {A B C} (f : B → option C) (g : A → B) (h : A → C)
    (l : list A) :
  (∀ x, x ∈ l → f (g x) = Some (h x)) → omap f (map g l) = map h l.
Proof.
  induction l as [|x l IH]; intros H; [done|].
  cbn [map omap list_omap]. rewrite H by left. cbn. f_equal.
  apply IH. intros y Hy. apply H. by right.
Qed.

(** On such FileStates the comparison with the empty FileState is the one
    the specification describes: every path of the previous state is
    deleted and carries its content; every path of the next state is
    new. *)
Lemma detectFileChanges_against_empty (o : object) :
  plain o →
  detectFileChanges o []
  = map (fun e => mkChange e.1 Deleted (Some (VString e.2))) o
  ∧ detectFileChanges [] o = map (fun e => mkChange e.1 New None) o.
Proof.
  intros [Hnd Hplain]. rewrite !detectFileChanges_omap. unfold new_Set.
  cbn [keys map app]. rewrite app_nil_r.
  rewrite Set_add_all_fresh by done. cbn [app]. unfold keys.
  rewrite Forall_forall in Hplain.
  split; apply omap_map_Some; intros [k v] Hin;
    destruct (Hplain _ Hin) as [Hv Hk]; cbn [fst snd] in *;
    unfold classify, get; cbn [assoc];
    rewrite (assoc_elem_of o k v Hnd Hin), (decide_False _ _ Hk);
    cbn [truthy negb andb]; by rewrite bool_decide_eq_false_2.
Qed.

(** C3.  What the code does for a path whose content is the empty string:
    compared with the empty FileState, such a path of the previous state
    is classified updated, not deleted, and such a path of the next state
    is classified updated, not new, because presence is tested by
    truthiness. *)
Theorem detectFileChanges_empty_content_is_updated :
  detectFileChanges [(js "/empty.css", [])] []
  = [mkChange (js "/empty.css") Updated (Some (VString []))]
  ∧ detectFileChanges [] [(js "/empty.css", [])]
    = [mkChange (js "/empty.css") Updated (Some VUndefined)].
Proof. split; vm_compute; reflexivity. Qed.

(** ** Retry wrapper *)

(** C4, as the claim states it, fails: no sleep of 4000 ms follows the
    third attempt. *)
Lemma fetchWithRetry_no_third_sleep :
  snd (fetchWithRetry always_overloaded default_retries default_backoff)
  ≠ [Fetch; Sleep 1000; Fetch; Sleep 2000; Fetch; Sleep 4000].
Proof. vm_compute. discriminate. Qed.

(** C4, amended.  When every fetch returns status 529, the wrapper makes
    exactly three attempts, sleeps 1000 ms after the first and 2000 ms
    after the second, does not sleep after the third, and throws the
    status error of the third response. *)
Theorem fetchWithRetry_overloaded :
  fetchWithRetry always_overloaded default_retries default_backoff
  = (inl (StatusError 529), [Fetch; Sleep 1000; Fetch; Sleep 2000; Fetch]).
Proof. vm_compute. reflexivity. Qed.

(** ** JSON strings: quoting and reading back *)

(** Induction following the recursion of [quote_body]. *)
Lemma quote_body_induction (P : jsstring → Prop) :
  P [] →
  (∀ c d r, is_high_surrogate c && is_low_surrogate d = true →
            P r → P (c :: d :: r)) →
  (∀ c r, quote_body (c :: r) = quote_unit c ++ quote_body r →
          P r → P (c :: r)) →
  ∀ s, P s.
Proof.
  intros Hnil Hpair Hunit s.
  enough (P s ∧ ∀ c, P (c :: s)) by tauto.
  induction s as [|d r [IH1 IH2]].
  - split; [done|]. intros c. apply Hunit; [|done].
    simpl. by rewrite app_nil_r.
  - split; [apply IH2|]. intros c.
    destruct (is_high_surrogate c && is_low_surrogate d) eqn:Hp.
    + by apply Hpair.
    + apply Hunit; [|apply IH2]. cbn [quote_body]. by rewrite Hp.
Qed.

Lemma quote_body_pair (c d : N) (r : jsstring) :
  is_high_surrogate c && is_low_surrogate d = true →
  quote_body (c :: d :: r) = c :: d :: quote_body r.
Proof. intros Hp. cbn [quote_body]. by rewrite Hp. Qed.

Lemma hex_value_digit (n : N) : n < 16 → hex_value (hex_digit n) = Some n.
Proof.
  intros Hn. unfold hex_value, hex_digit.
  destruct (N.ltb_spec n 10).
  - rewrite (proj2 (N.leb_le 48 (48 + n))) by lia.
    rewrite (proj2 (N.leb_le (48 + n) 57)) by lia. simpl. f_equal. lia.
  - rewrite (proj2 (N.leb_le 48 (87 + n))) by lia.
    rewrite (proj2 (N.leb_gt (87 + n) 57)) by lia.
    rewrite (proj2 (N.leb_le 97 (87 + n))) by lia.
    rewrite (proj2 (N.leb_le (87 + n) 102)) by lia. simpl. f_equal. lia.
Qed.

Lemma hex4_unicode_escape (c : N) :
  c < 65536 →
  hex4 (hex_digit (c / 4096 mod 16)) (hex_digit (c / 256 mod 16))
       (hex_digit (c / 16 mod 16)) (hex_digit (c mod 16)) = Some c.
Proof.
  intros Hc. unfold hex4.
  rewrite !hex_value_digit by (apply N.mod_lt; lia).
  f_equal. zify. Z.to_euclidean_division_equations. lia.
Qed.

Lemma parse_unicode_escape (h1 h2 h3 h4 u : N) (X : jsstring) :
  hex4 h1 h2 h3 h4 = Some u →
  parse_string_body (92 :: 117 :: h1 :: h2 :: h3 :: h4 :: X)
  = prepend u (parse_string_body X).
Proof. intros H. cbn -[hex4]. by rewrite H. Qed.

Lemma quote_unit_escaped_bound (c : N) :
  (c <? 32) || is_high_surrogate c || is_low_surrogate c = true → c < 65536.
Proof.
  unfold is_high_surrogate, is_low_surrogate.
  rewrite !orb_true_iff, !andb_true_iff, N.ltb_lt, !N.leb_le. lia.
Qed.

Lemma parse_raw_unit (c : N) (X : jsstring) :
  (c =? 34) = false → (c =? 92) = false → (c <? 32) = false →
  parse_string_body (c :: X) = prepend c (parse_string_body X).
Proof. intros H1 H2 H3. cbn [parse_string_body]. by rewrite H1, H2, H3. Qed.

(** Reading back what [quote_unit] writes gives the code unit. *)
Lemma parse_quote_unit (c : N) (X : jsstring) :
  parse_string_body (quote_unit c ++ X) = prepend c (parse_string_body X).
Proof.
  unfold quote_unit.
  repeat match goal with
  | |- context [if ?b =? ?k then _ else _] =>
      destruct (N.eqb_spec b k) as [->|?]; [reflexivity|]
  end.
  destruct ((c <? 32) || is_high_surrogate c || is_low_surrogate c) eqn:He.
  - unfold unicode_escape. cbn [app].
    apply parse_unicode_escape, hex4_unicode_escape.
    by apply quote_unit_escaped_bound.
  - apply orb_false_iff in He as [[H32 _]%orb_false_iff _].
    cbn [app]. apply parse_raw_unit; [by apply N.eqb_neq..|done].
Qed.

Lemma surrogate_is_raw (c : N) :
  is_high_surrogate c = true ∨ is_low_surrogate c = true →
  (c =? 34) = false ∧ (c =? 92) = false ∧ (c <? 32) = false ∧ c ≠ 96.
Proof.
  unfold is_high_surrogate, is_low_surrogate.
  rewrite !andb_true_iff, !N.leb_le, !N.eqb_neq, N.ltb_ge. lia.
Qed.

(** Reading back a quoted string gives the string, whatever follows the
    closing quotation mark. *)
Lemma parse_quote_body (s X : jsstring) :
  parse_string_body (quote_body s ++ 34 :: X) = Some (s, X).
Proof.
  induction s as [|c d r Hp IH|c r Heq IH] using quote_body_induction.
  - reflexivity.
  - rewrite quote_body_pair by done. apply andb_true_iff in Hp as [Hc Hd].
    destruct (surrogate_is_raw c) as (?&?&?&_); [by left|].
    destruct (surrogate_is_raw d) as (?&?&?&_); [by right|].
    cbn [app]. rewrite !parse_raw_unit by done. by rewrite IH.
  - rewrite Heq, <- app_assoc, parse_quote_unit. by rewrite IH.
Qed.

(** ** Parsing a serialized FileState *)

Lemma quote_app (s Y : jsstring) :
  quote s ++ Y = 34 :: quote_body s ++ 34 :: Y.
Proof. unfold quote. cbn [app]. by rewrite <- app_assoc. Qed.

Lemma assoc_None {V} (o : list (jsstring * V)) (k : jsstring) :
  k ∉ map fst o → assoc o k = None.
Proof.
  intros Hk. destruct (assoc o k) eqn:H; [|done].
  exfalso. apply Hk, assoc_is_Some. by rewrite H.
Qed.

Lemma define_fresh {V} (o : list (jsstring * V)) (k : jsstring) (v : V) :
  k ∉ map fst o → define o k v = o ++ [(k, v)].
Proof. intros Hk. unfold define. by rewrite assoc_None. Qed.

(** One member, its separator read by the caller's continuation. *)
Lemma parse_members_step (fuel : nat) (k v Y : jsstring)
    (acc : list (jsstring * json)) :
  parse_members (S (S fuel)) (quote k ++ 58 :: quote v ++ Y) acc
  = match skip_ws Y with
    | c3 :: r4 =>
        if c3 =? 44 then
          parse_members (S fuel) (skip_ws r4) (define acc k (JString v))
        else if c3 =? 125 then Some (JObject (define acc k (JString v)), r4)
        else None
    | [] => None
    end.
Proof.
  rewrite quote_app. cbn [parse_members]. change (34 =? 34) with true.
  cbv iota. rewrite parse_quote_body. cbn [skip_ws].
  change (is_json_ws 58) with false. cbv iota.
  change (58 =? 58) with true. cbv iota.
  rewrite quote_app. cbn [skip_ws]. change (is_json_ws 34) with false.
  cbv iota. cbn [parse_value]. change (34 =? 34) with true. cbv iota.
  by rewrite parse_quote_body.
Qed.

Lemma skip_ws_quote (s Y : jsstring) : skip_ws (quote s ++ Y) = quote s ++ Y.
Proof. by rewrite quote_app. Qed.

Lemma stringify_members_cons (k v : jsstring) (e : jsstring * jsstring)
    (o : object) :
  stringify_members ((k, v) :: e :: o)
  = quote k ++ 58 :: quote v ++ 44 :: stringify_members (e :: o).
Proof. reflexivity. Qed.

Lemma stringify_members_single (k v : jsstring) :
  stringify_members [(k, v)] = quote k ++ 58 :: quote v ++ [].
Proof. cbn [stringify_members]. by rewrite app_nil_r. Qed.

Lemma member_text (k v Y Z : jsstring) :
  (quote k ++ 58 :: quote v ++ Y) ++ Z = quote k ++ 58 :: quote v ++ Y ++ Z.
Proof. by rewrite <- app_assoc, <- app_comm_cons, <- app_assoc. Qed.

Lemma skip_ws_stringify_members (e : jsstring * jsstring) (o : object)
    (Z : jsstring) :
  skip_ws (stringify_members (e :: o) ++ Z) = stringify_members (e :: o) ++ Z.
Proof.
  destruct e as [k v].
  destruct o as [|e' o];
    [rewrite stringify_members_single|rewrite stringify_members_cons];
    by rewrite member_text, skip_ws_quote.
Qed.

Lemma parse_members_stringify (o : object) :
  ∀ (acc : list (jsstring * json)) (fuel : nat) (X : jsstring),
    o ≠ [] →
    NoDup (map fst acc ++ keys o) →
    (length o < fuel)%nat →
    parse_members fuel (stringify_members o ++ 125 :: X) acc
    = Some (JObject (acc ++ to_members o), X).
Proof.
  induction o as [|[k v] o IH]; intros acc fuel X Hne Hnd Hfuel; [done|].
  destruct fuel as [|[|fuel]]; [simpl in Hfuel; lia..|].
  assert (k ∉ map fst acc) as Hk.
  { apply NoDup_app in Hnd as (_ & Hd & _). intros Hin.
    apply (Hd k Hin). left. }
  destruct o as [|e o].
  - rewrite stringify_members_single, member_text, parse_members_step.
    cbn [app skip_ws]. change (is_json_ws 125) with false. cbv iota.
    change (125 =? 44) with false. change (125 =? 125) with true. cbv iota.
    by rewrite define_fresh.
  - rewrite stringify_members_cons, member_text, parse_members_step.
    cbn [app skip_ws]. change (is_json_ws 44) with false. cbv iota.
    change (44 =? 44) with true. cbv iota.
    rewrite skip_ws_stringify_members, define_fresh by done.
    rewrite IH.
    + by rewrite <- app_assoc.
    + done.
    + rewrite map_app. cbn [map fst]. rewrite <- app_assoc. exact Hnd.
    + simpl in *. lia.
Qed.

Lemma stringify_members_length (o : object) :
  (length o ≤ length (stringify_members o))%nat.
Proof.
  induction o as [|[k v] o IH]; [done|].
  destruct o as [|e o].
  - rewrite stringify_members_single, quote_app. cbn [length]. lia.
  - rewrite stringify_members_cons, quote_app.
    cbn [length] in *. rewrite !length_app. cbn [length].
    rewrite !length_app. cbn [length]. lia.
Qed.

Lemma stringify_members_head (e : jsstring * jsstring) (o : object)
    (Z : jsstring) :
  ∃ Y, stringify_members (e :: o) ++ Z = 34 :: Y.
Proof.
  destruct e as [k v].
  destruct o as [|e' o];
    [rewrite stringify_members_single|rewrite stringify_members_cons];
    rewrite member_text, quote_app; eauto.
Qed.

(** [JSON.parse] reads a serialized non-empty FileState back as the object
    of its members. *)
Lemma JSON_parse_stringify (o : object) :
  o ≠ [] → NoDup (keys o) →
  JSON_parse (JSON_stringify o) = Some (JObject (to_members o)).
Proof.
  intros Hne Hnd. unfold JSON_parse, JSON_stringify.
  cbn [skip_ws]. change (is_json_ws 123) with false. cbv iota.
  cbn [parse_value]. change (123 =? 34) with false.
  change (123 =? 123) with true. cbv iota.
  destruct o as [|e o]; [done|].
  rewrite skip_ws_stringify_members.
  destruct (stringify_members_head e o [125]) as [Y HY].
  rewrite HY at 1. change (34 =? 125) with false. cbv iota.
  rewrite (parse_members_stringify (e :: o) [] _ []); [done..| |].
  - done.
  - pose proof (stringify_members_length (e :: o)).
    cbn [length] in *. rewrite length_app. cbn [length]. lia.
Qed.

Lemma set_fresh (o : object) (k v : jsstring) :
  k ≠ js "__proto__" → k ∉ keys o → set o k v = o ++ [(k, v)].
Proof.
  intros Hp Hk. unfold set. rewrite decide_False by done.
  by apply define_fresh.
Qed.

Section ExtractLoop.
Variable Number_toString : jsstring → jsstring.

(** The loop over [Object.entries(parsed)] rebuilds a FileState that has
    no repeated key and no [__proto__] key. *)
Lemma files_loop (o acc : object) :
  NoDup (keys acc ++ keys o) →
  js "__proto__" ∉ keys o →
  fold_left
    (fun files '(key, value) =>
       match value with
       | JString s => set files key s
       | _ => set files key (to_String Number_toString value)
       end)
    (to_members o) acc
  = acc ++ o.
Proof.
  revert acc. induction o as [|[k v] o IH]; intros acc Hnd Hproto.
  - by rewrite app_nil_r.
  - cbn [to_members map fold_left]. fold (to_members o).
    assert (k ∉ keys acc) as Hk.
    { apply NoDup_app in Hnd as (_ & Hd & _). intros Hin.
      apply (Hd k Hin). left. }
    rewrite set_fresh; [|intros ->; apply Hproto; left|done].
    rewrite IH.
    + by rewrite <- app_assoc.
    + unfold keys in *. rewrite map_app. cbn [map fst].
      rewrite <- app_assoc. exact Hnd.
    + intros Hin. apply Hproto. by right.
Qed.

(** Once the candidate text, stripped and trimmed, is the serialization of
    a FileState, the extractor returns that FileState. *)
Lemma extract_of_candidate (text : jsstring) (F : object) :
  F ≠ [] → NoDup (keys F) → js "__proto__" ∉ keys F →
  trim (remove_fences 0 (candidate text)) = JSON_stringify F →
  extractAndParseJSON Number_toString text = inr F.
Proof.
  intros Hne Hnd Hproto Hc. unfold extractAndParseJSON.
  rewrite Hc, JSON_parse_stringify by done.
  cbn [entries]. rewrite files_loop by done. cbn [app].
  destruct F; [done|reflexivity].
Qed.

End ExtractLoop.

(** ** Texts without a run of three backticks *)

Lemma starts_with_fence (s : jsstring) :
  starts_with fence s = true ↔ ∃ r, s = 96 :: 96 :: 96 :: r.
Proof.
  unfold starts_with, fence. rewrite bool_decide_eq_true. cbn [length].
  split.
  - destruct s as [|a [|b [|c r]]]; cbn [take]; intros [=]; subst. eauto.
  - by intros [r ->].
Qed.

Lemma starts_with_fence_false (c : N) (r : jsstring) :
  c ≠ 96 → starts_with fence (c :: r) = false.
Proof.
  intros Hc. apply not_true_iff_false. rewrite starts_with_fence.
  intros [r' [=]]. done.
Qed.

Lemma has_fence_cons (c : N) (r : jsstring) :
  has_fence (c :: r) = false → has_fence r = false.
Proof. cbn [has_fence]. by intros [_ ?]%orb_false_iff. Qed.

Lemma has_fence_starts (s : jsstring) :
  has_fence s = false → starts_with fence s = false.
Proof. destruct s; cbn [has_fence]; by intros [? _]%orb_false_iff. Qed.

Lemma fence_free_has_fence (s : jsstring) (n : nat) :
  fence_free_from n s = true → has_fence s = false.
Proof.
  revert n. induction s as [|c r IH]; intros n H; [done|].
  cbn [has_fence]. apply orb_false_iff. split.
  - apply not_true_iff_false. rewrite starts_with_fence.
    intros [r' [= -> ->]]. cbn in H.
    destruct n as [|[|n]]; cbn in H; done.
  - cbn [fence_free_from] in H. destruct (c =? 96).
    + destruct n as [|[|n]]; [by eapply IH..|done].
    + by eapply IH.
Qed.

Lemma has_fence_fence_free (s : jsstring) :
  has_fence s = false → fence_free_from 0 s = true.
Proof.
  enough (∀ n, (n ≤ 2)%nat → fence_free_from n s = false →
               has_fence s = true
               ∨ ∃ r, s = replicate (3 - n) 96 ++ r) as H.
  { intros Hf. apply not_false_iff_true. intros Hs.
    destruct (H 0%nat ltac:(lia) Hs) as [?|[r ->]]; [congruence|].
    cbn in Hf. done. }
  induction s as [|c r IH]; intros n Hn H; [done|].
  cbn [fence_free_from] in H. destruct (N.eqb_spec c 96) as [->|Hc].
  - destruct n as [|[|n]].
    + destruct (IH 1%nat ltac:(lia) H) as [Hr|[r' ->]].
      * left. cbn [has_fence]. rewrite Hr. apply orb_true_r.
      * right. by exists r'.
    + destruct (IH 2%nat ltac:(lia) H) as [Hr|[r' ->]].
      * left. cbn [has_fence]. rewrite Hr. apply orb_true_r.
      * right. by exists r'.
    + right. assert (n = 0%nat) as -> by lia. by exists r.
  - destruct (IH 0%nat ltac:(lia) H) as [Hr|[r' ->]].
    + left. cbn [has_fence]. rewrite Hr. apply orb_true_r.
    + left. cbn [has_fence]. apply orb_true_iff. right.
      cbn. done.
Qed.

(** A character other than a backtick separates the runs on its sides. *)
Lemma fence_free_from_sep (a b : jsstring) (c : N) (n : nat) :
  c ≠ 96 →
  fence_free_from n (a ++ c :: b)
  = fence_free_from n a && fence_free_from 0 b.
Proof.
  intros Hc. revert n. induction a as [|x a IH]; intros n.
  - cbn. by rewrite (proj2 (N.eqb_neq c 96)).
  - cbn [app fence_free_from]. destruct (x =? 96); [|apply IH].
    destruct n as [|[|n]]; [apply IH..|done].
Qed.

Lemma starts_with_fence_sep (a b : jsstring) (c : N) :
  c ≠ 96 → has_fence a = false → starts_with fence (a ++ c :: b) = false.
Proof.
  intros Hc Ha. apply not_true_iff_false. rewrite starts_with_fence.
  intros [r Hr]. apply has_fence_starts in Ha.
  apply not_true_iff_false in Ha. apply Ha, starts_with_fence.
  destruct a as [|x [|y [|z a]]]; cbn in Hr; simplify_eq; eauto.
Qed.

Lemma hex_digit_not_backtick (n : N) : hex_digit n ≠ 96.
Proof. unfold hex_digit. destruct (N.ltb_spec n 10); lia. Qed.

Lemma quote_unit_no_backtick (c : N) :
  c ≠ 96 → quote_unit c ≠ [] ∧ Forall (fun x => x ≠ 96) (quote_unit c).
Proof.
  intros Hc. unfold quote_unit.
  repeat match goal with
  | |- context [if ?b =? ?k then _ else _] =>
      destruct (N.eqb_spec b k) as [->|?];
      [split; [done|repeat constructor; lia]|]
  end.
  destruct ((c <? 32) || is_high_surrogate c || is_low_surrogate c).
  - split; [done|]. unfold unicode_escape.
    repeat constructor; try lia; apply hex_digit_not_backtick.
  - split; [done|]. by repeat constructor.
Qed.

Lemma fence_free_from_skip (u X : jsstring) (n : nat) :
  u ≠ [] → Forall (fun x => x ≠ 96) u →
  fence_free_from n (u ++ X) = fence_free_from 0 X.
Proof.
  intros Hne Hu. revert n. induction Hu as [|x u Hx Hu IH]; intros n; [done|].
  cbn [app fence_free_from]. rewrite (proj2 (N.eqb_neq x 96)) by done.
  destruct u as [|y u]; [done|]. by apply IH.
Qed.

(** Quoting neither creates nor removes a run of backticks. *)
Lemma fence_free_quote_body (s : jsstring) :
  ∀ n, fence_free_from n (quote_body s) = fence_free_from n s.
Proof.
  induction s as [|c d r Hp IH|c r Heq IH] using quote_body_induction;
    intros n.
  - done.
  - rewrite quote_body_pair by done. apply andb_true_iff in Hp as [Hc Hd].
    destruct (surrogate_is_raw c) as (_&_&_&?); [by left|].
    destruct (surrogate_is_raw d) as (_&_&_&?); [by right|].
    cbn [fence_free_from].
    rewrite (proj2 (N.eqb_neq c 96)), (proj2 (N.eqb_neq d 96)) by done.
    apply IH.
  - rewrite Heq. destruct (N.eqb_spec c 96) as [->|Hc].
    + change (quote_unit 96) with [96]. cbn [app fence_free_from].
      change (96 =? 96) with true. cbv iota.
      destruct n as [|[|n]]; [apply IH..|done].
    + destruct (quote_unit_no_backtick c Hc) as [Hne Hall].
      rewrite fence_free_from_skip by done. cbn [fence_free_from].
      rewrite (proj2 (N.eqb_neq c 96)) by done. apply IH.
Qed.

Lemma fence_free_quote (s Y : jsstring) :
  fence_free_from 0 (quote s ++ Y)
  = fence_free_from 0 s && fence_free_from 0 Y.
Proof.
  rewrite quote_app. cbn [fence_free_from]. change (34 =? 96) with false.
  cbv iota. rewrite fence_free_from_sep by done.
  by rewrite fence_free_quote_body.
Qed.

Lemma fence_free_member (k v Y : jsstring) :
  fence_free_from 0 (quote k ++ 58 :: quote v ++ Y)
  = fence_free_from 0 k && fence_free_from 0 v && fence_free_from 0 Y.
Proof.
  rewrite fence_free_quote. cbn [fence_free_from].
  change (58 =? 96) with false. cbv iota.
  by rewrite fence_free_quote, andb_assoc.
Qed.

Lemma fence_free_stringify_members (o : object) :
  fence_free o → fence_free_from 0 (stringify_members o) = true.
Proof.
  induction 1 as [|[k v] o [Hk Hv] Hff IH]; [done|].
  apply has_fence_fence_free in Hk, Hv. cbn [fst snd] in *.
  destruct o as [|e o].
  - rewrite stringify_members_single, fence_free_member, Hk, Hv. done.
  - rewrite stringify_members_cons, fence_free_member, Hk, Hv.
    cbn [andb fence_free_from]. change (44 =? 96) with false. cbv iota.
    apply IH.
Qed.

(** ** Stripping fence markers and trimming *)

Lemma starts_with_app (p q s : jsstring) :
  starts_with (p ++ q) s = true → starts_with p s = true.
Proof.
  unfold starts_with. rewrite !bool_decide_eq_true. intros H.
  rewrite <- (take_app_length p q) at 2. rewrite <- H, take_take.
  f_equal. rewrite length_app. lia.
Qed.

Lemma starts_with_fence_json (s : jsstring) :
  starts_with fence s = false → starts_with fence_json s = false.
Proof.
  intros H. apply not_true_iff_false. intros H'.
  apply starts_with_app in H'. congruence.
Qed.

Lemma starts_with_cons (c d : N) (p s : jsstring) :
  starts_with (c :: p) (d :: s) = true → c = d ∧ starts_with p s = true.
Proof.
  unfold starts_with. rewrite !bool_decide_eq_true. cbn [length take].
  intros H. injection H as -> Htake. by rewrite Htake.
Qed.

(** A text without a run of three backticks has no fence marker to
    strip. *)
Lemma remove_fences_id (s : jsstring) :
  has_fence s = false → remove_fences 0 s = s.
Proof.
  induction s as [|c r IH]; intros Hs; [done|].
  cbn [remove_fences].
  rewrite starts_with_fence_json by by apply has_fence_starts.
  rewrite has_fence_starts by done.
  destruct (starts_with (10 :: fence) (c :: r)) eqn:Hnl.
  - apply starts_with_cons in Hnl as [_ Hr]. apply has_fence_cons in Hs.
    apply has_fence_starts in Hs. congruence.
  - f_equal. by eapply IH, has_fence_cons.
Qed.

Lemma trim_end_nonspace (a : jsstring) (c : N) :
  is_space c = false → trim_end (a ++ [c]) = a ++ [c].
Proof.
  intros Hc. induction a as [|x a IH].
  - cbn. by rewrite Hc.
  - cbn [app trim_end]. rewrite IH. by destruct a.
Qed.

Lemma trim_serialized (a : jsstring) : trim (123 :: a ++ [125]) = 123 :: a ++ [125].
Proof.
  unfold trim. cbn [trim_start]. change (is_space 123) with false. cbv iota.
  by rewrite app_comm_cons, trim_end_nonspace.
Qed.

(** ** The fenced branch *)

Lemma ws_then_fence_inside (a X : jsstring) :
  has_fence (a ++ [125]) = false → ws_then_fence (a ++ 125 :: X) = false.
Proof.
  induction a as [|c a IH]; intros Ha.
  - cbn [app ws_then_fence]. change (is_space 125) with false. cbv iota.
    by apply starts_with_fence_false.
  - cbn [app ws_then_fence].
    assert (starts_with fence (c :: a ++ 125 :: X) = false) as ->.
    { apply not_true_iff_false. rewrite starts_with_fence. intros [r Hr].
      apply has_fence_starts, not_true_iff_false in Ha. apply Ha.
      apply starts_with_fence.
      destruct a as [|y [|z a]]; cbn in Hr; simplify_eq; cbn; eauto. }
    rewrite IH by by eapply has_fence_cons. by destruct (is_space c).
Qed.

Lemma ws_then_fence_closing (ws X : jsstring) :
  Forall (fun c => is_space c = true) ws →
  ws_then_fence (ws ++ fence ++ X) = true.
Proof.
  induction 1 as [|c ws Hc Hws IH].
  - reflexivity.
  - cbn [app ws_then_fence]. by rewrite Hc, IH.
Qed.

Lemma lazy_group_unfold (s : jsstring) :
  lazy_group s
  = if ws_then_fence s then Some []
    else match s with
         | c :: r => cons c <$> lazy_group r
         | [] => None
         end.
Proof. by destruct s. Qed.

(** The lazy group stops at the first closing fence, which is the one
    after the serialization. *)
Lemma lazy_group_serialized (a ws X : jsstring) :
  has_fence (a ++ [125]) = false →
  Forall (fun c => is_space c = true) ws →
  lazy_group (a ++ 125 :: ws ++ fence ++ X) = Some (a ++ [125]).
Proof.
  intros Ha Hws. induction a as [|c a IH].
  - rewrite lazy_group_unfold, (ws_then_fence_inside []) by done.
    cbn [app]. rewrite lazy_group_unfold, ws_then_fence_closing by done.
    reflexivity.
  - rewrite lazy_group_unfold, (ws_then_fence_inside (c :: a)) by done.
    cbn [app]. rewrite IH by by eapply has_fence_cons. reflexivity.
Qed.

Lemma open_ws_skips (ws s : jsstring) (g : jsstring) :
  Forall (fun c => is_space c = true) ws →
  lazy_group s = Some g →
  (∀ c r, s = c :: r → is_space c = false) →
  open_ws (ws ++ s) = Some g.
Proof.
  intros Hws Hg Hs. induction Hws as [|c ws Hc Hws IH].
  - cbn [app]. destruct s as [|c r]; [done|].
    cbn [open_ws]. by rewrite (Hs c r).
  - cbn [app open_ws]. by rewrite Hc, IH.
Qed.

Lemma code_block_match_unfold (s : jsstring) :
  code_block_match s
  = match (match strip_prefix fence_json s with
           | Some r => open_ws r
           | None => None
           end) with
    | Some g => Some g
    | None =>
        match s with
        | _ :: r => code_block_match r
        | [] => None
        end
    end.
Proof. by destruct s. Qed.

Lemma strip_prefix_app (p s : jsstring) : strip_prefix p (p ++ s) = Some s.
Proof.
  unfold strip_prefix, starts_with.
  rewrite take_app_length, bool_decide_eq_true_2 by done.
  by rewrite drop_app_length.
Qed.

(** An occurrence of the opening fence cannot start in the prose and end
    in the fence that follows it. *)
Lemma starts_with_fence_json_prose (p r : jsstring) :
  p ≠ [] → starts_with fence_json (p ++ fence_json ++ r) = true →
  starts_with fence_json p = true.
Proof.
  intros Hp H. apply bool_decide_eq_true in H. apply bool_decide_eq_true.
  change (length fence_json) with 7%nat in *.
  destruct p as [|a1 [|a2 [|a3 [|a4 [|a5 [|a6 [|a7 p]]]]]]];
    [done|vm_compute in H; congruence..|exact H].
Qed.

(** Prose that does not contain the opening fence is skipped; the match
    starts at the opening fence. *)
Lemma code_block_match_after_prose (pre Y : jsstring) (g : jsstring) :
  includes fence_json pre = false → open_ws Y = Some g →
  code_block_match (pre ++ fence_json ++ Y) = Some g.
Proof.
  intros Hpre HY. induction pre as [|c pre IH].
  - cbn [app]. by rewrite code_block_match_unfold, strip_prefix_app, HY.
  - cbn [includes] in Hpre. apply orb_false_iff in Hpre as [Hhere Hpre].
    cbn [app code_block_match].
    assert (strip_prefix fence_json (c :: pre ++ fence_json ++ Y) = None)
      as ->.
    { unfold strip_prefix.
      destruct (starts_with fence_json (c :: pre ++ fence_json ++ Y))
        eqn:Hstart; [|done].
      apply (starts_with_fence_json_prose (c :: pre)) in Hstart; [|done].
      congruence. }
    by apply IH.
Qed.

(** ** The brace-matching branch *)

(** Nothing matches the fenced-block pattern before a character that is
    not a backtick, when the text before it has no fence. *)
Lemma code_block_match_sep (a b : jsstring) (c : N) :
  c ≠ 96 → has_fence a = false →
  code_block_match (a ++ c :: b) = code_block_match b.
Proof.
  intros Hc. induction a as [|x a IH]; intros Ha.
  - cbn [app code_block_match]. unfold strip_prefix.
    rewrite starts_with_fence_json; [done|].
    by apply starts_with_fence_false.
  - cbn [app code_block_match]. unfold strip_prefix.
    rewrite starts_with_fence_json.
    + by eapply IH, has_fence_cons.
    + by apply (starts_with_fence_sep (x :: a)).
Qed.

Lemma indexOf_app (pre s : jsstring) (c : N) :
  c ∉ pre → indexOf c (pre ++ c :: s) = Some (length pre).
Proof.
  induction pre as [|x pre IH]; intros Hpre.
  - cbn. by rewrite N.eqb_refl.
  - cbn [app indexOf length]. rewrite (proj2 (N.eqb_neq x c)).
    + rewrite IH; [done|]. intros Hin. apply Hpre. by right.
    + intros ->. apply Hpre. left.
Qed.

Lemma hex_digit_plain (n : N) : hex_digit n ≠ 92 ∧ hex_digit n ≠ 34.
Proof. unfold hex_digit. destruct (N.ltb_spec n 10); lia. Qed.

Lemma brace_scan_plain (c : N) (Y : jsstring) (i : nat) (n : Z) :
  c ≠ 92 → c ≠ 34 →
  brace_scan (c :: Y) i n true false = brace_scan Y (S i) n true false.
Proof.
  intros H1 H2. cbn [brace_scan negb].
  by rewrite (proj2 (N.eqb_neq c 92)), (proj2 (N.eqb_neq c 34)).
Qed.

Lemma brace_scan_escape (e : N) (Y : jsstring) (i : nat) (n : Z) :
  brace_scan (92 :: e :: Y) i n true false
  = brace_scan Y (S (S i)) n true false.
Proof. reflexivity. Qed.

(** Inside a string, the scan passes over what [quote_unit] writes and
    stays inside the string. *)
Lemma brace_scan_quote_unit (c : N) (Y : jsstring) (i : nat) (n : Z) :
  brace_scan (quote_unit c ++ Y) i n true false
  = brace_scan Y (length (quote_unit c) + i) n true false.
Proof.
  unfold quote_unit.
  repeat match goal with
  | |- context [if ?b =? ?k then _ else _] =>
      destruct (N.eqb_spec b k) as [->|?]; [reflexivity|]
  end.
  destruct ((c <? 32) || is_high_surrogate c || is_low_surrogate c).
  - unfold unicode_escape. cbn [app length Nat.add].
    rewrite brace_scan_escape.
    pose proof (hex_digit_plain (c / 4096 mod 16)) as [? ?].
    pose proof (hex_digit_plain (c / 256 mod 16)) as [? ?].
    pose proof (hex_digit_plain (c / 16 mod 16)) as [? ?].
    pose proof (hex_digit_plain (c mod 16)) as [? ?].
    by rewrite !brace_scan_plain.
  - cbn [app length Nat.add]. by apply brace_scan_plain.
Qed.

(** The scan leaves a quoted string at its closing quotation mark. *)
Lemma brace_scan_quote_body (s X : jsstring) :
  ∀ (i : nat) (n : Z),
    brace_scan (quote_body s ++ 34 :: X) i n true false
    = brace_scan X (S (length (quote_body s) + i)) n false false.
Proof.
  induction s as [|c d r Hp IH|c r Heq IH] using quote_body_induction;
    intros i n.
  - reflexivity.
  - rewrite quote_body_pair by done. apply andb_true_iff in Hp as [Hc Hd].
    destruct (surrogate_is_raw c) as (?%N.eqb_neq&?%N.eqb_neq&_);
      [by left|].
    destruct (surrogate_is_raw d) as (?%N.eqb_neq&?%N.eqb_neq&_);
      [by right|].
    cbn [app length Nat.add]. rewrite !brace_scan_plain by done.
    rewrite IH. do 2 f_equal. lia.
  - rewrite Heq, <- app_assoc, brace_scan_quote_unit, IH.
    rewrite length_app. do 2 f_equal. lia.
Qed.

Lemma brace_scan_quote (s Y : jsstring) (i : nat) (n : Z) :
  brace_scan (quote s ++ Y) i n false false
  = brace_scan Y (length (quote s) + i) n false false.
Proof.
  rewrite quote_app. cbn [brace_scan negb].
  change (34 =? 123) with false. change (34 =? 125) with false.
  change (34 =? 34) with true. cbv iota.
  rewrite brace_scan_quote_body. unfold quote. cbn [length].
  rewrite length_app. cbn [length]. f_equal. lia.
Qed.

Lemma brace_scan_member (k v Y : jsstring) (i : nat) (n : Z) :
  brace_scan (quote k ++ 58 :: quote v ++ Y) i n false false
  = brace_scan Y (length (quote k ++ 58 :: quote v) + i) n false false.
Proof.
  rewrite brace_scan_quote. cbn [brace_scan negb].
  change (58 =? 123) with false. change (58 =? 125) with false.
  change (58 =? 34) with false. cbv iota.
  rewrite brace_scan_quote. rewrite length_app. cbn [length].
  f_equal. lia.
Qed.

(** At depth one, the scan passes over the members and breaks at the
    closing brace. *)
Lemma brace_scan_members (o : object) (X : jsstring) :
  ∀ i, brace_scan (stringify_members o ++ 125 :: X) i 1 false false
       = Some (S (length (stringify_members o) + i)).
Proof.
  induction o as [|[k v] o IH]; intros i; [reflexivity|].
  destruct o as [|e o].
  - rewrite stringify_members_single, member_text, brace_scan_member.
    rewrite app_nil_r. reflexivity.
  - rewrite stringify_members_cons, member_text, brace_scan_member.
    cbn [app brace_scan negb].
    change (44 =? 123) with false. change (44 =? 125) with false.
    change (44 =? 34) with false. cbv iota. rewrite IH.
    rewrite !length_app. cbn [length]. rewrite !length_app. cbn [length].
    f_equal. lia.
Qed.

Lemma brace_scan_serialized (o : object) (X : jsstring) (i : nat) :
  brace_scan (JSON_stringify o ++ X) i 0 false false
  = Some (length (JSON_stringify o) + i)%nat.
Proof.
  unfold JSON_stringify. cbn [app brace_scan negb].
  change (123 =? 123) with true. cbv iota. change (0 + 1)%Z with 1%Z.
  rewrite <- app_assoc. cbn [app]. rewrite brace_scan_members.
  cbn [length]. rewrite length_app. cbn [length]. f_equal. lia.
Qed.

(** ** Extraction of a serialized FileState *)

Lemma has_fence_before_members (pre : jsstring) (o : object) :
  has_fence pre = false → fence_free o →
  has_fence (pre ++ 123 :: stringify_members o) = false.
Proof.
  intros Hpre Hff. apply (fence_free_has_fence _ 0).
  rewrite fence_free_from_sep by done.
  by rewrite has_fence_fence_free, fence_free_stringify_members.
Qed.

Lemma has_fence_serialized (o : object) :
  fence_free o → has_fence (JSON_stringify o) = false.
Proof.
  intros Hff. apply (fence_free_has_fence _ 0). unfold JSON_stringify.
  cbn [fence_free_from]. change (123 =? 96) with false. cbv iota.
  rewrite fence_free_from_sep by done.
  by rewrite fence_free_stringify_members.
Qed.

Lemma JSON_stringify_length (o : object) :
  (2 ≤ length (JSON_stringify o))%nat.
Proof.
  unfold JSON_stringify. cbn [length]. rewrite length_app. cbn [length]. lia.
Qed.

(** A sufficient condition for the fenced-block pattern to find nothing
    around a serialization. *)
Lemma code_block_match_plain_prose (F : object) (pre post : jsstring) :
  fence_free F → has_fence pre = false → code_block_match post = None →
  code_block_match (pre ++ JSON_stringify F ++ post) = None.
Proof.
  intros Hff Hpre Hpost.
  unfold JSON_stringify. cbn [app]. rewrite <- app_assoc. cbn [app].
  replace (pre ++ 123 :: stringify_members F ++ 125 :: post)
    with ((pre ++ 123 :: stringify_members F) ++ 125 :: post)
    by (by rewrite <- app_assoc).
  rewrite code_block_match_sep; [done..|].
  by apply (has_fence_before_members pre F).
Qed.

(** The candidate chosen for a bare serialization between prose. *)
Lemma candidate_bare (F : object) (pre post : jsstring) :
  123 ∉ pre →
  code_block_match (pre ++ JSON_stringify F ++ post) = None →
  candidate (pre ++ JSON_stringify F ++ post) = JSON_stringify F.
Proof.
  intros Hbrace Hnone. unfold candidate. rewrite Hnone.
  unfold JSON_stringify at 1. cbn [app]. rewrite indexOf_app by done.
  rewrite drop_app_length.
  change (123 :: (stringify_members F ++ [125]) ++ post)
    with (JSON_stringify F ++ post).
  rewrite brace_scan_serialized.
  pose proof (JSON_stringify_length F).
  rewrite (proj2 (Nat.ltb_lt _ _)) by lia.
  unfold substring. rewrite drop_app_length.
  replace (length (JSON_stringify F) + length pre - length pre)%nat
    with (length (JSON_stringify F)) by lia.
  by rewrite take_app_length.
Qed.

(** The candidate chosen for a fenced serialization. *)
Lemma candidate_fenced (F : object) (pre post ws1 ws2 : jsstring) :
  fence_free F → includes fence_json pre = false →
  all_space ws1 → all_space ws2 →
  candidate (pre ++ fence_json ++ ws1 ++ JSON_stringify F
             ++ ws2 ++ fence ++ post)
  = JSON_stringify F.
Proof.
  intros Hff Hpre Hws1 Hws2. unfold candidate.
  rewrite (code_block_match_after_prose pre _ (JSON_stringify F));
    [done..|].
  apply open_ws_skips; [done| |].
  - apply has_fence_serialized in Hff. unfold JSON_stringify in *.
    rewrite app_comm_cons in Hff.
    replace ((123 :: stringify_members F ++ [125]) ++ ws2 ++ fence ++ post)
      with ((123 :: stringify_members F) ++ 125 :: ws2 ++ fence ++ post)
      by (cbn [app]; by rewrite <- app_assoc).
    replace (123 :: stringify_members F ++ [125])
      with ((123 :: stringify_members F) ++ [125]) by done.
    by apply lazy_group_serialized.
  - by intros c r [= <- _].
Qed.

Section Extraction.
Variable Number_toString : jsstring → jsstring.

(** C1, amended.  For every non-empty FileState whose paths and contents
    contain no run of three backticks (and which has no [__proto__] path),
    the extractor applied to its JSON serialization returns that
    FileState: when the serialization stands bare, after a leading prose
    without an opening brace and before any trailing prose, in a text in
    which the fenced-block pattern finds no match; and when it stands in
    a fenced json block, with white space only between the fences and
    the serialization, after a leading prose that does not contain the
    opening fence and before any trailing text.  Either prose may be
    empty, and may hold backticks. *)
Theorem extractAndParseJSON_recovers_serialized
    (F : object) (pre post ws1 ws2 : jsstring) :
  F ≠ [] → NoDup (keys F) → js "__proto__" ∉ keys F → fence_free F →
  (123 ∉ pre →
   code_block_match (pre ++ JSON_stringify F ++ post) = None →
   extractAndParseJSON Number_toString (pre ++ JSON_stringify F ++ post)
   = inr F)
  ∧ (includes fence_json pre = false → all_space ws1 → all_space ws2 →
     extractAndParseJSON Number_toString
       (pre ++ fence_json ++ ws1 ++ JSON_stringify F ++ ws2 ++ fence ++ post)
     = inr F).
Proof.
  intros Hne Hnd Hproto Hff.
  assert (trim (remove_fences 0 (JSON_stringify F)) = JSON_stringify F)
    as Hclean.
  { rewrite remove_fences_id by by apply has_fence_serialized.
    apply trim_serialized. }
  split.
  - intros Hbrace Hnone. apply extract_of_candidate; [done..|].
    by rewrite candidate_bare.
  - intros Hpre Hws1 Hws2. apply extract_of_candidate; [done..|].
    by rewrite candidate_fenced.
Qed.

End Extraction.

Lemma extractAndParseJSON_recovers_serialized_witness :
  extractAndParseJSON lexeme_itself
    (js "Here is `App.js`, in ``` raw form: " ++ JSON_stringify counter_app
     ++ js " Enjoy {it}!")
  = inr counter_app
  ∧ extractAndParseJSON lexeme_itself
      (js "Sure, `App.js` and ``index.css``:" ++ fence_json ++ [10]
       ++ JSON_stringify counter_app
       ++ [10] ++ fence ++ js " Let me know {if} it works.")
    = inr counter_app.
Proof.
  destruct (extractAndParseJSON_recovers_serialized lexeme_itself
              counter_app (js "Here is `App.js`, in ``` raw form: ")
              (js " Enjoy {it}!") [] [])
    as [Hbare _]; [done|by_compute..|].
  destruct (extractAndParseJSON_recovers_serialized lexeme_itself
              counter_app (js "Sure, `App.js` and ``index.css``:")
              (js " Let me know {if} it works.") [10] [10])
    as [_ Hfenced]; [done|by_compute..|].
  split.
  - apply Hbare; [by_compute|vm_compute; reflexivity].
  - apply Hfenced; [vm_compute; reflexivity|by_compute..].
Defined.

(** C1, as the claim states it, fails on what the extractor does by
    design.  The empty FileState is refused by the guard on the number of
    files; a leading prose with an opening brace moves the start of the
    brace scan; a fenced json block anywhere in the text is taken before
    the bare serialization; and the leftmost opening fence, not the one
    around the serialization, starts the fenced block. *)
Lemma extractAndParseJSON_not_every_text :
  extractAndParseJSON lexeme_itself (JSON_stringify []) = inl NoFiles
  ∧ extractAndParseJSON lexeme_itself
      (js "Use {curly} braces: " ++ JSON_stringify counter_app)
    = inl SyntaxError
  ∧ extractAndParseJSON lexeme_itself
      (JSON_stringify counter_app ++ js " Example: " ++ fence_json
       ++ js " {} " ++ fence)
    = inl NoFiles
  ∧ extractAndParseJSON lexeme_itself
      (js "Reply in " ++ fence_json ++ js " please: " ++ fence_json ++ [10]
       ++ JSON_stringify counter_app ++ [10] ++ fence)
    = inl SyntaxError.
Proof. split_and!; vm_compute; reflexivity. Qed.

(** The global replace of the fence markers runs over the whole
    candidate, file contents included: a content of three backticks comes
    back empty, and a Markdown file loses the fences of its code block. *)
Lemma extractAndParseJSON_strips_backticks :
  extractAndParseJSON lexeme_itself
    (JSON_stringify [(js "/notes.md", fence)])
  = inr [(js "/notes.md", [])]
  ∧ extractAndParseJSON lexeme_itself
      (JSON_stringify
         [(js "/README.md",
           js "Run:" ++ [10] ++ fence ++ [10] ++ js "npm start" ++ [10]
           ++ fence ++ [10])])
    = inr [(js "/README.md",
            js "Run:" ++ [10; 10] ++ js "npm start" ++ [10; 10])].
Proof. split; vm_compute; reflexivity. Qed.

(** The copy loop writes [files[key] = value]; for the key [__proto__]
    this is the setter of [Object.prototype], which ignores a string, so
    a file of that name is dropped. *)
Lemma extractAndParseJSON_drops_proto_path :
  extractAndParseJSON lexeme_itself
    (JSON_stringify [(js "__proto__", js "x"); (js "/a.js", js "1")])
  = inr [(js "/a.js", js "1")].
Proof. vm_compute. reflexivity. Qed.

(** ** Conversation store *)

Lemma no_write_ret {A} (a : A) : no_write (mret a).
Proof. by intros st. Qed.

Lemma no_write_throw {A} (e : failure) : no_write (@throw A e).
Proof. by intros st. Qed.

Lemma no_write_sendData (e : event) : no_write (sendData e).
Proof. by intros st. Qed.

Lemma no_write_bind {A B} (m : task A) (k : A → task B) :
  no_write m → (∀ a, no_write (k a)) → no_write (m ≫= k).
Proof.
  intros Hm Hk st. unfold mbind, task_bind. specialize (Hm st).
  destruct (m st) as [[e|a] st']; [done|].
  rewrite Hk. exact Hm.
Qed.

Lemma no_write_one_write {A} (m : task A) : no_write m → one_write m.
Proof. intros Hm st. left. apply Hm. Qed.

Lemma one_write_bind_l {A B} (m : task A) (k : A → task B) :
  no_write m → (∀ a, one_write (k a)) → one_write (m ≫= k).
Proof.
  intros Hm Hk st. unfold mbind, task_bind. specialize (Hm st).
  destruct (m st) as [[e|a] st']; [by left|].
  cbn [snd] in Hm. rewrite <- Hm. apply Hk.
Qed.

Lemma one_write_bind_r {A B} (m : task A) (k : A → task B) :
  one_write m → (∀ a, no_write (k a)) → one_write (m ≫= k).
Proof.
  intros Hm Hk st. unfold mbind, task_bind. specialize (Hm st).
  destruct (m st) as [[e|a] st']; [done|]. cbn [snd] in Hm.
  destruct Hm as [Hm|(id & c & Hc & Hm)];
    [left|right; exists id, c; split; [done|]]; by rewrite Hk.
Qed.

Lemma one_write_try_catch {A} (body : task A) (handler : failure → task A) :
  one_write body → (∀ e, no_write (handler e)) →
  one_write (try_catch body handler).
Proof.
  intros Hb Hh st. unfold try_catch. specialize (Hb st).
  destruct (body st) as [[e|a] st']; [|done]. cbn [snd] in Hb.
  destruct Hb as [Hb|(id & c & Hc & Hb)];
    [left|right; exists id, c; split; [done|]]; by rewrite Hh.
Qed.

#[local] Hint Resolve no_write_ret no_write_throw no_write_sendData
  no_write_bind no_write_one_write : effects.

Lemma no_write_read_lines (lines : list jsstring) (acc : jsstring) :
  no_write (read_lines lines acc).
Proof.
  revert acc. induction lines as [|line lines IH]; intros acc;
    cbn [read_lines]; [auto with effects|].
  destruct (line_text line); auto with effects.
Qed.

Lemma no_write_read_chunks (chunks : list jsstring) (done : bool)
    (acc : jsstring) :
  no_write (read_chunks chunks done acc).
Proof.
  revert acc. induction chunks as [|chunk chunks IH]; intros acc;
    cbn [read_chunks].
  - destruct done; auto with effects.
  - apply no_write_bind; [apply no_write_read_lines|auto].
Qed.

Lemma no_write_send_files (files : object) (changes : list FileChange) :
  no_write (send_files files changes).
Proof.
  induction files as [|[fileName text] files IH]; cbn [send_files];
    auto with effects.
Qed.

Lemma no_write_fetch_upstream (p : Provider) : no_write (fetch_upstream p).
Proof.
  unfold fetch_upstream.
  destruct (fetchWithRetry _ _ _) as [[e|r] trace]; auto with effects.
Qed.

Lemma no_write_findById (env : Env) (id : jsstring) :
  no_write (findById env id).
Proof. intros st. unfold findById. by destruct (find_ok env id). Qed.

#[local] Hint Resolve no_write_read_chunks no_write_send_files
  no_write_fetch_upstream no_write_findById : effects.

(** The document built for saving mirrors the turn it ends with, and for
    an iterative request on a loaded conversation that turn is appended
    to the conversation's turns. *)
Lemma next_document_appends (env : Env) (body : Body)
    (conversation : option (jsstring * Conversation))
    (newFiles full : object) (changes : list FileChange) :
  ∃ turn,
    fullState turn = full
    ∧ currentFiles
        (next_document env body conversation newFiles full changes).2 = full
    ∧ conversationTurns
        (next_document env body conversation newFiles full changes).2
      = match default false (isIterativeUpdate body), conversation with
        | true, Some (_, old) => conversationTurns old
        | _, _ => []
        end ++ [turn].
Proof.
  unfold next_document.
  destruct (default false (isIterativeUpdate body)), conversation as [[id c]|];
    eexists (mkTurn _ _ _ full); split_and!; reflexivity.
Qed.

Lemma next_document_mirrors (env : Env) (body : Body)
    (conversation : option (jsstring * Conversation))
    (newFiles full : object) (changes : list FileChange) :
  mirrors (next_document env body conversation newFiles full changes).2.
Proof.
  destruct (next_document_appends env body conversation newFiles full changes)
    as (turn & Hfull & Hcur & Hturns).
  exists turn. rewrite Hturns, last_snoc, Hcur. done.
Qed.

Lemma one_write_persist (env : Env) (body : Body)
    (conversation : option (jsstring * Conversation))
    (newFiles full : object) (changes : list FileChange) :
  one_write (persist env body conversation newFiles full changes).
Proof.
  intros st. unfold persist.
  pose proof (next_document_mirrors env body conversation newFiles full
                changes) as Hm.
  destruct (next_document _ _ _ _ _ _) as [id c].
  unfold mbind, task_bind, save. destruct (save_ok env); [|by left].
  right. by exists id, c.
Qed.

Section HandlerFacts.
Variable Number_toString : jsstring → jsstring.

Lemma no_write_extract (text : jsstring) :
  no_write (extract Number_toString text).
Proof.
  unfold extract. destruct (extractAndParseJSON _ _); auto with effects.
Qed.

#[local] Hint Resolve no_write_extract : effects.

Lemma one_write_stream_task (env : Env) (body : Body)
    (conversation : option (jsstring * Conversation))
    (systemPrompt : system_prompt) :
  one_write (stream_task Number_toString env body conversation systemPrompt).
Proof.
  unfold stream_task. apply one_write_try_catch; [|auto with effects].
  apply one_write_bind_l; [auto with effects|]. intros _.
  apply one_write_bind_l; [auto with effects|]. intros _.
  destruct (stream_body _) as [[chunks done]|]; [|auto with effects].
  apply one_write_bind_l; [auto with effects|]. intros fullResponse.
  apply one_write_bind_l; [auto with effects|]. intros newFiles.
  apply one_write_bind_r; [apply one_write_persist|]. intros id.
  auto with effects.
Qed.

Lemma one_write_respond_json (env : Env) (body : Body)
    (conversation : option (jsstring * Conversation))
    (systemPrompt : system_prompt) :
  one_write (respond_json Number_toString env body conversation systemPrompt).
Proof.
  unfold respond_json.
  apply one_write_bind_l; [auto with effects|]. intros _.
  destruct (response_json _) as [data|]; [|auto with effects].
  case_decide; [auto with effects|].
  destruct (head (content data)) as [[|c text]|]; [auto with effects| |
                                                   auto with effects].
  apply one_write_bind_l; [auto with effects|]. intros newFiles.
  apply one_write_bind_r; [apply one_write_persist|]. intros id.
  auto with effects.
Qed.

Lemma one_write_generate (env : Env) (body : Body)
    (conversation : option (jsstring * Conversation))
    (systemPrompt : system_prompt) :
  one_write (generate Number_toString env body conversation systemPrompt).
Proof.
  unfold generate. destruct (default false (streaming body)).
  - apply one_write_bind_r; [apply one_write_stream_task|auto with effects].
  - apply one_write_respond_json.
Qed.

Lemma one_write_handle (env : Env) (request : option Body) :
  one_write (handle Number_toString env request).
Proof.
  unfold handle.
  apply one_write_bind_l; [destruct (connect_ok env); auto with effects|].
  intros _.
  apply one_write_bind_l; [destruct request; auto with effects|].
  intros body. destruct (missing_input body); [auto with effects|].
  destruct (api_key env) as [[|k key]|]; [auto with effects| |
                                          auto with effects].
  destruct (default false (isIterativeUpdate body));
    [|apply one_write_generate].
  destruct (conversationId body) as [[|c id]|]; try apply one_write_generate.
  apply one_write_bind_l; [auto with effects|]. intros [conversation|].
  - apply one_write_generate.
  - auto with effects.
Qed.

Lemma POST_one_write (env : Env) (request : option Body) (d : store) :
  db (POST Number_toString env request d).2 = d
  ∨ ∃ id c, mirrors c
            ∧ db (POST Number_toString env request d).2 = <[id := c]> d.
Proof.
  unfold POST. pose proof (one_write_handle env request (mkState [] d)) as H.
  destruct (handle _ _ _ _) as [[e|r] st]; exact H.
Qed.

Lemma store_invariant_POST (env : Env) (request : option Body) (d : store) :
  store_invariant d →
  store_invariant (db (POST Number_toString env request d).2).
Proof.
  intros Hd. destruct (POST_one_write env request d)
    as [->|(id & c & Hc & ->)]; [done|].
  intros id' c'. rewrite lookup_insert. case_decide.
  - by intros [= <-].
  - apply Hd.
Qed.

(** C7.  In both modes, the document saved for a turn has that turn last
    and its [currentFiles] equal to the turn's [fullState] (for an
    iterative request on a loaded conversation, the turn is appended to
    that conversation's turns); a request writes the collection at most
    once, and writes such a document, so the two fields change in one
    write; and after every sequence of requests every stored
    conversation's [currentFiles] equals the [fullState] of its last
    turn. *)
Theorem currentFiles_mirrors_appended_turn :
  (∀ env body conversation newFiles full changes,
     ∃ turn,
       fullState turn = full
       ∧ currentFiles
           (next_document env body conversation newFiles full changes).2
         = full
       ∧ conversationTurns
           (next_document env body conversation newFiles full changes).2
         = match default false (isIterativeUpdate body), conversation with
           | true, Some (_, old) => conversationTurns old
           | _, _ => []
           end ++ [turn])
  ∧ (∀ env request d,
       db (POST Number_toString env request d).2 = d
       ∨ ∃ id c turn,
           db (POST Number_toString env request d).2 = <[id := c]> d
           ∧ last (conversationTurns c) = Some turn
           ∧ currentFiles c = fullState turn)
  ∧ (∀ requests, store_invariant (serve Number_toString requests ∅)).
Proof.
  split_and!.
  - apply next_document_appends.
  - intros env request d.
    destruct (POST_one_write env request d)
      as [?|(id & c & (turn & ? & ?) & ?)]; [by left|].
    right. by exists id, c, turn.
  - intros requests. unfold serve.
    assert (store_invariant (∅ : store)) as H0.
    { intros id c H. by rewrite lookup_empty in H. }
    revert H0. generalize (∅ : store) as d.
    induction requests as [|[env request] requests IH]; intros d Hd; [done|].
    cbn [fold_left]. by apply IH, store_invariant_POST.
Qed.

End HandlerFacts.

(** ** Event stream of the generation task *)



Lemma read_lines_run (lines : list jsstring) (acc : jsstring) (st : state) :
  ∃ evs text,
    quiet evs
    ∧ read_lines lines acc st = (inr text, mkState (events st ++ evs) (db st)).
Proof.
  revert acc st. induction lines as [|line lines IH]; intros acc st.
  - exists [], acc. split; [constructor|]. destruct st.
    cbn. by rewrite app_nil_r.
  - cbn [read_lines]. destruct (line_text line) as [text|]; [|apply IH].
    unfold mbind, task_bind, sendData.
    destruct (IH (acc ++ text) (mkState (events st ++ [EProgress text])
                                        (db st)))
      as (evs & text' & Hq & ->).
    exists (EProgress text :: evs), text'. split; [by constructor|].
    cbn [events db]. by rewrite <- app_assoc.
Qed.

Lemma read_chunks_run (chunks : list jsstring) (done : bool) (acc : jsstring)
    (st : state) :
  ∃ evs r,
    quiet evs
    ∧ ((∃ text, r = inr text) ∨ r = inl ReadFailed)
    ∧ read_chunks chunks done acc st = (r, mkState (events st ++ evs) (db st)).
Proof.
  revert acc st. induction chunks as [|chunk chunks IH]; intros acc st.
  - exists [], (if done then inr acc else inl ReadFailed).
    split_and!; [constructor|destruct done; eauto|].
    destruct st, done; cbn; by rewrite app_nil_r.
  - cbn [read_chunks]. unfold mbind, task_bind.
    destruct (read_lines_run (split 10 chunk) acc st)
      as (evs1 & text & Hq1 & ->).
    destruct (IH text (mkState (events st ++ evs1) (db st)))
      as (evs2 & r & Hq2 & Hr & ->).
    exists (evs1 ++ evs2), r. split_and!; [by apply Forall_app|done|].
    cbn [events db]. by rewrite <- app_assoc.
Qed.

Lemma send_files_run (files : object) (changes : list FileChange)
    (st : state) :
  ∃ evs,
    quiet evs
    ∧ send_files files changes st
      = (inr tt, mkState (events st ++ evs) (db st)).
Proof.
  revert st. induction files as [|[fileName text] files IH]; intros st.
  - exists []. split; [constructor|]. destruct st. cbn.
    by rewrite app_nil_r.
  - cbn [send_files]. unfold mbind, task_bind, sendData.
    destruct (IH (mkState (events st ++
                           [EFile fileName text (change_type changes fileName)])
                          (db st))) as (evs & Hq & ->).
    exists (EFile fileName text (change_type changes fileName) :: evs).
    split; [by constructor|].
    cbn [events db]. by rewrite <- app_assoc.
Qed.

Lemma read_lines_exact (lines : list jsstring) (acc : jsstring) (st : state) :
  read_lines lines acc st
  = (inr (acc ++ concat (omap line_text lines)),
     mkState (events st ++ map EProgress (omap line_text lines)) (db st)).
Proof.
  revert acc st. induction lines as [|line lines IH]; intros acc st.
  - destruct st. cbn. by rewrite !app_nil_r.
  - cbn [read_lines omap list_omap].
    destruct (line_text line) as [text|]; [|apply IH].
    unfold mbind, task_bind, sendData. rewrite IH.
    cbn [events db concat map]. by rewrite <- !app_assoc.
Qed.

Lemma read_chunks_exact (chunks : list jsstring) (done : bool)
    (acc : jsstring) (st : state) :
  read_chunks chunks done acc st
  = (if done then inr (acc ++ concat (deltas chunks)) else inl ReadFailed,
     mkState (events st ++ map EProgress (deltas chunks)) (db st)).
Proof.
  revert acc st. induction chunks as [|chunk chunks IH]; intros acc st.
  - destruct st, done; cbn; by rewrite !app_nil_r.
  - cbn [read_chunks]. unfold mbind, task_bind.
    rewrite read_lines_exact, IH. cbn [events db]. unfold deltas.
    cbn [map concat]. rewrite omap_app, concat_app, map_app.
    rewrite <- !app_assoc. reflexivity.
Qed.

Lemma send_files_exact (files : object) (changes : list FileChange)
    (st : state) :
  send_files files changes st
  = (inr tt, mkState (events st ++ file_events files changes) (db st)).
Proof.
  revert st. induction files as [|[fileName text] files IH]; intros st.
  - destruct st. cbn. by rewrite app_nil_r.
  - cbn [send_files]. unfold mbind, task_bind, sendData. rewrite IH.
    cbn [events db file_events map]. by rewrite <- app_assoc.
Qed.

Section StreamFacts.
Variable Number_toString : jsstring → jsstring.

(** How a run of the generation task ends: with an [error] event and the
    collection untouched, or with a [complete] event after the document
    has been saved. *)
Lemma stream_task_run (env : Env) (body : Body)
    (conversation : option (jsstring * Conversation))
    (systemPrompt : system_prompt) (d : store) :
  let st := (stream_task Number_toString env body conversation systemPrompt
               (mkState [] d)).2 in
  ∃ evs,
    quiet evs
    ∧ ((∃ e, events st = evs ++ [EError e] ∧ db st = d ∧ e ≠ Truncated)
       ∨ (∃ newFiles full changes id c,
            save_ok env = true
            ∧ next_document env body conversation newFiles full changes
              = (id, c)
            ∧ db st = <[id := c]> d
            ∧ events st
              = evs ++ [EComplete id (default (js "anonymous") (userId body))
                          changes
                          (if default false (isIterativeUpdate body)
                           then full else newFiles)
                          (default false (isIterativeUpdate body))])).
Proof.
  cbv zeta.
  destruct (stream_task _ _ _ _ _ _) as [res st] eqn:Hrun. cbn [snd].
  revert Hrun. unfold stream_task, try_catch.
  unfold mbind at 1, task_bind at 1. unfold sendData at 1.
  cbn [events db app].
  match goal with |- context [EStatus ?m] => set (s0 := EStatus m) end.
  assert (is_terminal s0 = false) as Hs0 by done.
  unfold mbind at 1, task_bind at 1. unfold fetch_upstream.
  destruct (fetchWithRetry _ _ _) as [[e|r] trace].
  { intros [= <- <-]. exists [s0]. split; [by repeat constructor|].
    left. by eexists. }
  cbn -[read_chunks].
  destruct (stream_body _) as [[chunks done]|].
  2:{ intros [= <- <-]. exists [s0]. split; [by repeat constructor|].
      left. by eexists. }
  unfold mbind at 1, task_bind at 1.
  match goal with
  | |- context [read_chunks ?c ?b ?a ?s] =>
      destruct (read_chunks_run c b a s) as (evs1 & r1 & Hq1 & Hr1 & ->)
  end.
  cbn [events db].
  destruct r1 as [e|fullResponse].
  { intros [= <- <-]. exists (s0 :: evs1). split; [by constructor|].
    left. exists e. split_and!; [done..|].
    destruct Hr1 as [[text [=]]|[= ->]]. done. }
  unfold mbind at 1, task_bind at 1. unfold extract.
  destruct (extractAndParseJSON _ _) as [cause|newFiles].
  { intros [= <- <-]. exists (s0 :: evs1). split; [by constructor|].
    left. by eexists. }
  cbn -[send_files detectFileChanges spread persist].
  unfold mbind at 1, task_bind at 1. unfold persist.
  destruct (next_document _ _ _ _ _ _) as [id c] eqn:Hdoc.
  unfold mbind at 1, task_bind at 1. unfold save.
  destruct (save_ok env) eqn:Hsave.
  2:{ intros [= <- <-]. exists (s0 :: evs1). split; [by constructor|].
      left. by eexists. }
  cbn -[send_files detectFileChanges spread].
  unfold mbind at 1, task_bind at 1.
  match goal with
  | |- context [send_files ?f ?ch ?s] =>
      destruct (send_files_run f ch s) as (evs2 & Hq2 & ->)
  end.
  cbn [events db sendData snd]. intros [= <- <-].
  exists (s0 :: evs1 ++ evs2). split.
  { constructor; [done|]. by apply Forall_app. }
  right. eexists _, _, _, id, c. split_and!; [done|exact Hdoc|done|].
  cbn [app]. by rewrite <- app_assoc.
Qed.





End StreamFacts.

(** ** Truncated responses *)

Section TruncationFacts.
Variable Number_toString : jsstring → jsstring.

(** The non-streaming mode checks the stop reason before anything else is
    read from the reply. *)
Lemma respond_json_truncated (env : Env) (body : Body)
    (conversation : option (jsstring * Conversation))
    (systemPrompt : system_prompt) (data : ProviderData) (st : state)
    (status : Z) (trace : list action) :
  fetchWithRetry (fetch (provider env systemPrompt false))
                 default_retries default_backoff = (inr status, trace) →
  response_json (provider env systemPrompt false) = Some data →
  stop_reason data = Some (js "max_tokens") →
  respond_json Number_toString env body conversation systemPrompt st
  = (inl Truncated, st).
Proof.
  intros Hfetch Hjson Hstop. unfold respond_json, fetch_upstream.
  rewrite Hfetch, Hjson. unfold mbind, task_bind. cbn [mret task_ret].
  by rewrite decide_True.
Qed.

(** C6, streaming mode, as the code behaves.  No run of the streaming
    task reports the truncation error; the frame that carries the stop
    reason is not a text delta and is skipped.  On a stream cut by the
    token limit the accumulated text goes to the extractor, whose parse
    error is what the client receives; when the text received happens to
    parse, the run ends with [complete]. *)
Theorem stream_task_never_reports_truncation :
  (∀ env body conversation systemPrompt d,
     EError Truncated
     ∉ events (stream_task Number_toString env body conversation
                 systemPrompt (mkState [] d)).2)
  ∧ events (POST Number_toString (env_with truncated_stream)
              (Some streaming_request) ∅).2
    = [ EStatus (js "Starting generation...");
        EProgress (jq "{'/src/App.js':'import Re");
        EError (ExtractionFailed SyntaxError) ]
  ∧ events (POST Number_toString (env_with capped_stream)
              (Some streaming_request) ∅).2
    = [ EStatus (js "Starting generation...");
        EProgress (jq "{'/a.js':'1'}");
        EFile (js "/a.js") (js "1") New;
        EComplete (js "65f0c0ffee") (js "anonymous")
          [mkChange (js "/a.js") New None] [(js "/a.js", js "1")] false ].
Proof.
  split_and!.
  - intros env body conversation systemPrompt d.
    destruct (stream_task_run Number_toString env body conversation
                systemPrompt d)
      as (evs & Hq & [(e & -> & _ & He)|(? & ? & ? & ? & ? & _ & _ & _ & ->)]).
    + rewrite elem_of_app, list_elem_of_singleton.
      intros [Hin|[= <-]]; [|done].
      eapply Forall_forall in Hq; [|exact Hin]. done.
    + rewrite elem_of_app, list_elem_of_singleton.
      intros [Hin|[=]]. eapply Forall_forall in Hq; [|exact Hin]. done.
  - vm_compute. reflexivity.
  - vm_compute. reflexivity.
Qed.

End TruncationFacts.

(** ** Request validation *)

(** C8, as the claim states it, fails: an iterative request whose
    conversation id resolves to nothing, and which has no prompt, is
    answered 400, not 404. *)
Lemma POST_checks_input_before_lookup :
  isIterativeUpdate iterative_without_prompt = Some true
  ∧ (∅ : store) !! js "65f0missing" = None
  ∧ (POST lexeme_itself (env_with unreachable_provider)
          (Some iterative_without_prompt) ∅).1
    = Json 400 (ErrorReply (js "Prompt or uploaded files required")).
Proof. split_and!; vm_compute; reflexivity. Qed.

Section ValidationFacts.
Variable Number_toString : jsstring → jsstring.

(** C8, amended.  Once the database connection is up and the body has
    been read: a request with neither a non-empty prompt nor a non-empty
    uploadedFiles list is answered 400; otherwise, when the API key is
    absent, 500; otherwise, when isIterativeUpdate is set with a non-empty
    conversationId whose lookup completes and finds no conversation,
    404. *)
Theorem POST_validation (env : Env) (body : Body) (d : store) :
  connect_ok env = true →
  (missing_input body = true →
   POST Number_toString env (Some body) d
   = (Json 400 (ErrorReply (js "Prompt or uploaded files required")),
      mkState [] d))
  ∧ (missing_input body = false → no_key env →
     POST Number_toString env (Some body) d
     = (Json 500 (ErrorReply (js "Missing API key")), mkState [] d))
  ∧ (missing_input body = false → ¬ no_key env →
     isIterativeUpdate body = Some true →
     ∀ id, conversationId body = Some id → id ≠ [] →
           find_ok env id = true → d !! id = None →
           POST Number_toString env (Some body) d
           = (Json 404 (ErrorReply (js "Conversation not found")),
              mkState [] d)).
Proof.
  intros Hconnect. unfold POST, handle. rewrite Hconnect.
  unfold mbind, task_bind. cbn [mret task_ret].
  split_and!.
  - by intros ->.
  - intros -> [->| ->]; done.
  - intros -> Hkey Hiter id Hid Hne Hfind Hnone.
    destruct (api_key env) as [[|k key]|] eqn:Hk;
      [exfalso; apply Hkey; by right| |exfalso; apply Hkey; by left].
    rewrite Hiter, Hid. destruct id as [|c id']; [done|].
    cbn -[generate]. unfold findById. cbn [db]. by rewrite Hfind, Hnone.
Qed.

End ValidationFacts.

Lemma POST_validation_witness :
  (POST lexeme_itself (env_with unreachable_provider)
        (Some iterative_without_prompt) ∅).1
  = Json 400 (ErrorReply (js "Prompt or uploaded files required"))
  ∧ (POST lexeme_itself env_without_key (Some iterative_request) ∅).1
    = Json 500 (ErrorReply (js "Missing API key"))
  ∧ (POST lexeme_itself (env_with unreachable_provider)
          (Some iterative_request) ∅).1
    = Json 404 (ErrorReply (js "Conversation not found")).
Proof.
  split_and!.
  - destruct (POST_validation lexeme_itself (env_with unreachable_provider)
                iterative_without_prompt ∅ eq_refl) as (H & _ & _).
    by rewrite H.
  - destruct (POST_validation lexeme_itself env_without_key
                iterative_request ∅ eq_refl) as (_ & H & _).
    rewrite H; [done..|]. by left.
  - destruct (POST_validation lexeme_itself (env_with unreachable_provider)
                iterative_request ∅ eq_refl) as (_ & _ & H).
    rewrite (H eq_refl) with (id := js "65f0missing"); try done.
    intros [[=]|[=]].
Defined.

(** ** Client consumers and empty contents *)

Lemma assoc_define_ne {V} (o : list (jsstring * V)) (k k' : jsstring) (v : V) :
  k ≠ k' → assoc (define o k v) k' = assoc o k'.
Proof.
  intros Hne. unfold define. destruct (assoc o k) as [w|] eqn:Hk.
  - clear Hk. induction o as [|[k0 v0] o IH]; [done|].
    cbn [assoc_replace assoc].
    destruct (decide (k0 = k)) as [->|?]; cbn [assoc].
    + by rewrite !decide_False.
    + destruct (decide (k0 = k')); [done|apply IH].
  - clear Hk. induction o as [|[k0 v0] o IH].
    + cbn. by rewrite decide_False.
    + cbn [app assoc]. destruct (decide (k0 = k')); [done|apply IH].
Qed.

Lemma assoc_define_eq {V} (o : list (jsstring * V)) (k : jsstring) (v : V) :
  assoc (define o k v) k = Some v.
Proof.
  unfold define. destruct (assoc o k) as [w|] eqn:Hk.
  - induction o as [|[k0 v0] o IH]; [done|].
    cbn [assoc_replace assoc] in *.
    destruct (decide (k0 = k)) as [->|?]; cbn [assoc].
    + by rewrite decide_True.
    + rewrite decide_False by done. by apply IH.
  - induction o as [|[k0 v0] o IH].
    + cbn. by rewrite decide_True.
    + cbn [app assoc] in *. destruct (decide (k0 = k)); [done|by apply IH].
Qed.







(** ** Character-reveal scheduler *)

Lemma total_length_app (a b : object) :
  total_length (a ++ b) = (total_length a + total_length b)%nat.
Proof.
  unfold total_length. induction a as [|e a IH]; [done|].
  cbn [app map sum_list sum_list_with] in *. lia.
Qed.

Lemma total_length_take_S (files : object) (i : nat) (k v : jsstring) :
  files !! i = Some (k, v) →
  total_length (take (S i) files)
  = (total_length (take i files) + length v)%nat.
Proof.
  intros Hi. rewrite (take_S_r _ _ _ Hi), total_length_app.
  unfold total_length at 2. cbn. lia.
Qed.

Lemma total_length_take_le (files : object) (i : nat) :
  (total_length (take i files) ≤ total_length files)%nat.
Proof.
  rewrite <- (take_drop i files) at 2. rewrite total_length_app. lia.
Qed.

Lemma assoc_lookup {V} (o : list (jsstring * V)) (i : nat) (k : jsstring)
    (v : V) :
  NoDup (map fst o) → o !! i = Some (k, v) → assoc o k = Some v.
Proof.
  revert i. induction o as [|[k0 v0] o IH]; intros i Hnd Hi; [done|].
  cbn [map fst] in Hnd. apply NoDup_cons in Hnd as [Hk0 Hnd].
  destruct i as [|i]; cbn in Hi.
  - injection Hi as -> ->. cbn. by rewrite decide_True.
  - cbn [assoc]. rewrite decide_False; [by eapply IH|].
    intros ->. apply Hk0. apply list_elem_of_fmap.
    exists (k, v). split; [done|]. by eapply list_elem_of_lookup_2.
Qed.

Lemma lookup_NoDup_keys (files : object) (i j : nat) (k v v' : jsstring) :
  NoDup (keys files) →
  files !! i = Some (k, v) → files !! j = Some (k, v') → i = j.
Proof.
  intros Hnd Hi Hj. eapply NoDup_lookup; [exact Hnd| |].
  - unfold keys. change (map fst files) with (fst <$> files).
    by rewrite list_lookup_fmap, Hi.
  - unfold keys. change (map fst files) with (fst <$> files).
    by rewrite list_lookup_fmap, Hj.
Qed.

Section Scheduler.
Variable files : object.
Hypothesis files_nonempty : files ≠ [].
Hypothesis names_distinct : NoDup (keys files).

Lemma current_file_lookup (s : Reveal) (k v : jsstring) :
  files !! currentFileIndex s = Some (k, v) → current_file files s = (k, v).
Proof.
  intros Hi. unfold current_file, keys.
  change (map fst files) with (fst <$> files).
  rewrite list_lookup_fmap, Hi. cbn.
  by rewrite (assoc_lookup files _ k v names_distinct Hi).
Qed.

(** The effect, by cases on the current file. *)
Lemma effect_cases (s : Reveal) (k v : jsstring) :
  files !! currentFileIndex s = Some (k, v) →
  effect files s
  = if (currentCharIndex s <? length v)%nat then TimerSet
    else if (currentFileIndex s <? length files - 1)%nat
         then Rerender (advanced s)
         else if negb (isComplete s) && negb (hasNavigated s)
              then Rerender (completed s)
              else Nothing.
Proof.
  intros Hi. unfold effect. rewrite (current_file_lookup s k v Hi).
  unfold keys. rewrite length_map.
  destruct files as [|e o] eqn:Hf; [done|]. reflexivity.
Qed.

Lemma reveal_inv_current (s : Reveal) :
  reveal_inv files s →
  ∃ k v, files !! currentFileIndex s = Some (k, v)
         ∧ current_file files s = (k, v)
         ∧ (currentCharIndex s ≤ length v)%nat.
Proof.
  intros (Hidx & Hchar & _).
  destruct (lookup_lt_is_Some_2 files _ Hidx) as [[k v] Hi].
  exists k, v. rewrite (current_file_lookup s k v Hi) in *. done.
Qed.

Lemma reveal_inv_start : reveal_inv files reveal_start.
Proof.
  unfold reveal_inv, reveal_start, shown. cbn.
  split_and!; try done.
  - destruct files; [done|cbn; lia].
  - lia.
  - intros j name text _. destruct j; by rewrite ?take_0.
Qed.

Lemma reveal_inv_running (s : Reveal) (outcome : effect_outcome) :
  reveal_inv files s → effect files s = outcome → outcome ≠ Nothing →
  isComplete s = false.
Proof.
  intros (_ & _ & _ & _ & Hdone & _) He Hne.
  destruct (isComplete s); [|done]. rewrite Hdone in He; congruence.
Qed.

Lemma reveal_inv_advanced (s : Reveal) (k v : jsstring) :
  reveal_inv files s → files !! currentFileIndex s = Some (k, v) →
  (length v ≤ currentCharIndex s)%nat →
  (currentFileIndex s < length files - 1)%nat →
  reveal_inv files (advanced s) ∧ revealed files (advanced s) = revealed files s.
Proof.
  intros Hinv Hi Hlen Hidx.
  assert (isComplete s = false) as Hrun.
  { eapply reveal_inv_running; [done|by apply (effect_cases s k v)|].
    rewrite (proj2 (Nat.ltb_ge _ _)) by done.
    by rewrite (proj2 (Nat.ltb_lt _ _)). }
  destruct Hinv as (_ & Hchar & Hnav & Hcount & _ & Hshown).
  rewrite (current_file_lookup s k v Hi) in Hchar. cbn [snd] in Hchar.
  split.
  - unfold reveal_inv. cbn [advanced currentFileIndex currentCharIndex
      isComplete hasNavigated completions].
    split_and!; [lia|lia|done|done|by rewrite Hrun|].
    intros j name text Hj. change (shown (advanced s) name) with (shown s name).
    rewrite (Hshown j name text Hj).
    destruct (Nat.ltb_spec j (currentFileIndex s)),
             (Nat.ltb_spec j (S (currentFileIndex s))),
             (Nat.eqb_spec j (currentFileIndex s)),
             (Nat.eqb_spec j (S (currentFileIndex s))); try lia; try done.
    subst j. rewrite Hi in Hj. injection Hj as <- <-.
    by rewrite take_ge.
  - unfold revealed. cbn [advanced currentFileIndex currentCharIndex].
    rewrite (total_length_take_S files _ k v Hi). lia.
Qed.

Lemma reveal_inv_completed (s : Reveal) (k v : jsstring) :
  reveal_inv files s → files !! currentFileIndex s = Some (k, v) →
  (length v ≤ currentCharIndex s)%nat →
  ¬ (currentFileIndex s < length files - 1)%nat →
  isComplete s = false →
  reveal_inv files (completed s) ∧ revealed files (completed s) = revealed files s.
Proof.
  intros (Hidx & Hchar & Hnav & Hcount & _ & Hshown) Hi Hlen Hlast Hrun.
  split; [|done]. unfold reveal_inv.
  cbn [completed currentFileIndex currentCharIndex isComplete hasNavigated
       completions].
  split_and!; [done| |done|by rewrite Hcount, Hrun| |done].
  - by rewrite (current_file_lookup (completed s) k v Hi),
               (current_file_lookup s k v Hi) in *.
  - intros _. rewrite (effect_cases (completed s) k v Hi).
    cbn [completed currentFileIndex currentCharIndex isComplete hasNavigated].
    rewrite (proj2 (Nat.ltb_ge _ _)) by done.
    by rewrite (proj2 (Nat.ltb_ge _ _)) by lia.
Qed.

Lemma reveal_inv_timer (s : Reveal) (k v : jsstring) :
  reveal_inv files s → files !! currentFileIndex s = Some (k, v) →
  (currentCharIndex s < length v)%nat →
  reveal_inv files (timer_fires files s)
  ∧ revealed files (timer_fires files s) = S (revealed files s).
Proof.
  intros Hinv Hi Hlen.
  assert (isComplete s = false) as Hrun.
  { eapply reveal_inv_running; [done|by apply (effect_cases s k v)|].
    by rewrite (proj2 (Nat.ltb_lt _ _)). }
  destruct Hinv as (Hidx & Hchar & Hnav & Hcount & _ & Hshown).
  unfold timer_fires. rewrite (current_file_lookup s k v Hi).
  split; [|unfold revealed; cbn [currentFileIndex currentCharIndex]; lia].
  unfold reveal_inv.
  cbn [currentFileIndex currentCharIndex isComplete hasNavigated completions].
  split_and!; [done| |done|done|by rewrite Hrun|].
  - match goal with
    | |- context [current_file files ?s'] =>
        rewrite (current_file_lookup s' k v Hi)
    end. cbn [snd]. lia.
  - intros j name text Hj. unfold shown. cbn [displayedFiles].
    destruct (decide (k = name)) as [<-|Hne].
    + rewrite assoc_define_eq. cbn [default].
      assert (j = currentFileIndex s) as ->
        by by eapply lookup_NoDup_keys.
      rewrite Hi in Hj. injection Hj as <-.
      rewrite Nat.ltb_irrefl, Nat.eqb_refl. done.
    + rewrite assoc_define_ne by done.
      fold (shown s name). rewrite (Hshown j name text Hj).
      destruct (Nat.ltb_spec j (currentFileIndex s)); [done|].
      destruct (Nat.eqb_spec j (currentFileIndex s)) as [->|]; [|done].
      rewrite Hi in Hj. by injection Hj as -> _.
Qed.

(** The renders that follow one another stop with a pending timer or with
    nothing left to do, and reveal nothing. *)
Lemma settle_stops (fuel : nat) :
  ∀ s, reveal_inv files s →
       (length files - currentFileIndex s ≤ fuel)%nat →
       reveal_inv files (settle fuel files s)
       ∧ revealed files (settle fuel files s) = revealed files s
       ∧ (effect files (settle fuel files s) = TimerSet
          ∨ effect files (settle fuel files s) = Nothing).
Proof.
  induction fuel as [|fuel IH]; intros s Hinv Hfuel.
  { destruct Hinv as (Hidx & _). lia. }
  destruct (reveal_inv_current s Hinv) as (k & v & Hi & _ & Hchar).
  cbn [settle]. pose proof (effect_cases s k v Hi) as He.
  destruct (Nat.ltb_spec (currentCharIndex s) (length v)) as [Hlt|Hge].
  { rewrite He. split_and!; [done..|]. by left. }
  destruct (Nat.ltb_spec (currentFileIndex s) (length files - 1))
    as [Hmore|Hlast].
  { rewrite He.
    destruct (reveal_inv_advanced s k v Hinv Hi Hge Hmore) as [Hinv' Hrev].
    destruct (IH (advanced s) Hinv') as (? & Hrev' & ?).
    - cbn [advanced currentFileIndex]. lia.
    - split_and!; [done| |done]. by rewrite Hrev'. }
  destruct (isComplete s) eqn:Hdone.
  { destruct Hinv as (? & ? & Hnav & ? & Hnothing & ?).
    rewrite (Hnothing Hdone). split_and!; [done..|]. right. by apply Hnothing. }
  assert (hasNavigated s = false) as Hnav.
  { destruct Hinv as (_ & _ & -> & _). done. }
  rewrite Hnav in He. cbn [negb andb] in He. rewrite He.
  destruct (reveal_inv_completed s k v Hinv Hi Hge ltac:(lia) Hdone)
    as [Hinv' Hrev].
  assert (effect files (completed s) = Nothing) as Hnothing.
  { destruct Hinv' as (_ & _ & _ & _ & H & _). by apply H. }
  assert (settle fuel files (completed s) = completed s) as ->.
  { destruct fuel; [done|]. cbn [settle]. by rewrite Hnothing. }
  split_and!; [done..|]. by right.
Qed.

Lemma reveal_pending (s : Reveal) :
  reveal_inv files s → effect files s = TimerSet →
  (revealed files s < total_length files)%nat
  ∧ completions s = 0%nat
  ∧ ∃ name text,
      files !! currentFileIndex s = Some (name, text)
      ∧ (currentCharIndex s < length text)%nat.
Proof.
  intros Hinv He.
  destruct (reveal_inv_current s Hinv) as (k & v & Hi & _ & Hchar).
  pose proof (reveal_inv_running s _ Hinv He ltac:(done)) as Hrun.
  rewrite (effect_cases s k v Hi) in He.
  destruct (Nat.ltb_spec (currentCharIndex s) (length v)) as [Hlt|Hge].
  2:{ repeat case_match; done. }
  destruct Hinv as (_ & _ & _ & Hcount & _).
  split_and!; [|by rewrite Hcount, Hrun|by exists k, v].
  unfold revealed.
  pose proof (total_length_take_S files _ k v Hi).
  pose proof (total_length_take_le files (S (currentFileIndex s))). lia.
Qed.

Lemma reveal_idle (s : Reveal) :
  reveal_inv files s → effect files s = Nothing →
  isComplete s = true ∧ completions s = 1%nat
  ∧ revealed files s = total_length files
  ∧ ∀ j name text, files !! j = Some (name, text) → shown s name = text.
Proof.
  intros Hinv He.
  destruct (reveal_inv_current s Hinv) as (k & v & Hi & _ & Hchar).
  rewrite (effect_cases s k v Hi) in He.
  destruct (Nat.ltb_spec (currentCharIndex s) (length v)) as [Hlt|Hge];
    [done|].
  destruct (Nat.ltb_spec (currentFileIndex s) (length files - 1))
    as [Hmore|Hlast]; [done|].
  destruct Hinv as (Hidx & _ & Hnav & Hcount & _ & Hshown).
  rewrite Hnav in He.
  destruct (isComplete s); [|done].
  split_and!; [done|done| |].
  - unfold revealed.
    rewrite <- (take_ge files (S (currentFileIndex s))) at 2 by lia.
    rewrite (total_length_take_S files _ k v Hi). lia.
  - intros j name text Hj. rewrite (Hshown j name text Hj).
    pose proof (lookup_lt_Some _ _ _ Hj).
    destruct (Nat.ltb_spec j (currentFileIndex s)); [done|].
    assert (j = currentFileIndex s) as -> by lia.
    rewrite Nat.eqb_refl. rewrite Hi in Hj. injection Hj as _ <-.
    by rewrite take_ge.
Qed.

Lemma after_ticks_S (n : nat) :
  after_ticks files (S n) = tick files (after_ticks files n).
Proof. reflexivity. Qed.

(** After [n] ticks, [n] characters are revealed, as long as there are
    that many. *)
Lemma after_ticks_revealed (n : nat) :
  (n ≤ total_length files)%nat →
  reveal_inv files (after_ticks files n)
  ∧ revealed files (after_ticks files n) = n
  ∧ (effect files (after_ticks files n) = TimerSet
     ∨ effect files (after_ticks files n) = Nothing).
Proof.
  induction n as [|n IH]; intros Hn.
  - change (after_ticks files 0) with (mount files). unfold mount.
    destruct (settle_stops (S (length files)) reveal_start reveal_inv_start)
      as (? & Hrev & ?); [cbn; lia|].
    split_and!; [done| |done]. by rewrite Hrev.
  - destruct IH as (Hinv & Hrev & Hstable); [lia|].
    destruct Hstable as [Htimer|Hidle].
    2:{ destruct (reveal_idle _ Hinv Hidle) as (_ & _ & ? & _). lia. }
    rewrite after_ticks_S. unfold tick. rewrite Htimer.
    destruct (reveal_pending _ Hinv Htimer)
      as (_ & _ & k & v & Hi & Hlt).
    destruct (reveal_inv_timer _ k v Hinv Hi Hlt) as [Hinv' Hrev'].
    destruct (settle_stops (S (length files)) _ Hinv') as (? & Hrev'' & ?).
    { unfold timer_fires. destruct (current_file files _).
      cbn [currentFileIndex]. lia. }
    split_and!; [done| |done]. rewrite Hrev'', Hrev'. by rewrite Hrev.
Qed.

(** C9.  For a non-empty list of files with distinct names and [L]
    characters in total: after [n < L] ticks the callback has not fired,
    a timer is pending, [n] characters are revealed (the earlier files in
    full, in list order), and the tick that follows reveals exactly one
    more character of the current file and leaves the other files as
    shown; after exactly [L] ticks the callback has fired once, every file
    is shown in full and no timer is pending; further ticks change
    nothing, so the callback never fires again. *)
Theorem reveal_completes_once :
  (∀ n, (n < total_length files)%nat →
     let s := after_ticks files n in
     completions s = 0%nat
     ∧ effect files s = TimerSet
     ∧ revealed files s = n
     ∧ ∃ name text,
         current_file files s = (name, text)
         ∧ (currentCharIndex s < length text)%nat
         ∧ shown s name = take (currentCharIndex s) text
         ∧ shown (timer_fires files s) name
           = take (S (currentCharIndex s)) text
         ∧ ∀ other, other ≠ name →
                    shown (timer_fires files s) other = shown s other)
  ∧ (let s := after_ticks files (total_length files) in
     completions s = 1%nat
     ∧ isComplete s = true
     ∧ effect files s = Nothing
     ∧ ∀ j name text, files !! j = Some (name, text) → shown s name = text)
  ∧ (∀ n, (total_length files ≤ n)%nat →
          after_ticks files n = after_ticks files (total_length files)).
Proof.
  assert (effect files (after_ticks files (total_length files)) = Nothing
          ∧ reveal_inv files (after_ticks files (total_length files))) as [Hend Hinv].
  { destruct (after_ticks_revealed (total_length files)) as (Hinv & Hrev & He);
      [done|].
    destruct He as [Htimer|?]; [|done].
    destruct (reveal_pending _ Hinv Htimer) as (? & _). lia. }
  split_and!.
  - intros n Hn s. subst s.
    destruct (after_ticks_revealed n) as (Hinv' & Hrev & He); [lia|].
    destruct He as [Htimer|Hidle].
    2:{ destruct (reveal_idle _ Hinv' Hidle) as (_ & _ & ? & _). lia. }
    destruct (reveal_pending _ Hinv' Htimer) as (_ & Hcount & k & v & Hi & Hlt).
    split_and!; [done..|]. exists k, v.
    pose proof (current_file_lookup _ k v Hi) as Hcur.
    split_and!; [done|done| | |].
    + destruct Hinv' as (_ & _ & _ & _ & _ & Hshown).
      rewrite (Hshown _ k v Hi). by rewrite Nat.ltb_irrefl, Nat.eqb_refl.
    + unfold timer_fires. rewrite Hcur. unfold shown. cbn [displayedFiles].
      by rewrite assoc_define_eq.
    + intros other Hother. unfold timer_fires. rewrite Hcur. unfold shown.
      cbn [displayedFiles]. by rewrite assoc_define_ne.
  - destruct (reveal_idle _ Hinv Hend) as (? & ? & _ & ?). done.
  - intros n Hn. induction Hn as [|n Hn IH]; [done|].
    rewrite after_ticks_S, IH. unfold tick. by rewrite Hend.
Qed.

End Scheduler.

Lemma reveal_completes_once_witness :
  completions (after_ticks three_files 2) = 0%nat
  ∧ completions (after_ticks three_files 3) = 1%nat
  ∧ after_ticks three_files 7 = after_ticks three_files 3.
Proof.
  destruct (reveal_completes_once three_files) as (Hbefore & Hat & Hafter).
  - done.
  - by_compute.
  - split_and!.
    + apply (Hbefore 2%nat). vm_compute. lia.
    + apply Hat.
    + apply (Hafter 7%nat). vm_compute. lia.
Defined.

(** ** Further properties of the upstream client *)

Lemma ok_not_overloaded (st : Z) : ok st = true → (st =? 529)%Z = false.
Proof. unfold ok. lia. Qed.

Lemma attempts_cons (wait : Q) (waits : list Q) :
  attempts (wait :: waits) = Fetch :: Sleep wait :: attempts waits.
Proof. reflexivity. Qed.

Lemma retry_loop_failed (fetch : nat → fetch_outcome) (retries left attempt : nat)
    (backoff : Q) (calls : nat) (trace : list action) :
  succeeds (fetch calls) = false → (attempt < retries)%nat →
  retry_loop fetch retries (S left) attempt backoff calls trace
  = retry_loop fetch retries left (S attempt)
      (Qred (backoff * growth_factor (fetch calls))) (S calls)
      ((trace ++ [Fetch]) ++ [Sleep backoff]).
Proof.
  intros Hfail Hlt. cbn [retry_loop].
  assert ((attempt <? retries)%nat = true) as -> by (apply Nat.ltb_lt; lia).
  assert ((attempt =? retries)%nat = false) as -> by (apply Nat.eqb_neq; lia).
  destruct (fetch calls) as [st|]; cbn in *; [|done].
  rewrite Hfail. destruct (st =? 529)%Z; reflexivity.
Qed.

Lemma retry_loop_success (fetch : nat → fetch_outcome) (retries : nat) :
  ∀ n left attempt backoff calls trace st,
    (attempt + left = S retries)%nat → (n < left)%nat →
    (∀ i, (i < n)%nat → succeeds (fetch (calls + i)%nat) = false) →
    fetch (calls + n)%nat = Responds st → ok st = true →
    retry_loop fetch retries left attempt backoff calls trace
    = (inr st, trace ++ attempts (delays fetch backoff calls n)).
Proof.
  induction n as [|n IH]; intros left attempt backoff calls trace st
    Hinv Hlt Hfail Hn Hok.
  - destruct left as [|left]; [lia|]. cbn [retry_loop].
    rewrite Nat.add_0_r in Hn. rewrite Hn, Hok.
    rewrite (ok_not_overloaded _ Hok). reflexivity.
  - destruct left as [|left]; [lia|].
    rewrite retry_loop_failed; [| |lia].
    2:{ rewrite <- (Nat.add_0_r calls). apply Hfail. lia. }
    rewrite (IH left (S attempt) _ (S calls) _ st); try lia; try done.
    + cbn [delays]. rewrite attempts_cons, <- !app_assoc. reflexivity.
    + intros i Hi. replace (S calls + i)%nat with (calls + S i)%nat by lia.
      apply Hfail. lia.
    + replace (S calls + n)%nat with (calls + S n)%nat by lia. done.
Qed.

Lemma retry_loop_exhausted (fetch : nat → fetch_outcome) (retries : nat) :
  ∀ left attempt backoff calls trace,
    (attempt + S left = S retries)%nat →
    (∀ i, (i ≤ left)%nat → succeeds (fetch (calls + i)%nat) = false) →
    retry_loop fetch retries (S left) attempt backoff calls trace
    = (inl (last_error (fetch (calls + left)%nat)),
       trace ++ attempts (delays fetch backoff calls left)).
Proof.
  induction left as [|left IH]; intros attempt backoff calls trace Hinv Hfail.
  - assert (attempt = retries) as -> by lia. cbn [retry_loop].
    rewrite Nat.ltb_irrefl, Nat.eqb_refl.
    specialize (Hfail 0%nat). rewrite Nat.add_0_r in *.
    destruct (fetch calls) as [st|]; cbn in *; [|done].
    rewrite andb_false_r, Hfail by lia. reflexivity.
  - rewrite retry_loop_failed; [| |lia].
    2:{ rewrite <- (Nat.add_0_r calls). apply Hfail. lia. }
    rewrite IH; [|lia|].
    + cbn [delays]. rewrite attempts_cons, <- !app_assoc.
      replace (S calls + left)%nat with (calls + S left)%nat by lia.
      reflexivity.
    + intros i Hi. replace (S calls + i)%nat with (calls + S i)%nat by lia.
      apply Hfail. lia.
Qed.

Lemma delays_length (fetch : nat → fetch_outcome) :
  ∀ n backoff from, length (delays fetch backoff from n) = n.
Proof. induction n as [|n IH]; intros; cbn; [done|]. by rewrite IH. Qed.

Lemma delays_growth (fetch : nat → fetch_outcome) :
  ∀ n backoff from i wait,
    delays fetch backoff from n !! i = Some wait →
    (wait == backoff * growth fetch from i)%Q.
Proof.
  induction n as [|n IH]; intros backoff from i wait Hi; [done|].
  destruct i as [|i]; cbn in Hi.
  - injection Hi as <-. cbn. ring.
  - apply IH in Hi. rewrite Hi, Qred_correct. cbn [growth]. ring.
Qed.

(** The first attempt that succeeds among those the loop may make, if
    there is one. *)
Lemma first_success (fetch : nat → fetch_outcome) :
  ∀ k calls,
    (∀ i, (i < k)%nat → succeeds (fetch (calls + i)%nat) = false)
    ∨ ∃ n, (n < k)%nat ∧ succeeds (fetch (calls + n)%nat) = true
           ∧ ∀ i, (i < n)%nat → succeeds (fetch (calls + i)%nat) = false.
Proof.
  induction k as [|k IH]; intros calls; [left; lia|].
  destruct (succeeds (fetch (calls + 0)%nat)) eqn:H0.
  { right. exists 0%nat. split; [lia|]. split; [done|lia]. }
  destruct (IH (S calls)) as [Hall|(n & Hn & Hs & Hbefore)].
  - left. intros [|i] Hi; [done|].
    replace (calls + S i)%nat with (S calls + i)%nat by lia. apply Hall. lia.
  - right. exists (S n). split; [lia|].
    replace (calls + S n)%nat with (S calls + n)%nat by lia. split; [done|].
    intros [|i] Hi; [done|].
    replace (calls + S i)%nat with (S calls + i)%nat by lia.
    apply Hbefore. lia.
Qed.

(** X1. [fetchWithRetry] returns the first response with an ok status:
    when call [n] (counted from 0, [n < retries]) is the first one answered
    with a status between 200 and 299, that response is returned after
    exactly [n + 1] fetches, with one sleep between any two of them and
    none after the last. *)
Theorem fetchWithRetry_first_success (fetch : nat → fetch_outcome)
    (retries : nat) (backoff : Q) (n : nat) (st : Z) :
  (n < retries)%nat →
  fetch n = Responds st → ok st = true →
  (∀ i, (i < n)%nat → succeeds (fetch i) = false) →
  ∃ waits, length waits = n
           ∧ fetchWithRetry fetch retries backoff = (inr st, attempts waits).
Proof.
  intros Hn Hst Hok Hfail. exists (delays fetch backoff 0 n).
  split; [apply delays_length|]. unfold fetchWithRetry.
  by rewrite (retry_loop_success fetch retries n retries 1 backoff 0 [] st).
Qed.

Lemma fetchWithRetry_first_success_witness :
  ∃ waits, length waits = 2%nat
           ∧ fetchWithRetry flaky 3 1000 = (inr 200%Z, attempts waits).
Proof.
  apply (fetchWithRetry_first_success flaky 3 1000 2 200).
  - lia.
  - reflexivity.
  - reflexivity.
  - intros [|[|i]] Hi; [reflexivity|reflexivity|lia].
Defined.

(** X2. When none of the first [retries] calls is answered with an ok
    status, [fetchWithRetry] makes exactly [retries] fetches, sleeps
    between them but not after the last, and fails with the error of the
    last call: its status, or the rejection of [fetch]. *)
Theorem fetchWithRetry_exhausted (fetch : nat → fetch_outcome)
    (retries : nat) (backoff : Q) :
  (0 < retries)%nat →
  (∀ i, (i < retries)%nat → succeeds (fetch i) = false) →
  ∃ waits, length waits = (retries - 1)%nat
           ∧ fetchWithRetry fetch retries backoff
             = (inl (last_error (fetch (retries - 1)%nat)), attempts waits).
Proof.
  intros Hpos Hfail. exists (delays fetch backoff 0 (retries - 1)).
  split; [apply delays_length|]. unfold fetchWithRetry.
  destruct retries as [|left]; [lia|].
  replace (S left - 1)%nat with left by lia.
  rewrite (retry_loop_exhausted fetch (S left) left 1 backoff 0 []);
    [done|lia|].
  intros i Hi. apply Hfail. lia.
Qed.

Lemma fetchWithRetry_exhausted_witness :
  ∃ waits, length waits = 2%nat
           ∧ fetchWithRetry down 3 1000
             = (inl (StatusError 500), attempts waits).
Proof.
  apply (fetchWithRetry_exhausted down 3 1000).
  - lia.
  - intros i Hi. reflexivity.
Defined.

Lemma growth_shape (fetch : nat → fetch_outcome) :
  ∀ n from, ∃ b : nat,
    (b ≤ n)%nat
    ∧ (growth fetch from n
       == inject_Z (3 ^ Z.of_nat b)
          * Qpower 2 (Z.of_nat n - 2 * Z.of_nat b))%Q.
Proof.
  induction n as [|n IH]; intros from.
  - exists 0%nat. split; [lia|]. reflexivity.
  - destruct (IH (S from)) as (b & Hb & Hg). cbn [growth].
    assert (growth_factor (fetch from) = 2%Q
            ∨ growth_factor (fetch from) = (3 # 2)%Q) as [-> | ->].
    { unfold growth_factor. destruct (fetch from) as [st|]; [|by right].
      destruct (st =? 529)%Z; [by left|by right]. }
    + exists b. split; [lia|]. rewrite Hg.
      replace (Z.of_nat (S n) - 2 * Z.of_nat b)%Z
        with (1 + (Z.of_nat n - 2 * Z.of_nat b))%Z by lia.
      rewrite Qpower_plus by done. change (Qpower 2 1) with 2%Q. ring.
    + exists (S b). split; [lia|]. rewrite Hg.
      replace (Z.of_nat n - 2 * Z.of_nat b)%Z
        with (1 + (Z.of_nat (S n) - 2 * Z.of_nat (S b)))%Z by lia.
      rewrite Qpower_plus by done. change (Qpower 2 1) with 2%Q.
      replace (Z.of_nat (S b)) with (1 + Z.of_nat b)%Z by lia.
      rewrite Z.pow_add_r by lia. rewrite inject_Z_mult.
      change (inject_Z (3 ^ 1)) with 3%Q. 
      field.
Qed.

Lemma whole_backoff_double (retries : nat) (backoff : Q)
    (fetch : nat → fetch_outcome) (from i : nat) (wait : Q) :
  whole_backoff retries backoff → (i < retries)%nat →
  (wait == backoff * growth fetch from i)%Q → is_double wait.
Proof.
  intros (m & Hm & Hbound & ->) Hi Hwait.
  destruct (decide (m = 0%Z)) as [->|Hne].
  { exists 0%Z, 0%Z. split; [done|]. split; [lia|]. rewrite Hwait.
    change (inject_Z 0) with 0%Q. ring. }
  destruct (growth_shape fetch i from) as (b & Hb & Hg).
  assert (3 ^ Z.of_nat retries < 2 ^ 53)%Z as Hpow by nia.
  assert (retries < 34)%nat as Hsmall.
  { destruct (decide (retries < 34)%nat) as [|Hbig]; [done|].
    assert (3 ^ 34 ≤ 3 ^ Z.of_nat retries)%Z
      by (apply Z.pow_le_mono_r; lia).
    assert (2 ^ 53 < 3 ^ 34)%Z by (vm_compute; reflexivity). lia. }
  exists (m * 3 ^ Z.of_nat b)%Z, (Z.of_nat i - 2 * Z.of_nat b)%Z.
  split_and!.
  - assert (0 < 3 ^ Z.of_nat b)%Z by (apply Z.pow_pos_nonneg; lia).
    assert (3 ^ Z.of_nat b ≤ 3 ^ Z.of_nat retries)%Z
      by (apply Z.pow_le_mono_r; lia).
    rewrite Z.abs_eq by nia. nia.
  - lia.
  - lia.
  - rewrite Hwait, Hg, inject_Z_mult. ring.
Qed.

(** X3. Whatever the upstream does, [fetchWithRetry] makes at most
    [retries] fetches and sleeps only between two fetches.  For an initial
    backoff of a whole number [m] of milliseconds with
    [m * 3 ^ retries < 2 ^ 53], as the default 1000 is, the wait before
    fetch [i + 1] is the initial backoff times the factors of the calls
    before it, 2 for a 529 and 1.5 for any other failure, and it is a
    double-precision number: the products that give the waits are
    computed without rounding. *)
Theorem fetchWithRetry_waits (fetch : nat → fetch_outcome)
    (retries : nat) (backoff : Q) :
  (0 < retries)%nat →
  whole_backoff retries backoff →
  ∃ waits, (length waits < retries)%nat
           ∧ (fetchWithRetry fetch retries backoff).2 = attempts waits
           ∧ ∀ i wait, waits !! i = Some wait →
                       (wait == backoff * growth fetch 0 i)%Q
                       ∧ is_double wait.
Proof.
  intros Hpos Hwhole. unfold fetchWithRetry.
  assert (∀ n i wait, (n < retries)%nat →
            delays fetch backoff 0 n !! i = Some wait →
            (wait == backoff * growth fetch 0 i)%Q ∧ is_double wait)
    as Hwaits.
  { intros n i wait Hn Hi.
    assert (i < n)%nat as Hlt.
    { apply lookup_lt_Some in Hi. by rewrite delays_length in Hi. }
    apply delays_growth in Hi. split; [done|].
    apply (whole_backoff_double retries backoff fetch 0 i); [done|lia|done]. }
  destruct (first_success fetch retries 0) as [Hall|(n & Hn & Hs & Hbefore)].
  - exists (delays fetch backoff 0 (retries - 1)).
    rewrite delays_length. split; [lia|].
    destruct retries as [|left]; [lia|].
    replace (S left - 1)%nat with left by lia.
    rewrite (retry_loop_exhausted fetch (S left) left 1 backoff 0 []);
      [|lia|intros i Hi; apply Hall; lia].
    split; [done|]. intros i wait. apply Hwaits. lia.
  - exists (delays fetch backoff 0 n). rewrite delays_length.
    split; [done|]. cbn in Hs.
    destruct (fetch n) as [st|] eqn:Hst; [|done].
    rewrite (retry_loop_success fetch retries n retries 1 backoff 0 [] st);
      try done.
    split; [done|]. intros i wait. by apply Hwaits.
Qed.

Lemma fetchWithRetry_waits_witness :
  whole_backoff 3 1000
  ∧ ∃ waits, (length waits < 3)%nat
             ∧ (fetchWithRetry flaky 3 1000).2 = attempts waits
             ∧ ∀ i wait, waits !! i = Some wait →
                         (wait == 1000 * growth flaky 0 i)%Q
                         ∧ is_double wait.
Proof.
  assert (whole_backoff 3 1000) as Hwhole.
  { exists 1000%Z. split; [lia|]. split; [reflexivity|reflexivity]. }
  split; [exact Hwhole|].
  apply (fetchWithRetry_waits flaky 3 1000); [lia|exact Hwhole].
Defined.

(** ** Further properties of the extractor *)

Lemma keys_assoc_replace (o : object) (k v : jsstring) :
  keys (assoc_replace o k v) = keys o.
Proof.
  induction o as [|[k0 v0] o IH]; [done|]. cbn [assoc_replace].
  destruct (decide (k0 = k)); [done|]. unfold keys in *. cbn [map fst].
  by rewrite IH.
Qed.

Lemma set_keeps_keys (o : object) (k v : jsstring) :
  NoDup (keys o) → js "__proto__" ∉ keys o →
  NoDup (keys (set o k v)) ∧ js "__proto__" ∉ keys (set o k v).
Proof.
  intros Hnd Hp. unfold set. case_decide as Hk; [done|].
  unfold define. destruct (assoc o k) as [w|] eqn:Hw; cbv iota.
  - by rewrite keys_assoc_replace.
  - assert (k ∉ keys o) as Hfresh.
    { intros Hin%assoc_is_Some. rewrite Hw in Hin. by destruct Hin. }
    unfold keys. rewrite map_app. cbn [map fst]. split.
    + apply NoDup_app. split; [done|]. split; [|apply NoDup_singleton].
      intros x Hx ->%list_elem_of_singleton. done.
    + rewrite elem_of_app, list_elem_of_singleton. intros [?|?]; done.
Qed.

Section ExtractorResult.
Variable Number_toString : jsstring → jsstring.

Lemma extracted_files_usable (responseText : jsstring)
    (files : object) :
  extractAndParseJSON Number_toString responseText = inr files →
  usable files.
Proof.
  unfold extractAndParseJSON.
  destruct (JSON_parse _) as [parsed|]; [|done].
  assert (∀ l acc,
    NoDup (keys acc) → js "__proto__" ∉ keys acc →
    let files' :=
      fold_left
        (fun files '(key, value) =>
           match value with
           | JString s => set files key s
           | _ => set files key (to_String Number_toString value)
           end) l acc in
    NoDup (keys files') ∧ js "__proto__" ∉ keys files') as Hloop.
  { induction l as [|[k v] l IH]; intros acc Hnd Hp; [done|].
    cbn [fold_left]. apply IH.
    - destruct v; by apply set_keeps_keys.
    - destruct v; by apply set_keeps_keys. }
  intros H.
  assert (∀ l, match keys (fold_left
                  (fun files '(key, value) =>
                     match value with
                     | JString s => set files key s
                     | _ => set files key (to_String Number_toString value)
                     end) l []) with
               | [] => inl NoFiles
               | _ :: _ => inr (fold_left
                  (fun files '(key, value) =>
                     match value with
                     | JString s => set files key s
                     | _ => set files key (to_String Number_toString value)
                     end) l [])
               end = (inr files : extraction_failure + object) →
               usable files) as Hcase.
  { intros l Hl. specialize (Hloop l [] (NoDup_nil_2) (not_elem_of_nil _)).
    cbv zeta in Hloop. set (F := fold_left _ l []) in *.
    destruct (keys F) eqn:Hk; [done|].
    injection Hl as <-. unfold usable. rewrite Hk. split; [|done].
    intros E. by rewrite E in Hk. }
  destruct parsed; try done; by apply Hcase in H.
Qed.

(** X4. Whenever [extractAndParseJSON] returns instead of throwing, the
    FileState it returns has at least one file, names no path twice, and
    has no [__proto__] path, whatever the response text was. *)
Theorem extractAndParseJSON_usable (responseText : jsstring) (files : object) :
  extractAndParseJSON Number_toString responseText = inr files →
  usable files.
Proof. apply extracted_files_usable. Qed.

End ExtractorResult.

Lemma extractAndParseJSON_usable_witness : usable counter_app.
Proof.
  apply (extractAndParseJSON_usable lexeme_itself
           (js "Here you go: " ++ JSON_stringify counter_app)).
  vm_compute. reflexivity.
Defined.

(** ** Further properties of the reconciler *)

Lemma classify_same (A : object) (p : jsstring) : classify A A p = None.
Proof.
  unfold classify, strict_neq. destruct (truthy (get A p)); cbn.
  - by rewrite bool_decide_eq_true_2.
  - by rewrite bool_decide_eq_true_2.
Qed.

(** X5. A FileState compared with itself gives no change, whatever its
    paths and contents are. *)
Theorem detectFileChanges_same (A : object) : detectFileChanges A A = [].
Proof.
  rewrite detectFileChanges_omap.
  induction (new_Set (keys A ++ keys A)) as [|p l IH]; [done|].
  cbn [omap list_omap]. by rewrite classify_same.
Qed.

Lemma Set_add_all_app (l1 l2 seen : list jsstring) :
  Set_add_all seen (l1 ++ l2) = Set_add_all (Set_add_all seen l1) l2.
Proof.
  revert seen. induction l1 as [|x l1 IH]; intros seen; [done|].
  cbn [app Set_add_all]. case_decide; apply IH.
Qed.

Lemma Set_add_all_filter (l seen : list jsstring) :
  NoDup l →
  Set_add_all seen l
  = seen ++ List.filter (fun p => negb (bool_decide (p ∈ seen))) l.
Proof.
  revert seen. induction l as [|x l IH]; intros seen Hnd.
  - cbn. by rewrite app_nil_r.
  - apply NoDup_cons in Hnd as [Hx Hnd]. cbn [Set_add_all List.filter].
    case_decide as Hin.
    + rewrite bool_decide_eq_true_2 by done. cbn [negb]. by apply IH.
    + rewrite bool_decide_eq_false_2 by done. cbn [negb].
      rewrite IH by done. rewrite <- app_assoc. cbn [app]. do 2 f_equal.
      clear IH Hnd. induction l as [|y l IH]; [done|].
      apply not_elem_of_cons in Hx as [Hxy Hx]. cbn [List.filter].
      rewrite (bool_decide_ext (y ∈ seen ++ [x]) (y ∈ seen)).
      * destruct (bool_decide (y ∈ seen)); cbn [negb]; by rewrite IH.
      * rewrite elem_of_app, list_elem_of_singleton. naive_solver.
Qed.

Lemma new_Set_union_paths (A B : object) :
  NoDup (keys A) → NoDup (keys B) →
  new_Set (keys A ++ keys B) = union_paths A B.
Proof.
  intros Ha Hb. unfold new_Set, union_paths.
  rewrite Set_add_all_app, (Set_add_all_fresh (keys A) []) by done.
  by apply Set_add_all_filter.
Qed.

Lemma plain_get (o : object) (p : jsstring) :
  plain o →
  match assoc o p with
  | Some s => get o p = VString s ∧ s ≠ []
  | None => True
  end.
Proof.
  intros [Hnd Hall]. destruct (assoc o p) as [s|] eqn:Hs; [|done].
  split; [by apply get_string|]. intros ->.
  assert (p ∈ map fst o) as Hin by (apply assoc_is_Some; by rewrite Hs).
  apply list_elem_of_fmap in Hin as ([k v] & -> & Hin). cbn in Hs.
  rewrite (assoc_elem_of o k v Hnd Hin) in Hs. injection Hs as ->.
  rewrite Forall_forall in Hall. by destruct (Hall _ Hin).
Qed.

Lemma plain_key (o : object) (p : jsstring) :
  plain o → p ∈ keys o → p ∉ object_prototype_names.
Proof.
  intros [_ Hall] Hin. apply list_elem_of_fmap in Hin as ([k v] & -> & Hin).
  rewrite Forall_forall in Hall. by destruct (Hall _ Hin).
Qed.

Lemma get_missing (o : object) (p : jsstring) :
  assoc o p = None → p ∉ object_prototype_names → get o p = VUndefined.
Proof. intros Hp Hn. unfold get. rewrite Hp. by rewrite decide_False. Qed.

Lemma classify_difference (A B : object) (p : jsstring) :
  plain A → plain B → p ∈ keys A ∨ p ∈ keys B →
  classify A B p = difference A B p.
Proof.
  intros Ha Hb Hin.
  assert (p ∉ object_prototype_names) as Hp
    by (destruct Hin; eauto using plain_key).
  pose proof (plain_get A p Ha) as Hga. pose proof (plain_get B p Hb) as Hgb.
  unfold classify, difference, strict_neq.
  destruct (assoc A p) as [a|] eqn:Ea, (assoc B p) as [b|] eqn:Eb.
  - destruct Hga as [-> Hane], Hgb as [-> Hbne]. cbn [truthy].
    rewrite !bool_decide_eq_false_2 by done. cbn [negb andb].
    case_decide as Hab.
    + subst. by rewrite bool_decide_eq_true_2.
    + rewrite bool_decide_eq_false_2; [done|]. by intros [= ->].
  - destruct Hga as [-> Hane]. rewrite (get_missing B p) by done.
    cbn [truthy]. rewrite bool_decide_eq_false_2 by done. reflexivity.
  - destruct Hgb as [-> Hbne]. rewrite (get_missing A p) by done.
    cbn [truthy]. rewrite bool_decide_eq_false_2 by done. reflexivity.
  - exfalso. destruct Hin as [Hin|Hin]; apply assoc_is_Some in Hin.
    + rewrite Ea in Hin. by destruct Hin.
    + rewrite Eb in Hin. by destruct Hin.
Qed.

Lemma detectFileChanges_omap_difference (A B : object) :
  plain A → plain B →
  detectFileChanges A B = omap (difference A B) (union_paths A B).
Proof.
  intros Ha Hb. rewrite detectFileChanges_omap.
  rewrite new_Set_union_paths by (by destruct Ha, Hb).
  assert (∀ p, p ∈ union_paths A B → p ∈ keys A ∨ p ∈ keys B) as Hin.
  { intros p. unfold union_paths. rewrite elem_of_app.
    intros [?|Hp]; [by left|right].
    apply list_elem_of_In, List.filter_In in Hp as [Hp _].
    by apply list_elem_of_In. }
  induction (union_paths A B) as [|p l IH]; [done|].
  cbn [omap list_omap].
  rewrite classify_difference by (try done; apply Hin; left).
  rewrite IH; [done|]. intros q Hq. apply Hin. by right.
Qed.

(** X6. For FileStates with non-empty contents and no path named like a
    member of [Object.prototype], [detectFileChanges] is the difference of
    the two states: it goes through the previous paths in their order and
    then through the paths only the new state has; a path only the new
    state has is new, a path only the previous state has is deleted with
    its old content, a path with two different contents is updated with
    its old content, and a path with the same content is left out. *)
Theorem detectFileChanges_difference (A B : object) :
  plain A → plain B →
  detectFileChanges A B = omap (difference A B) (union_paths A B).
Proof. apply detectFileChanges_omap_difference. Qed.

Lemma detectFileChanges_difference_witness :
  detectFileChanges first_version second_version
  = omap (difference first_version second_version)
         (union_paths first_version second_version).
Proof.
  apply (detectFileChanges_difference first_version second_version).
  - split; [by_compute|]. repeat constructor; by_compute.
  - split; [by_compute|]. repeat constructor; by_compute.
Defined.

(** ** Further properties of the handler *)

Section StreamTranscript.
Variable Number_toString : jsstring → jsstring.

Lemma stream_task_success (env : Env) (body : Body)
    (conversation : option (jsstring * Conversation))
    (systemPrompt : system_prompt) (d : store)
    (chunks : list jsstring) (newFiles : object)
    (status : Z) (trace : list action) :
  fetchWithRetry (fetch (provider env systemPrompt true))
                 default_retries default_backoff = (inr status, trace) →
  stream_body (provider env systemPrompt true) = Some (chunks, true) →
  extractAndParseJSON Number_toString (concat (deltas chunks))
  = inr newFiles →
  save_ok env = true →
  let previousFiles := previous_files body conversation in
  let full := spread previousFiles newFiles in
  let changes := detectFileChanges previousFiles newFiles in
  let iterative := default false (isIterativeUpdate body) in
  let document := next_document env body conversation newFiles full changes in
  stream_task Number_toString env body conversation systemPrompt
    (mkState [] d)
  = (inr tt,
     mkState
       ([EStatus (if iterative then js "Applying changes..."
                  else js "Starting generation...")]
        ++ map EProgress (deltas chunks)
        ++ file_events newFiles changes
        ++ [EComplete document.1 (default (js "anonymous") (userId body))
              changes (if iterative then full else newFiles) iterative])
       (<[document.1 := document.2]> d)).
Proof.
  intros Hfetch Hbody Hextract Hsave. cbv zeta.
  unfold stream_task, try_catch.
  unfold mbind at 1, task_bind at 1. unfold sendData at 1.
  cbn [events db app].
  unfold mbind at 1, task_bind at 1. unfold fetch_upstream.
  rewrite Hfetch. cbn [mret task_ret]. rewrite Hbody.
  unfold mbind at 1, task_bind at 1. rewrite read_chunks_exact.
  cbn [events db app]. unfold mbind at 1, task_bind at 1. unfold extract.
  rewrite Hextract. cbn [mret task_ret].
  unfold mbind at 1, task_bind at 1. unfold persist.
  destruct (next_document _ _ _ _ _ _) as [id c].
  unfold mbind at 1, task_bind at 1. unfold save. rewrite Hsave.
  cbn [mret task_ret events db].
  unfold mbind at 1, task_bind at 1. rewrite send_files_exact.
  cbn [events db sendData fst snd]. by rewrite <- !app_assoc.
Qed.


End StreamTranscript.


Lemma split_nonempty (sep : N) (s : jsstring) : split sep s ≠ [].
Proof.
  destruct s as [|c r]; cbn; [done|].
  destruct (c =? sep); [done|]. by destruct (split sep r).
Qed.

Lemma split_app_sep (sep : N) (a b : jsstring) :
  split sep (a ++ sep :: b) = split sep a ++ split sep b.
Proof.
  induction a as [|c a IH]; cbn [app split].
  - by rewrite N.eqb_refl.
  - destruct (c =? sep); [by rewrite IH|]. rewrite IH.
    pose proof (split_nonempty sep a). by destruct (split sep a).
Qed.

Lemma deltas_cons (chunk : jsstring) (chunks : list jsstring) :
  deltas (chunk :: chunks) = omap line_text (split 10 chunk) ++ deltas chunks.
Proof. unfold deltas. cbn [map concat]. by rewrite omap_app. Qed.

Lemma deltas_single (chunk : jsstring) :
  deltas [chunk] = omap line_text (split 10 chunk).
Proof. unfold deltas. cbn [map concat]. by rewrite app_nil_r. Qed.

Lemma deltas_concat (chunks : list jsstring) :
  Forall (fun chunk => last chunk = Some 10) chunks →
  deltas [concat chunks] = deltas chunks.
Proof.
  induction 1 as [|chunk chunks Hchunk _ IH]; [done|].
  destruct chunk as [|c chunk _] using rev_ind; [done|].
  rewrite last_snoc in Hchunk. injection Hchunk as ->.
  rewrite deltas_single in *. rewrite deltas_cons. cbn [concat].
  rewrite <- app_assoc. cbn [app].
  rewrite !split_app_sep, !omap_app, IH. cbn. by rewrite app_nil_r.
Qed.

(** X8. The read loop of the streaming task gives the same text and
    sends the same [progress] events however the upstream body is cut
    into chunks, provided every chunk ends at a line end: lines are taken
    from each chunk on its own, nothing is carried from one chunk to the
    next. *)
Theorem read_chunks_regroup (chunks : list jsstring) (done : bool)
    (fullResponse : jsstring) (st : state) :
  Forall (fun chunk => last chunk = Some 10) chunks →
  read_chunks chunks done fullResponse st
  = read_chunks [concat chunks] done fullResponse st.
Proof.
  intros Hends. rewrite !read_chunks_exact. by rewrite deltas_concat.
Qed.

Lemma read_chunks_regroup_witness :
  read_chunks (default [] (fst <$> stream_body capped_stream)) true []
              (mkState [] ∅)
  = read_chunks [concat (default [] (fst <$> stream_body capped_stream))]
                true [] (mkState [] ∅).
Proof.
  apply (read_chunks_regroup
           (default [] (fst <$> stream_body capped_stream)) true []
           (mkState [] ∅)).
  repeat constructor.
Defined.

(** ** The merged FileState *)

Lemma assoc_app {V} (o o' : list (jsstring * V)) (k : jsstring) :
  assoc (o ++ o') k
  = match assoc o k with
    | Some v => Some v
    | None => assoc o' k
    end.
Proof.
  induction o as [|[k0 v0] o IH]; [done|]. cbn [app assoc].
  by destruct (decide (k0 = k)).
Qed.

Lemma keys_define (o : object) (k v : jsstring) :
  keys (define o k v) = if decide (k ∈ keys o) then keys o else keys o ++ [k].
Proof.
  unfold define. destruct (assoc o k) as [w|] eqn:Hw.
  - rewrite keys_assoc_replace, decide_True; [done|].
    apply assoc_is_Some. by rewrite Hw.
  - rewrite decide_False.
    + unfold keys. by rewrite map_app.
    + intros Hin%assoc_is_Some. rewrite Hw in Hin. by destruct Hin.
Qed.

Lemma fold_define_fresh (l acc : object) :
  NoDup (keys (acc ++ l)) →
  fold_left (fun o '(k, v) => define o k v) l acc = acc ++ l.
Proof.
  revert acc. induction l as [|[k v] l IH]; intros acc Hnd.
  - by rewrite app_nil_r.
  - cbn [fold_left]. rewrite define_fresh.
    + rewrite IH; rewrite <- app_assoc; done.
    + unfold keys in Hnd. rewrite map_app in Hnd. cbn [map fst] in Hnd.
      apply NoDup_app in Hnd as (_ & Hd & _). intros Hin.
      apply (Hd k Hin). left.
Qed.

Lemma spread_snoc (a b : object) (k v : jsstring) :
  spread a (b ++ [(k, v)]) = define (spread a b) k v.
Proof. unfold spread. by rewrite app_assoc, fold_left_app. Qed.

Lemma union_paths_snoc (a b : object) (k v : jsstring) :
  union_paths a (b ++ [(k, v)])
  = union_paths a b ++ (if decide (k ∈ keys a) then [] else [k]).
Proof.
  unfold union_paths, keys. rewrite map_app, List.filter_app, app_assoc.
  f_equal. cbn [map fst List.filter].
  case_decide.
  - by rewrite bool_decide_eq_true_2.
  - by rewrite bool_decide_eq_false_2.
Qed.

Lemma union_paths_elem (a b : object) (k : jsstring) :
  k ∈ union_paths a b ↔ k ∈ keys a ∨ k ∈ keys b.
Proof.
  unfold union_paths. split.
  - intros [?|Hin]%elem_of_app; [by left|right].
    apply list_elem_of_In, List.filter_In in Hin as [Hin _].
    by apply list_elem_of_In.
  - intros Hin. apply elem_of_app.
    destruct (decide (k ∈ keys a)) as [?|Hout]; [by left|right].
    apply list_elem_of_In, List.filter_In. split.
    + apply list_elem_of_In. tauto.
    + by rewrite bool_decide_eq_false_2.
Qed.

Lemma spread_keys_lookup (previousFiles newFiles : object) :
  NoDup (keys previousFiles) → NoDup (keys newFiles) →
  keys (spread previousFiles newFiles) = union_paths previousFiles newFiles
  ∧ ∀ p, assoc (spread previousFiles newFiles) p
         = match assoc newFiles p with
           | Some text => Some text
           | None => assoc previousFiles p
           end.
Proof.
  intros Ha. induction newFiles as [|[k v] b IH] using rev_ind; intros Hb.
  - unfold spread. rewrite app_nil_r, fold_define_fresh by done.
    unfold union_paths. cbn. by rewrite app_nil_r.
  - unfold keys in Hb. rewrite map_app in Hb. cbn [map fst] in Hb.
    apply NoDup_app in Hb as (Hb & Hk & _).
    assert (k ∉ keys b) as Hfresh by (intros Hin; apply (Hk k Hin); left).
    destruct (IH Hb) as [IHk IHa]. rewrite spread_snoc. split.
    + rewrite keys_define, IHk, union_paths_snoc.
      destruct (decide (k ∈ keys previousFiles)) as [Hin|Hout].
      * rewrite decide_True by (apply union_paths_elem; by left).
        by rewrite app_nil_r.
      * rewrite decide_False; [done|].
        rewrite union_paths_elem. tauto.
    + intros p. rewrite assoc_app. destruct (decide (k = p)) as [<-|Hne].
      * rewrite assoc_define_eq, (assoc_None b k) by done.
        cbn [assoc]. by rewrite decide_True.
      * rewrite assoc_define_ne, IHa by done.
        destruct (assoc b p); [done|]. cbn [assoc].
        by rewrite decide_False.
Qed.

Lemma NoDup_List_filter {A} (f : A → bool) (l : list A) :
  NoDup l → NoDup (List.filter f l).
Proof.
  induction 1 as [|x l Hx Hl IH]; cbn [List.filter]; [constructor|].
  destruct (f x); [|done]. constructor; [|done].
  intros Hin. apply list_elem_of_In, List.filter_In in Hin as [Hin _].
  by apply Hx, list_elem_of_In.
Qed.

Lemma union_paths_NoDup (a b : object) :
  NoDup (keys a) → NoDup (keys b) → NoDup (union_paths a b).
Proof.
  intros Ha Hb. unfold union_paths. apply NoDup_app. split_and!.
  - done.
  - intros k Hin Hfiltered.
    apply list_elem_of_In, List.filter_In in Hfiltered as [_ Hout].
    by rewrite bool_decide_eq_true_2 in Hout.
  - by apply NoDup_List_filter.
Qed.

(** X9. The full state [{ ...previousFiles, ...newFiles }] holds, at
    every path, the generated content when there is one and the previous
    content otherwise; its paths are those of the two states, each once.
    When no path of either state is made of decimal digits only (such
    keys JavaScript enumerates first), the full state keeps every previous
    path at its place and puts the paths only the generation has after
    them, in generation order. *)
Theorem spread_overrides (previousFiles newFiles : object) :
  NoDup (keys previousFiles) → NoDup (keys newFiles) →
  (∀ p, assoc (spread previousFiles newFiles) p
        = match assoc newFiles p with
          | Some text => Some text
          | None => assoc previousFiles p
          end)
  ∧ NoDup (keys (spread previousFiles newFiles))
  ∧ (∀ p, p ∈ keys (spread previousFiles newFiles)
          ↔ p ∈ keys previousFiles ∨ p ∈ keys newFiles)
  ∧ (ordinary_keys previousFiles → ordinary_keys newFiles →
     keys (spread previousFiles newFiles)
     = union_paths previousFiles newFiles).
Proof.
  intros Ha Hb.
  destruct (spread_keys_lookup previousFiles newFiles Ha Hb) as [Hk Hl].
  split_and!.
  - exact Hl.
  - rewrite Hk. by apply union_paths_NoDup.
  - intros p. rewrite Hk. apply union_paths_elem.
  - intros _ _. exact Hk.
Qed.

Lemma spread_overrides_witness :
  (ordinary_keys first_version ∧ ordinary_keys second_version)
  ∧ (∀ p, assoc (spread first_version second_version) p
          = match assoc second_version p with
            | Some text => Some text
            | None => assoc first_version p
            end)
  ∧ NoDup (keys (spread first_version second_version))
  ∧ (∀ p, p ∈ keys (spread first_version second_version)
          ↔ p ∈ keys first_version ∨ p ∈ keys second_version)
  ∧ (ordinary_keys first_version → ordinary_keys second_version →
     keys (spread first_version second_version)
     = union_paths first_version second_version).
Proof.
  split.
  - split; repeat constructor.
  - apply (spread_overrides first_version second_version); by_compute.
Defined.

Section RequestFacts.
Variable Number_toString : jsstring → jsstring.

(** How the non-streaming continuation ends: it throws and leaves the
    state as it was, or it has extracted files, saved the document built
    from them and answers 200. *)
Lemma respond_json_run (env : Env) (body : Body)
    (conversation : option (jsstring * Conversation))
    (systemPrompt : system_prompt) (st : state) :
  (∃ e, respond_json Number_toString env body conversation systemPrompt st
        = (inl e, st))
  ∨ ∃ responseText newFiles,
      extractAndParseJSON Number_toString responseText = inr newFiles
      ∧ save_ok env = true
      ∧ respond_json Number_toString env body conversation systemPrompt st
        = (inr (Json 200 (files_reply env body conversation newFiles).1),
           mkState (events st)
             (<[(files_reply env body conversation newFiles).2.1 :=
                  (files_reply env body conversation newFiles).2.2]> (db st))).
Proof.
  unfold respond_json, fetch_upstream, extract, persist, save, files_reply.
  unfold mbind, task_bind, mret, task_ret, throw. cbv zeta. cbn [fst snd].
  destruct (fetchWithRetry _ _ _) as [[e|r] trace]; [left; by eexists|].
  destruct (response_json _) as [data|]; [|left; by eexists].
  case_decide; [left; by eexists|].
  destruct (head (content data)) as [[|c text]|];
    [left; by eexists| |left; by eexists].
  destruct (extractAndParseJSON _ (c :: text)) as [cause|newFiles] eqn:Hex;
    [left; by eexists|].
  destruct (save_ok env) eqn:Hsave.
  - right. exists (c :: text), newFiles. split_and!; [done..|].
    by destruct (next_document _ _ _ _ _ _) as [id c'].
  - left. destruct (next_document _ _ _ _ _ _) as [id c']. by eexists.
Qed.

(** How the [try] block of [POST] goes up to the generation: it answers
    with an error status, it throws, or it hands over to the generation
    with the conversation it loaded. *)
Lemma handle_cases (env : Env) (request : option Body) (st : state) :
  (∃ status message,
     handle Number_toString env request st
     = (inr (Json status (ErrorReply message)), st)
     ∧ (status = 400 ∨ status = 404 ∨ status = 500)%Z)
  ∨ (∃ e, handle Number_toString env request st = (inl e, st))
  ∨ ∃ body systemPrompt,
      request = Some body
      ∧ handle Number_toString env request st
        = generate Number_toString env body (loaded body (db st))
                   systemPrompt st.
Proof.
  unfold handle, findById.
  unfold mbind, task_bind, mret, task_ret, throw.
  destruct (connect_ok env); [|right; left; by eexists].
  destruct request as [body|]; [|right; left; by eexists].
  destruct (missing_input body); [left; eexists _, _; split; [done|lia]|].
  destruct (api_key env) as [[|k key]|];
    [left; eexists _, _; split; [done|lia]| |
     left; eexists _, _; split; [done|lia]].
  destruct (default false (isIterativeUpdate body)) eqn:Hiter.
  2:{ right; right. eexists body, _. split; [done|].
      unfold loaded. by rewrite Hiter. }
  destruct (conversationId body) as [[|c id]|] eqn:Hid.
  1,3: right; right; eexists body, _; (split; [done|]);
       unfold loaded; by rewrite Hiter, Hid.
  destruct (find_ok env (c :: id)); [|right; left; by eexists].
  cbn [db]. destruct (db st !! (c :: id)) as [conversation|] eqn:Hfound.
  - right; right. eexists body, _. split; [done|].
    unfold loaded. by rewrite Hiter, Hid, Hfound.
  - left. eexists _, _. split; [done|lia].
Qed.

(** What a request writes: nothing, or the document built from the files
    it extracted and the conversation it loaded. *)
Lemma POST_write (env : Env) (request : option Body) (d : store) :
  db (POST Number_toString env request d).2 = d
  ∨ ∃ body newFiles full changes,
      request = Some body
      ∧ db (POST Number_toString env request d).2
        = <[(next_document env body (loaded body d) newFiles full changes).1
            := (next_document env body (loaded body d) newFiles full
                  changes).2]> d.
Proof.
  unfold POST.
  destruct (handle_cases env request (mkState [] d))
    as [(status & message & -> & _)|[[e ->]|(body & sp & -> & ->)]];
    [by left..|].
  unfold generate. cbn [db]. destruct (default false (streaming body)).
  - unfold mbind, task_bind.
    pose proof (stream_task_run Number_toString env body (loaded body d) sp d)
      as Hrun. cbv zeta in Hrun.
    destruct (stream_task _ _ _ _ _ _) as [[e|[]] st];
      cbn [mret task_ret fst snd] in *.
    + destruct Hrun as (evs & _ & [(e' & _ & -> & _)|
        (newFiles & full & changes & id & c & _ & Hdoc & -> & _)]);
        [by left|right].
      exists body, newFiles, full, changes. by rewrite Hdoc.
    + destruct Hrun as (evs & _ & [(e' & _ & -> & _)|
        (newFiles & full & changes & id & c & _ & Hdoc & -> & _)]);
        [by left|right].
      exists body, newFiles, full, changes. by rewrite Hdoc.
  - destruct (respond_json_run env body (loaded body d) sp (mkState [] d))
      as [[e ->]|(text & newFiles & _ & _ & ->)]; [by left|right].
    eexists body, newFiles, _, _. split; [done|]. cbn [snd db].
    unfold files_reply. cbv zeta. cbn [fst snd]. reflexivity.
Qed.

End RequestFacts.

Section RequestProperties.
Variable Number_toString : jsstring → jsstring.

(** The streaming task catches what it throws. *)
Lemma stream_task_returns (env : Env) (body : Body)
    (conversation : option (jsstring * Conversation))
    (systemPrompt : system_prompt) (st : state) :
  ∃ st', stream_task Number_toString env body conversation systemPrompt st
         = (inr tt, st').
Proof.
  unfold stream_task.
  match goal with |- context [try_catch ?b ?h] => generalize b end.
  intros b. unfold try_catch, sendData.
  destruct (b st) as [[e|[]] st']; eauto.
Qed.

(** A JSON answer of [POST], by its status. *)
Lemma POST_json (env : Env) (request : option Body) (d : store)
    (status : Z) (answer : reply) (st : state) :
  POST Number_toString env request d = (Json status answer, st) →
  (st = mkState [] d ∧ (status = 400 ∨ status = 404 ∨ status = 500)%Z)
  ∨ ∃ body responseText newFiles,
      request = Some body
      ∧ default false (streaming body) = false
      ∧ extractAndParseJSON Number_toString responseText = inr newFiles
      ∧ save_ok env = true
      ∧ status = 200%Z
      ∧ answer = (files_reply env body (loaded body d) newFiles).1
      ∧ st = mkState []
               (<[(files_reply env body (loaded body d) newFiles).2.1 :=
                    (files_reply env body (loaded body d) newFiles).2.2]> d).
Proof.
  unfold POST.
  destruct (handle_cases Number_toString env request (mkState [] d))
    as [(status' & message & -> & Hst)|[[e ->]|(body & sp & -> & ->)]].
  - intros [= <- <- <-]. by left.
  - intros [= <- <- <-]. left. split; [done|lia].
  - unfold generate. cbn [db].
    destruct (default false (streaming body)) eqn:Hstreaming.
    + unfold mbind, task_bind.
      destruct (stream_task_returns env body (loaded body d) sp (mkState [] d))
        as [st' ->]. by intros [=].
    + destruct (respond_json_run Number_toString env body (loaded body d) sp
                  (mkState [] d))
        as [[e ->]|(text & newFiles & Hex & Hsave & ->)].
      * intros [= <- <- <-]. left. split; [done|lia].
      * intros [= <- <- <-]. right. by exists body, text, newFiles.
Qed.

(** X10. When [POST] answers with JSON, no event has been sent, and the
    status decides what was written.  With 400, 404 or 500 the collection
    is as before.  With 200 files were extracted, the request is not a
    streaming one, and the document has been saved under the id the
    answer carries; the answer holds the extracted files, their changes
    against the previous files, and as [fullFiles] the previous files with
    the extracted ones spread over them, which is also the saved
    document's [currentFiles]. *)
Theorem POST_json_answer (env : Env) (request : option Body) (d : store)
    (status : Z) (answer : reply) (st : state) :
  POST Number_toString env request d = (Json status answer, st) →
  events st = []
  ∧ ((db st = d ∧ (status = 400 ∨ status = 404 ∨ status = 500)%Z)
     ∨ (status = 200%Z
        ∧ ∃ body newFiles id document,
            request = Some body
            ∧ default false (streaming body) = false
            ∧ usable newFiles
            ∧ db st = <[id := document]> d
            ∧ currentFiles document
              = spread (previous_files body (loaded body d)) newFiles
            ∧ answer
              = FilesReply newFiles (currentFiles document)
                  (detectFileChanges (previous_files body (loaded body d))
                                     newFiles)
                  id (default (js "anonymous") (userId body))
                  (default false (isIterativeUpdate body)))).
Proof.
  intros [(-> & Hstatus)|
          (body & text & newFiles & -> & Hs & Hex & _ & -> & -> & ->)]%POST_json.
  - split; [done|]. by left.
  - split; [done|]. right. split; [done|]. unfold files_reply. cbv zeta.
    cbn [fst snd db].
    set (prev := previous_files body (loaded body d)).
    destruct (next_document_appends env body (loaded body d) newFiles
                (spread prev newFiles) (detectFileChanges prev newFiles))
      as (turn & _ & Hcur & _).
    eexists body, newFiles, _, _. split_and!; try done.
    + by apply (extracted_files_usable Number_toString text).
    + by rewrite Hcur.
Qed.

End RequestProperties.

Lemma POST_json_answer_witness :
  events (POST lexeme_itself (env_with one_file_provider)
            (Some plain_request) ∅).2 = []
  ∧ ((db (POST lexeme_itself (env_with one_file_provider)
            (Some plain_request) ∅).2 = ∅
      ∧ (200 = 400 ∨ 200 = 404 ∨ 200 = 500)%Z)
     ∨ (200 = 200
        ∧ ∃ body newFiles id document,
            Some plain_request = Some body
            ∧ default false (streaming body) = false
            ∧ usable newFiles
            ∧ db (POST lexeme_itself (env_with one_file_provider)
                    (Some plain_request) ∅).2 = <[id := document]> ∅
            ∧ currentFiles document
              = spread (previous_files body (loaded body ∅)) newFiles
            ∧ FilesReply [(js "/a.js", js "1")] [(js "/a.js", js "1")]
                [mkChange (js "/a.js") New None] (js "65f0c0ffee")
                (js "anonymous") false
              = FilesReply newFiles (currentFiles document)
                  (detectFileChanges (previous_files body (loaded body ∅))
                                     newFiles)
                  id (default (js "anonymous") (userId body))
                  (default false (isIterativeUpdate body))))%Z.
Proof.
  apply (POST_json_answer lexeme_itself (env_with one_file_provider)
           (Some plain_request) ∅ 200
           (FilesReply [(js "/a.js", js "1")] [(js "/a.js", js "1")]
              [mkChange (js "/a.js") New None] (js "65f0c0ffee")
              (js "anonymous") false)).
  vm_compute. reflexivity.
Defined.

Lemma loaded_Some (body : Body) (d : store) (id : jsstring)
    (old : Conversation) :
  loaded body d = Some (id, old) →
  d !! id = Some old ∧ default false (isIterativeUpdate body) = true
  ∧ conversationId body = Some id ∧ id ≠ [].
Proof.
  unfold loaded. destruct (default false (isIterativeUpdate body)); [|done].
  destruct (conversationId body) as [[|c id']|]; [done| |done].
  destruct (d !! (c :: id')) as [conversation|] eqn:Hd; [|done].
  by intros [= <- <-].
Qed.

Lemma loaded_named (body : Body) (d : store) (id : jsstring)
    (old : Conversation) :
  isIterativeUpdate body = Some true → conversationId body = Some id →
  id ≠ [] → d !! id = Some old → loaded body d = Some (id, old).
Proof.
  intros Hiter Hid Hne Hold. unfold loaded. rewrite Hiter, Hid. cbn.
  destruct id as [|c id']; [done|]. by rewrite Hold.
Qed.

Lemma loaded_None (body : Body) (d : store) :
  default false (isIterativeUpdate body) = false
  ∨ conversationId body = None ∨ conversationId body = Some [] →
  loaded body d = None.
Proof.
  unfold loaded. intros [->|[->| ->]]; [done| |];
    by destruct (default false (isIterativeUpdate body)).
Qed.

Section StoreProperties.
Variable Number_toString : jsstring → jsstring.

(** X11. Whatever the request and whatever the outcome, [POST] keeps
    every stored conversation: none is removed, its owner, initial prompt
    and uploaded files stay as they are, and its turns stay as they are
    or get one turn appended.  (The id given to a new document is one the
    collection does not hold.) *)
Theorem POST_keeps_conversations (env : Env) (request : option Body)
    (d : store) (id : jsstring) (c : Conversation) :
  d !! fresh_id env = None →
  d !! id = Some c →
  ∃ c', db (POST Number_toString env request d).2 !! id = Some c'
        ∧ conv_userId c' = conv_userId c
        ∧ initialPrompt c' = initialPrompt c
        ∧ conv_uploadedFiles c' = conv_uploadedFiles c
        ∧ (conversationTurns c' = conversationTurns c
           ∨ ∃ turn, conversationTurns c' = conversationTurns c ++ [turn]).
Proof.
  intros Hfresh Hc.
  destruct (POST_write Number_toString env request d)
    as [->|(body & newFiles & full & changes & -> & ->)].
  { exists c. split_and!; try done. by left. }
  unfold next_document.
  destruct (loaded body d) as [[id0 old]|] eqn:Hloaded.
  - apply loaded_Some in Hloaded as (Hold & -> & _ & _). cbn [fst snd].
    destruct (decide (id0 = id)) as [->|Hne].
    + rewrite lookup_insert_eq. eexists. split; [done|].
      assert (old = c) as -> by congruence. cbn. split_and!; try done.
      right. by eexists.
    + rewrite lookup_insert_ne by done. exists c. split_and!; try done.
      by left.
  - assert (fresh_id env ≠ id) as Hne by (intros Heq; congruence).
    destruct (default false (isIterativeUpdate body)); cbv beta iota;
      cbn [fst snd]; rewrite lookup_insert_ne by done; exists c;
      split_and!; try done; by left.
Qed.

(** X12. An iterative request that names a stored conversation and is
    answered with 200 has appended its turn to that conversation,
    whoever sent it: the request's user id is not compared with the
    owner of the conversation.  The owner, the initial prompt and the
    uploaded files stay; the new turn carries the request's prompt and
    the changes the answer reports; the answer carries the request's user
    id. *)
Theorem POST_iterative_appends (env : Env) (body : Body) (d : store)
    (id : jsstring) (old : Conversation) (answer : reply) :
  isIterativeUpdate body = Some true →
  conversationId body = Some id → id ≠ [] →
  d !! id = Some old →
  (POST Number_toString env (Some body) d).1 = Json 200 answer →
  ∃ newFiles full changes,
    answer = FilesReply newFiles full changes id
               (default (js "anonymous") (userId body)) true
    ∧ db (POST Number_toString env (Some body) d).2
      = <[id := mkConversation (conv_userId old) (initialPrompt old)
                  (conv_uploadedFiles old)
                  (conversationTurns old
                   ++ [mkTurn (prompt body) (now env) changes full])
                  full]> d.
Proof.
  intros Hiter Hid Hne Hold Hanswer.
  destruct (POST Number_toString env (Some body) d) as [r st] eqn:Hpost.
  cbn [fst snd] in *. subst r.
  apply POST_json in Hpost
    as [(-> & Hstatus)|
        (body' & text & newFiles & [= <-] & _ & _ & _ & _ & -> & ->)];
    [lia|].
  rewrite (loaded_named body d id old) by done.
  unfold files_reply, next_document. cbv zeta. rewrite Hiter.
  cbn [default fst snd db]. by eexists _, _, _.
Qed.

(** X13. A request answered with 200 that is not iterative, or is
    iterative but names no conversation (none, or the empty string), has
    created a conversation under a fresh id, owned by the request's user
    id ([anonymous] when it gives none), with a single turn.  That turn
    lists every generated file as new, also when the request brought
    existing files, whereas the answer reports the changes against those
    files. *)
Theorem POST_new_conversation (env : Env) (body : Body) (d : store)
    (answer : reply) :
  default false (isIterativeUpdate body) = false
  ∨ conversationId body = None ∨ conversationId body = Some [] →
  (POST Number_toString env (Some body) d).1 = Json 200 answer →
  ∃ newFiles,
    let previousFiles := default [] (existingFiles body) in
    let full := spread previousFiles newFiles in
    let user := default (js "anonymous") (userId body) in
    answer = FilesReply newFiles full
               (detectFileChanges previousFiles newFiles)
               (fresh_id env) user (default false (isIterativeUpdate body))
    ∧ db (POST Number_toString env (Some body) d).2
      = <[fresh_id env :=
            mkConversation user (prompt body)
              (default [] (uploadedFiles body))
              [mkTurn (prompt body) (now env)
                 (map (fun p => mkChange p New None) (keys newFiles)) full]
              full]> d.
Proof.
  intros Hnew Hanswer.
  destruct (POST Number_toString env (Some body) d) as [r st] eqn:Hpost.
  cbn [fst snd] in *. subst r.
  apply POST_json in Hpost
    as [(-> & Hstatus)|
        (body' & text & newFiles & [= <-] & _ & _ & _ & _ & -> & ->)];
    [lia|].
  rewrite (loaded_None body d Hnew). exists newFiles.
  unfold files_reply, next_document, previous_files. cbv zeta.
  cbn [fst snd db].
  destruct (existingFiles body) as [files|];
    by destruct (default false (isIterativeUpdate body)).
Qed.

End StoreProperties.

Lemma POST_keeps_conversations_witness :
  ∃ c', db (POST lexeme_itself (env_with one_file_provider)
              (Some plain_request) one_conversation).2 !! js "65f0aaaa"
        = Some c'
        ∧ conv_userId c' = conv_userId alice_conversation
        ∧ initialPrompt c' = initialPrompt alice_conversation
        ∧ conv_uploadedFiles c' = conv_uploadedFiles alice_conversation
        ∧ (conversationTurns c' = conversationTurns alice_conversation
           ∨ ∃ turn, conversationTurns c'
                     = conversationTurns alice_conversation ++ [turn]).
Proof.
  apply (POST_keeps_conversations lexeme_itself (env_with one_file_provider)
           (Some plain_request) one_conversation (js "65f0aaaa")
           alice_conversation).
  - vm_compute. reflexivity.
  - vm_compute. reflexivity.
Defined.

Lemma POST_iterative_appends_witness :
  ∃ newFiles full changes,
    FilesReply [(js "/a.js", js "1")]
      [(js "/src/App.js", js "v1"); (js "/a.js", js "1")]
      [mkChange (js "/src/App.js") Deleted (Some (VString (js "v1")));
       mkChange (js "/a.js") New None]
      (js "65f0aaaa") (js "mallory") true
    = FilesReply newFiles full changes (js "65f0aaaa")
        (default (js "anonymous") (userId foreign_update)) true
    ∧ db (POST lexeme_itself (env_with one_file_provider)
            (Some foreign_update) one_conversation).2
      = <[js "65f0aaaa" :=
            mkConversation (conv_userId alice_conversation)
              (initialPrompt alice_conversation)
              (conv_uploadedFiles alice_conversation)
              (conversationTurns alice_conversation
               ++ [mkTurn (prompt foreign_update)
                     (now (env_with one_file_provider)) changes full])
              full]> one_conversation.
Proof.
  apply (POST_iterative_appends lexeme_itself (env_with one_file_provider)
           foreign_update one_conversation (js "65f0aaaa")
           alice_conversation).
  - reflexivity.
  - reflexivity.
  - discriminate.
  - vm_compute. reflexivity.
  - vm_compute. reflexivity.
Defined.

Lemma POST_new_conversation_witness :
  ∃ newFiles,
    let previousFiles := default [] (existingFiles update_without_id) in
    let full := spread previousFiles newFiles in
    let user := default (js "anonymous") (userId update_without_id) in
    FilesReply [(js "/a.js", js "1")] [(js "/a.js", js "1")]
      [mkChange (js "/a.js") Updated (Some (VString (js "0")))]
      (js "65f0c0ffee") (js "anonymous") true
    = FilesReply newFiles full (detectFileChanges previousFiles newFiles)
        (fresh_id (env_with one_file_provider)) user
        (default false (isIterativeUpdate update_without_id))
    ∧ db (POST lexeme_itself (env_with one_file_provider)
            (Some update_without_id) ∅).2
      = <[fresh_id (env_with one_file_provider) :=
            mkConversation user (prompt update_without_id)
              (default [] (uploadedFiles update_without_id))
              [mkTurn (prompt update_without_id)
                 (now (env_with one_file_provider))
                 (map (fun p => mkChange p New None) (keys newFiles)) full]
              full]> ∅.
Proof.
  apply (POST_new_conversation lexeme_itself (env_with one_file_provider)
           update_without_id ∅).
  - right. left. reflexivity.
  - vm_compute. reflexivity.
Defined.

(** ** The reconciler and the merge together *)

(** X14. A previous file that the generation does not return stays in
    the full state with its content, and is nevertheless reported as
    deleted in the change list computed for the same request (for a
    non-empty content and a path that is no member of [Object.prototype]):
    the change list compares the previous files with the generated files,
    not with the merged state. *)
Theorem kept_file_reported_deleted (previousFiles newFiles : object)
    (p old : jsstring) :
  NoDup (keys previousFiles) → NoDup (keys newFiles) →
  assoc previousFiles p = Some old → old ≠ [] →
  p ∉ keys newFiles → p ∉ object_prototype_names →
  mkChange p Deleted (Some (VString old))
    ∈ detectFileChanges previousFiles newFiles
  ∧ assoc (spread previousFiles newFiles) p = Some old.
Proof.
  intros Ha Hb Hold Hne Hout Hproto. split.
  - rewrite detectFileChanges_omap. apply list_elem_of_omap. exists p. split.
    + apply new_Set_elem, elem_of_app. left.
      apply assoc_is_Some. by rewrite Hold.
    + unfold classify.
      rewrite (proj2 (get_string previousFiles p old) Hold).
      rewrite (get_missing newFiles p) by (by try apply assoc_None).
      cbn [truthy]. rewrite bool_decide_eq_false_2 by done. reflexivity.
  - destruct (spread_keys_lookup previousFiles newFiles Ha Hb) as [_ ->].
    by rewrite (assoc_None newFiles p).
Qed.

Lemma kept_file_reported_deleted_witness :
  mkChange (js "/src/old.js") Deleted (Some (VString (js "x")))
    ∈ detectFileChanges first_version second_version
  ∧ assoc (spread first_version second_version) (js "/src/old.js")
    = Some (js "x").
Proof.
  apply (kept_file_reported_deleted first_version second_version
           (js "/src/old.js") (js "x")); by_compute.
Defined.

(** ** The [GET] handler *)

Lemma find_by_user_own (userId : jsstring) (collection : store)
    (ids : list jsstring) :
  Forall (fun e => collection !! e.1 = Some e.2 ∧ conv_userId e.2 = userId)
         (find_by_user userId collection ids).
Proof.
  apply Forall_forall. intros [id c] Hin. unfold find_by_user in Hin.
  apply list_elem_of_omap in Hin as (id' & _ & Hid').
  destruct (collection !! id') as [c'|] eqn:Hc'; [|done].
  case_decide; [|done]. by injection Hid' as <- <-.
Qed.

Lemma find_by_user_foreign (userId : jsstring) (collection : store)
    (id : jsstring) (conversation : Conversation) (ids : list jsstring) :
  collection !! id = Some conversation →
  Some userId ≠ Some (conv_userId conversation) →
  find_by_user userId (delete id collection) ids
  = find_by_user userId collection ids.
Proof.
  intros Hconv Hforeign. unfold find_by_user.
  induction ids as [|id' ids IH]; [done|]. cbn [omap list_omap].
  rewrite IH. destruct (decide (id' = id)) as [->|Hne].
  - rewrite lookup_delete_eq, Hconv. rewrite decide_False; [done|].
    intros Heq. apply Hforeign. by rewrite Heq.
  - by rewrite lookup_delete_ne.
Qed.

(** X15. [GET] only hands out conversations of the user who asks: a
    conversation it returns is stored under the id it is returned with
    and its owner is the [userId] of the request, for the single
    conversation as for every entry of the list; and asking for a stored
    conversation of another user gives the very answer that is given when
    no such conversation is stored. *)
Theorem GET_only_own_conversations (env : Env)
    (latest_first : option (list jsstring))
    (userId conversationId : option jsstring) (collection : store) :
  match (GET env latest_first userId conversationId collection).2 with
  | GetError _ => True
  | GetConversation id conversation =>
      collection !! id = Some conversation
      ∧ userId = Some (conv_userId conversation)
  | GetConversations conversations =>
      Forall (fun e => collection !! e.1 = Some e.2
                       ∧ userId = Some (conv_userId e.2))
             conversations
  end
  ∧ ∀ id conversation,
      conversationId = Some id →
      collection !! id = Some conversation →
      userId ≠ Some (conv_userId conversation) →
      GET env latest_first userId conversationId collection
      = GET env latest_first userId conversationId (delete id collection).
Proof.
  split.
  - unfold GET. destruct (connect_ok env); [|done].
    destruct userId as [[|u ser]|]; [done| |done].
    destruct conversationId as [[|c id']|].
    + destruct latest_first as [ids|]; [|done]. cbn [snd].
      eapply Forall_impl; [apply find_by_user_own|].
      intros [id conv] [? <-]. done.
    + destruct (find_ok env (c :: id')); [|done].
      destruct (collection !! (c :: id')) as [conv|] eqn:Hconv; [|done].
      case_decide as Hown; [done|]. cbn [snd]. split; [done|].
      by rewrite Hown.
    + destruct latest_first as [ids|]; [|done]. cbn [snd].
      eapply Forall_impl; [apply find_by_user_own|].
      intros [id conv] [? <-]. done.
  - intros id conv -> Hconv Hforeign. unfold GET.
    destruct (connect_ok env); [|done].
    destruct userId as [[|u ser]|]; [done| |done].
    destruct id as [|c id'].
    + destruct latest_first as [ids|]; [|done].
      by rewrite (find_by_user_foreign (u :: ser) collection [] conv).
    + destruct (find_ok env (c :: id')); [|done].
      rewrite Hconv, lookup_delete_eq. rewrite decide_True; [done|].
      intros Heq. apply Hforeign. by rewrite Heq.
Qed.

(** ** The cached connection *)

Lemma connect_all_settled (attempts : list bool) (settled : bool) :
  connect_all attempts (mkCached settled (Some settled))
  = (repeat settled (length attempts), O).
Proof.
  induction attempts as [|connects attempts IH]; [done|].
  cbn [connect_all length repeat]. unfold connectMongo. cbn [conn promise].
  destruct settled; cbn; by rewrite IH.
Qed.

(** X16. Over any number of calls of [connectMongo] that start from the
    empty cache, [mongoose.connect] is called exactly once, by the first
    call, and every call ends as that one attempt did: after a success
    all calls resolve, and after a failure all later calls fail too,
    whether or not the database has become reachable, because the
    rejected promise stays in the cache. *)
Theorem connectMongo_connects_once (first : bool) (later : list bool) :
  connect_all (first :: later) no_connection
  = (repeat first (S (length later)), 1%nat).
Proof.
  cbn [connect_all]. unfold connectMongo, no_connection. cbn [conn promise].
  destruct first; cbn [repeat]; by rewrite connect_all_settled.
Qed.

(** ** Stream framing *)

Lemma split_blank_cons2 (c d : N) (r : jsstring) :
  split_blank (c :: d :: r)
  = if (c =? 10) && (d =? 10) then [] :: split_blank r
    else push_front c (split_blank (d :: r)).
Proof. reflexivity. Qed.

Lemma split_blank_nonempty (s : jsstring) : split_blank s ≠ [].
Proof.
  destruct s as [|c [|d r]]; [done..|]. rewrite split_blank_cons2.
  destruct ((c =? 10) && (d =? 10)); [done|].
  by destruct (split_blank (d :: r)).
Qed.

Lemma removelast_cons {A} (x : A) (l : list A) :
  l ≠ [] → removelast (x :: l) = x :: removelast l.
Proof. by destruct l. Qed.

Lemma last_cons_nonempty {A} (x : A) (l : list A) :
  l ≠ [] → last (x :: l) = last l.
Proof. by destruct l. Qed.

Lemma removelast_app_nonempty {A} (l1 l2 : list A) :
  l2 ≠ [] → removelast (l1 ++ l2) = l1 ++ removelast l2.
Proof. intros H. by apply removelast_app. Qed.

(** A split without a separator is the text itself. *)
Lemma split_blank_single (n : nat) :
  ∀ s x, (length s ≤ n)%nat → split_blank s = [x] → x = s.
Proof.
  induction n as [|n IH]; intros s x Hn Hs.
  - destruct s; [|cbn in Hn; lia]. by injection Hs as <-.
  - destruct s as [|c [|d r]]; [by injection Hs as <-..|].
    rewrite split_blank_cons2 in Hs.
    destruct ((c =? 10) && (d =? 10)).
    + pose proof (split_blank_nonempty r). injection Hs as _ Hs. done.
    + destruct (split_blank (d :: r)) as [|y ys] eqn:Hy;
        [by apply split_blank_nonempty in Hy|].
      cbn in Hs. injection Hs as <- ->.
      f_equal. apply IH; [cbn in *; lia|done].
Qed.

(** Splitting a text in two steps: the pieces of the first part but the
    last, then the pieces of that last piece followed by the second
    part. *)
Lemma split_blank_app (n : nat) :
  ∀ a b, (length a ≤ n)%nat →
    split_blank (a ++ b)
    = removelast (split_blank a)
      ++ split_blank (default [] (last (split_blank a)) ++ b).
Proof.
  induction n as [|n IH]; intros a b Hn.
  - destruct a; [done|cbn in Hn; lia].
  - destruct a as [|c [|d r]]; [done..|].
    cbn [app]. rewrite !split_blank_cons2.
    destruct ((c =? 10) && (d =? 10)) eqn:Hsep.
    + rewrite removelast_cons, last_cons_nonempty
        by apply split_blank_nonempty.
      cbn [app]. f_equal. apply IH. cbn in *. lia.
    + change (d :: r ++ b) with ((d :: r) ++ b).
      rewrite (IH (d :: r) b) by (cbn in *; lia).
      destruct (split_blank (d :: r)) as [|x [|y ys]] eqn:Hx;
        [by apply split_blank_nonempty in Hx| |].
      * apply (split_blank_single (S n)) in Hx as ->; [|cbn in *; lia].
        cbn [removelast last default from_option id app push_front].
        by rewrite split_blank_cons2, Hsep.
      * cbn [push_front]. rewrite !removelast_cons by done.
        rewrite !last_cons_nonempty by done. reflexivity.
Qed.

(** The last piece of a split holds no separator. *)
Lemma split_blank_last (n : nat) :
  ∀ s, (length s ≤ n)%nat →
    split_blank (default [] (last (split_blank s)))
    = [default [] (last (split_blank s))].
Proof.
  induction n as [|n IH]; intros s Hn.
  - destruct s; [done|cbn in Hn; lia].
  - destruct s as [|c [|d r]]; [done..|].
    rewrite split_blank_cons2.
    destruct ((c =? 10) && (d =? 10)) eqn:Hsep.
    + rewrite last_cons_nonempty by apply split_blank_nonempty.
      apply IH. cbn in *. lia.
    + destruct (split_blank (d :: r)) as [|x [|y ys]] eqn:Hx;
        [by apply split_blank_nonempty in Hx| |].
      * pose proof Hx as Hx'.
        apply (split_blank_single (S n)) in Hx' as ->; [|cbn in *; lia].
        cbn [push_front last default from_option id].
        rewrite split_blank_cons2, Hsep.
        specialize (IH (d :: r)). rewrite Hx in IH.
        cbn [last default from_option id] in IH.
        rewrite IH by (cbn in *; lia). done.
      * cbn [push_front]. rewrite last_cons_nonempty by done.
        specialize (IH (d :: r)). rewrite Hx in IH.
        rewrite last_cons_nonempty in IH by done.
        apply IH. cbn in *. lia.
Qed.

(** The read loop sees the same lines as one split of the whole text. *)
Lemma chat_read_whole (chunks : list jsstring) :
  ∀ buffer, split_blank buffer = [buffer] →
    chat_read chunks buffer
    = omap chat_payload (removelast (split_blank (buffer ++ concat chunks))).
Proof.
  induction chunks as [|chunk chunks IH]; intros buffer Hbuffer.
  - cbn [chat_read concat]. by rewrite app_nil_r, Hbuffer.
  - cbn [chat_read concat]. rewrite IH.
    + rewrite app_assoc.
      rewrite (split_blank_app (length (buffer ++ chunk))
                 (buffer ++ chunk) (concat chunks)) by done.
      rewrite removelast_app_nonempty by apply split_blank_nonempty.
      by rewrite omap_app.
    + by apply (split_blank_last (length (buffer ++ chunk))).
Qed.

Section ChatFacts.
Variable decode : jsstring → option Parsed.

(** X17. [handleChatSubmit] does not depend on how the network cuts the
    response into chunks: what it leaves is what it leaves when the whole
    body arrives as one chunk, because the text after the last blank line
    is kept in the buffer for the next chunk. *)
Theorem handleChatSubmit_chunking (chunks : list jsstring)
    (failure : option jsstring) (s : Chat) :
  handleChatSubmit decode (StreamBody chunks failure) s
  = handleChatSubmit decode (StreamBody [concat chunks] failure) s.
Proof.
  unfold handleChatSubmit. rewrite !chat_read_whole by done.
  cbn [concat]. by rewrite app_nil_r.
Qed.

Lemma workspace_frame_quiet (chatPrompt : jsstring) (prevFiles : object)
    (parsed : Parsed) (w : Workspace) :
  p_type parsed ≠ js "complete" →
  let w' := workspace_frame chatPrompt prevFiles parsed w in
  ws_files w' = ws_files w ∧ ws_isStreaming w' = ws_isStreaming w
  ∧ ws_chatPrompt w' = ws_chatPrompt w
  ∧ ws_promptFileHistory w' = ws_promptFileHistory w
  ∧ ws_conversationId w' = ws_conversationId w
  ∧ ws_storedFiles w' = ws_storedFiles w.
Proof.
  intros Htype. cbv zeta. unfold workspace_frame.
  destruct (bool_decide (p_type parsed = js "file") && _ && _); [done|].
  by rewrite bool_decide_eq_false_2.
Qed.

(** X18. A response without a [complete] frame leaves the workspace page
    waiting: when the body ends, whatever else it carried (an [error]
    event of the server, whose throw is caught and logged per frame, or
    a JSON error body, which holds no blank line), [isStreaming] is still
    set and no error text is shown; the files, the prompt field, the
    history and the conversation id are as before. *)
Theorem handleChatSubmit_without_complete (chunks : list jsstring)
    (s : Chat) :
  trim (ws_chatPrompt (chat_workspace s)) ≠ [] →
  no_complete decode (chat_read chunks []) →
  let s' := handleChatSubmit decode (StreamBody chunks None) s in
  ws_isStreaming (chat_workspace s') = true
  ∧ chatError s' = []
  ∧ isChatGenerating s' = false
  ∧ ws_files (chat_workspace s') = ws_files (chat_workspace s)
  ∧ ws_chatPrompt (chat_workspace s') = ws_chatPrompt (chat_workspace s)
  ∧ ws_promptFileHistory (chat_workspace s')
    = ws_promptFileHistory (chat_workspace s)
  ∧ ws_conversationId (chat_workspace s')
    = ws_conversationId (chat_workspace s).
Proof.
  intros Hprompt Hquiet. cbv zeta. unfold handleChatSubmit.
  rewrite bool_decide_eq_false_2 by done. cbn [chat_workspace chatError
    isChatGenerating].
  set (w := chat_workspace s).
  match goal with
  | |- context [fold_left ?f ?l ?w0] =>
      assert (ws_files (fold_left f l w0) = ws_files w0
              ∧ ws_isStreaming (fold_left f l w0) = ws_isStreaming w0
              ∧ ws_chatPrompt (fold_left f l w0) = ws_chatPrompt w0
              ∧ ws_promptFileHistory (fold_left f l w0)
                = ws_promptFileHistory w0
              ∧ ws_conversationId (fold_left f l w0) = ws_conversationId w0)
        as (-> & -> & -> & -> & ->); [|done];
      generalize w0
  end.
  unfold no_complete in Hquiet.
  induction (chat_read chunks []) as [|payload payloads IH]; intros w0;
    [done|].
  apply Forall_cons in Hquiet as [Hpayload Hquiet].
  cbn [omap list_omap]. destruct (decode payload) as [parsed|]; [|by apply IH].
  cbn [fold_left].
  destruct (workspace_frame_quiet (ws_chatPrompt w) (ws_files w) parsed w0)
    as (<- & <- & <- & <- & <- & _); [by apply Hpayload|].
  by apply IH.
Qed.

End ChatFacts.

Lemma handleChatSubmit_without_complete_witness :
  let s' := handleChatSubmit decode_strings (StreamBody error_stream None)
              chat_before in
  ws_isStreaming (chat_workspace s') = true
  ∧ chatError s' = []
  ∧ isChatGenerating s' = false
  ∧ ws_files (chat_workspace s') = ws_files (chat_workspace chat_before)
  ∧ ws_chatPrompt (chat_workspace s')
    = ws_chatPrompt (chat_workspace chat_before)
  ∧ ws_promptFileHistory (chat_workspace s')
    = ws_promptFileHistory (chat_workspace chat_before)
  ∧ ws_conversationId (chat_workspace s')
    = ws_conversationId (chat_workspace chat_before).
Proof.
  apply (handleChatSubmit_without_complete decode_strings error_stream
           chat_before).
  - by_compute.
  - assert (chat_read error_stream [] = error_payloads) as ->
      by (vm_compute; reflexivity).
    repeat constructor; intros parsed [= <-]; by_compute.
Defined.

Lemma split_blank_frame (x rest : jsstring) :
  10 ∉ x → split_blank (x ++ 10 :: 10 :: rest) = x :: split_blank rest.
Proof.
  induction x as [|c x IH]; intros Hx; [done|].
  apply not_elem_of_cons in Hx as [Hc Hx].
  assert ((c =? 10) = false) as Hc' by (apply N.eqb_neq; congruence).
  destruct x as [|d x].
  - cbn [app]. rewrite split_blank_cons2, Hc'. cbn [andb].
    change (10 :: 10 :: rest) with ([] ++ 10 :: 10 :: rest).
    by rewrite IH.
  - change ((c :: d :: x) ++ 10 :: 10 :: rest)
      with (c :: d :: (x ++ 10 :: 10 :: rest)).
    rewrite split_blank_cons2, Hc'. cbn [andb].
    change (d :: x ++ 10 :: 10 :: rest) with ((d :: x) ++ 10 :: 10 :: rest).
    by rewrite IH.
Qed.

Lemma split_blank_frames (payloads : list jsstring) :
  Forall (fun payload => 10 ∉ payload) payloads →
  split_blank (concat (map sse_frame payloads))
  = map (fun payload => js "data: " ++ payload) payloads ++ [[]].
Proof.
  induction 1 as [|payload payloads Hp _ IH]; [done|].
  cbn [map concat].
  replace (sse_frame payload ++ concat (map sse_frame payloads))
    with ((js "data: " ++ payload)
          ++ 10 :: 10 :: concat (map sse_frame payloads))
    by (unfold sse_frame; by rewrite <- !app_assoc).
  rewrite split_blank_frame, IH; [done|].
  rewrite elem_of_app. intros [Hin|Hin]; [|done]. revert Hin. by_compute.
Qed.

(** X19. The frames the handler enqueues reach the workspace page whole,
    however the network cuts them: for payloads without a line feed
    (a [JSON.stringify] text has none), the texts [handleChatSubmit]
    hands to [JSON.parse] are the payloads in the order they were sent,
    but for a payload [[DONE]], for every division into chunks of the
    frames' concatenation. *)
Theorem chat_read_frames (payloads chunks : list jsstring) :
  Forall (fun payload => 10 ∉ payload) payloads →
  concat chunks = concat (map sse_frame payloads) →
  chat_read chunks []
  = List.filter (fun payload => negb (bool_decide (payload = js "[DONE]")))
                payloads.
Proof.
  intros Hclean Hcut. rewrite chat_read_whole by done. cbn [app].
  rewrite Hcut, split_blank_frames by done.
  rewrite removelast_app_nonempty by done. cbn [removelast].
  rewrite app_nil_r. clear. induction payloads as [|payload payloads IH];
    [done|].
  cbn [map omap list_omap List.filter]. rewrite IH. unfold chat_payload.
  assert (starts_with (js "data: ") (js "data: " ++ payload) = true) as ->.
  { unfold starts_with. apply bool_decide_eq_true.
    by rewrite take_app_length. }
  change (drop 6 (js "data: " ++ payload)) with payload.
  by destruct (decide (payload = js "[DONE]")) as [->|Hne];
    [rewrite bool_decide_eq_true_2|rewrite bool_decide_eq_false_2].
Qed.

Lemma chat_read_frames_witness :
  chat_read error_stream []
  = List.filter (fun payload => negb (bool_decide (payload = js "[DONE]")))
                error_payloads.
Proof.
  apply (chat_read_frames error_payloads error_stream).
  - repeat constructor; by_compute.
  - vm_compute. reflexivity.
Defined.

(** ** The generation page *)

Lemma split_line (x rest : jsstring) :
  10 ∉ x → split 10 (x ++ 10 :: rest) = x :: split 10 rest.
Proof.
  intros Hx. rewrite split_app_sep.
  assert (split 10 x = [x]) as ->; [|done].
  induction x as [|c x IH]; [done|].
  apply not_elem_of_cons in Hx as [Hc Hx]. cbn [split].
  assert ((c =? 10) = false) as -> by (apply N.eqb_neq; congruence).
  by rewrite IH.
Qed.

Lemma split_line_last (x : jsstring) : 10 ∉ x → split 10 x = [x].
Proof.
  induction x as [|c x IH]; intros Hx; [done|].
  apply not_elem_of_cons in Hx as [Hc Hx]. cbn [split].
  assert ((c =? 10) = false) as -> by (apply N.eqb_neq; congruence).
  by rewrite IH.
Qed.

Lemma generation_payload_data (payload : jsstring) :
  generation_payload (js "data: " ++ payload) = Some payload.
Proof.
  unfold generation_payload.
  assert (starts_with (js "data: ") (js "data: " ++ payload) = true) as ->;
    [|done].
  unfold starts_with. apply bool_decide_eq_true. by rewrite take_app_length.
Qed.

Lemma data_line_clean (payload : jsstring) :
  10 ∉ payload → 10 ∉ js "data: " ++ payload.
Proof.
  intros Hp. rewrite elem_of_app. intros [Hin|Hin]; [|done].
  revert Hin. by_compute.
Qed.

Lemma split_frames (payloads : list jsstring) :
  Forall (fun payload => 10 ∉ payload) payloads →
  omap generation_payload (split 10 (concat (map sse_frame payloads)))
  = payloads.
Proof.
  induction 1 as [|payload payloads Hp _ IH]; [done|].
  cbn [map concat].
  replace (sse_frame payload ++ concat (map sse_frame payloads))
    with ((js "data: " ++ payload)
          ++ 10 :: ([] ++ 10 :: concat (map sse_frame payloads)))
    by (unfold sse_frame; by rewrite <- !app_assoc).
  rewrite split_line by by apply data_line_clean.
  rewrite split_line by apply not_elem_of_nil.
  cbn [omap list_omap]. rewrite generation_payload_data, IH.
  reflexivity.
Qed.

Lemma read_whole_groups (groups : list (list jsstring)) :
  Forall (Forall (fun payload => 10 ∉ payload)) groups →
  generation_read (map (fun group => concat (map sse_frame group)) groups)
  = concat groups.
Proof.
  unfold generation_read.
  induction 1 as [|group groups Hgroup _ IH]; [done|].
  cbn [map concat]. by rewrite omap_app, IH, split_frames.
Qed.

(** X20. The generation page reads the frames whole when every chunk
    ends between two frames: for payloads without a line feed, sent in
    any number of chunks each made of whole frames, the texts handed to
    [JSON.parse] are the payloads in the order they were sent. *)
Theorem generation_read_whole_frames (groups : list (list jsstring)) :
  Forall (Forall (fun payload => 10 ∉ payload)) groups →
  generation_read (map (fun group => concat (map sse_frame group)) groups)
  = concat groups.
Proof.
  unfold generation_read.
  induction 1 as [|group groups Hgroup _ IH]; [done|].
  cbn [map concat]. by rewrite omap_app, IH, split_frames.
Qed.

Lemma generation_read_whole_frames_witness :
  generation_read
    (map (fun group => concat (map sse_frame group))
         [[jq "{'type':'status','message':'Starting generation...'}"];
          error_payloads])
  = concat [[jq "{'type':'status','message':'Starting generation...'}"];
            error_payloads].
Proof.
  apply (generation_read_whole_frames
           [[jq "{'type':'status','message':'Starting generation...'}"];
            error_payloads]).
  repeat constructor; by_compute.
Defined.

(** X21. The generation page keeps nothing from one chunk to the next:
    when a chunk ends inside the payload of a frame, [JSON.parse] is
    handed the part of the payload before the cut, and the rest of the
    frame is dropped (unless that rest itself starts with [data: ]). *)
Theorem generation_read_cut_frame (payload : jsstring) (k : nat) :
  10 ∉ payload →
  starts_with (js "data: ") (drop k payload) = false →
  concat (cut_frame payload k) = sse_frame payload
  ∧ generation_read (cut_frame payload k) = [take k payload].
Proof.
  intros Hclean Hrest. split.
  - unfold cut_frame, sse_frame. cbn [concat].
    rewrite app_nil_r, <- !app_assoc, (app_assoc (take k payload)).
    by rewrite take_drop.
  - assert ((10 ∉ take k payload) ∧ (10 ∉ drop k payload)) as [Htake Hdrop].
    { apply not_elem_of_app. by rewrite take_drop. }
    unfold generation_read, cut_frame. cbn [map concat].
    rewrite app_nil_r, omap_app.
    rewrite split_line_last by by apply data_line_clean.
    replace (drop k payload ++ [10; 10])
      with (drop k payload ++ 10 :: ([] ++ 10 :: [])) by done.
    rewrite split_line by done. rewrite split_line by apply not_elem_of_nil.
    cbn [omap list_omap split]. rewrite generation_payload_data.
    unfold generation_payload at 1. rewrite Hrest. reflexivity.
Qed.

Lemma generation_read_cut_frame_witness :
  concat (cut_frame (jq "{'type':'file','fileName':'/a.js','content':'1'}") 20)
  = sse_frame (jq "{'type':'file','fileName':'/a.js','content':'1'}")
  ∧ generation_read
      (cut_frame (jq "{'type':'file','fileName':'/a.js','content':'1'}") 20)
    = [take 20 (jq "{'type':'file','fileName':'/a.js','content':'1'}")].
Proof.
  apply (generation_read_cut_frame
           (jq "{'type':'file','fileName':'/a.js','content':'1'}") 20).
  - by_compute.
  - reflexivity.
Defined.

(** ** From the handler's events to the pages *)

Section EndToEnd.
Variable Number_toString : jsstring → jsstring.
Variable message : failure → jsstring.

Lemma generation_frames_progress (currentPrompt : jsstring)
    (texts : list jsstring) (g : GenerationPage) :
  generation_frames currentPrompt
    (map (frame_of_event message) (map EProgress texts)) g = g.
Proof.
  unfold generation_frames. induction texts as [|text texts IH]; [done|].
  cbn [map fold_left]. exact IH.
Qed.

Lemma generation_frames_files (currentPrompt : jsstring) (files : object)
    (changes : list FileChange) :
  nonempty_entries files →
  ∀ g, generation_frames currentPrompt
         (map (frame_of_event message) (file_events files changes)) g
       = mkGenerationPage
           (fold_left (fun o '(k, v) => define o k v) files
                      (gp_generatedFiles g))
           (gp_storedFiles g) (gp_storedPrompt g).
Proof.
  unfold generation_frames, file_events.
  induction 1 as [|[name text] files [Hname Htext] _ IH]; intros g.
  - by destruct g.
  - cbn [map fold_left]. rewrite IH. cbn [fst snd] in *.
    unfold generation_frame. cbn [p_type p_fileName p_content].
    rewrite bool_decide_eq_true_2 by done.
    destruct name as [|c name], text as [|c' text]; done.
Qed.

Lemma generation_frames_of_run (env : Env) (body : Body)
    (conversation : option (jsstring * Conversation))
    (systemPrompt : system_prompt) (d : store)
    (chunks : list jsstring) (newFiles : object)
    (status : Z) (trace : list action)
    (currentPrompt : jsstring) (g : GenerationPage) :
  fetchWithRetry (fetch (provider env systemPrompt true))
                 default_retries default_backoff = (inr status, trace) →
  stream_body (provider env systemPrompt true) = Some (chunks, true) →
  extractAndParseJSON Number_toString (concat (deltas chunks))
  = inr newFiles →
  save_ok env = true →
  nonempty_entries newFiles →
  gp_generatedFiles g = [] →
  generation_frames currentPrompt
    (map (frame_of_event message)
         (events (stream_task Number_toString env body conversation
                    systemPrompt (mkState [] d)).2)) g
  = mkGenerationPage newFiles (Some newFiles) (Some currentPrompt).
Proof.
  intros Hfetch Hbody Hextract Hsave Hfiles Hempty.
  rewrite (stream_task_success Number_toString env body conversation
             systemPrompt d chunks newFiles status trace) by done.
  cbn [snd events]. rewrite !map_app. unfold generation_frames.
  rewrite !fold_left_app. cbn [map fold_left].
  fold (generation_frames currentPrompt
          (map (frame_of_event message) (map EProgress (deltas chunks)))
          (generation_frame currentPrompt
             (frame_of_event message
                (EStatus (if default false (isIterativeUpdate body)
                          then js "Applying changes..."
                          else js "Starting generation..."))) g)).
  rewrite generation_frames_progress.
  match goal with
  | |- context [fold_left ?f (map (frame_of_event message)
                                  (file_events ?fs ?ch)) ?g0] =>
      change (fold_left f (map (frame_of_event message) (file_events fs ch))
                        g0)
        with (generation_frames currentPrompt
                (map (frame_of_event message) (file_events fs ch)) g0)
  end.
  rewrite generation_frames_files by done.
  unfold generation_frame at 1. cbn [frame_of_event p_type].
  rewrite bool_decide_eq_false_2 by done.
  rewrite bool_decide_eq_true_2 by done.
  cbn [gp_generatedFiles].
  unfold generation_frame. cbn [frame_of_event p_type].
  rewrite bool_decide_eq_false_2 by done.
  rewrite bool_decide_eq_false_2 by done.
  rewrite Hempty.
  destruct (extracted_files_usable Number_toString _ _ Hextract)
    as (_ & Hnd & _).
  by rewrite fold_define_fresh.
Qed.

Section Wire.
(** [JSON.stringify] of the object [sendData] is given for an event, and
    [JSON.parse] of a payload on the page, read at the declared type. *)
Variable encode : event → jsstring.
Variable decode : jsstring → option Parsed.

Lemma generation_frame_same (currentPrompt : jsstring) (a b : Parsed)
    (g : GenerationPage) :
  same_for_generation a b →
  generation_frame currentPrompt a g = generation_frame currentPrompt b g.
Proof.
  intros (Htype & Hname & Hcontent). unfold generation_frame.
  by rewrite Htype, Hname, Hcontent.
Qed.

Lemma generation_frames_decoded (currentPrompt : jsstring)
    (sent : list event) :
  Forall (readable_frame message encode decode) sent →
  ∀ g, fold_left (fun g data => generation_frame currentPrompt data g)
                 (omap decode (map encode sent)) g
       = generation_frames currentPrompt
           (map (frame_of_event message) sent) g.
Proof.
  unfold generation_frames.
  induction 1 as [|e sent (_ & data & Hdecode & Hsame) _ IH]; intros g;
    [done|].
  cbn [map omap list_omap]. rewrite Hdecode. cbn [fold_left].
  rewrite (generation_frame_same currentPrompt data
             (frame_of_event message e)) by done.
  apply IH.
Qed.

Lemma generation_read_events (groups : list (list event)) :
  Forall (readable_frame message encode decode) (concat groups) →
  generation_read (map (wire_chunk encode) groups)
  = map encode (concat groups).
Proof.
  intros Hreadable.
  assert (map (wire_chunk encode) groups
          = map (fun group => concat (map sse_frame group))
                (map (map encode) groups)) as ->.
  { rewrite map_map. apply map_ext. intros group. unfold wire_chunk.
    by rewrite map_map. }
  rewrite read_whole_groups.
  - clear Hreadable. induction groups as [|group groups IH]; [done|].
    cbn [map concat]. by rewrite map_app, IH.
  - induction groups as [|group groups IH]; [constructor|].
    cbn [concat] in Hreadable. apply Forall_app in Hreadable as [Hg Hrest].
    cbn [map]. constructor; [|by apply IH].
    clear IH Hrest. induction Hg as [|e group [He _] _ IH];
      by constructor.
Qed.

(** X22. What the generation page stores is what the extractor
    returned.  The streaming task runs to its [complete] event and the
    extracted files have non-empty paths and contents; the page is
    answered with a success status and reads the frames of the task's
    events in chunks that each hold whole frames, however the events are
    grouped into chunks, and the reads end; no payload holds a line feed,
    and each parses on the page to the type, file name and content the
    handler sent.  Then [handleStreamingGenerate], for a non-blank prompt,
    ends with exactly the extracted files, in the extractor's order, as
    its generated files and in [sessionStorage], together with the
    prompt, with no error text, and out of the generating state. *)
Theorem generation_page_stores_extracted (env : Env) (body : Body)
    (conversation : option (jsstring * Conversation))
    (systemPrompt : system_prompt) (d : store)
    (chunks : list jsstring) (newFiles : object)
    (status : Z) (trace : list action)
    (groups : list (list event)) (http : Z)
    (currentPrompt : jsstring) (s : Generation) :
  fetchWithRetry (fetch (provider env systemPrompt true))
                 default_retries default_backoff = (inr status, trace) →
  stream_body (provider env systemPrompt true) = Some (chunks, true) →
  extractAndParseJSON Number_toString (concat (deltas chunks))
  = inr newFiles →
  save_ok env = true →
  nonempty_entries newFiles →
  concat groups
  = events (stream_task Number_toString env body conversation systemPrompt
              (mkState [] d)).2 →
  Forall (readable_frame message encode decode) (concat groups) →
  trim currentPrompt ≠ [] →
  ok http = true →
  handleStreamingGenerate decode
    (Response http (Some (map (wire_chunk encode) groups, None)))
    currentPrompt s
  = mkGeneration
      (mkGenerationPage newFiles (Some newFiles) (Some currentPrompt))
      [] false.
Proof.
  intros Hfetch Hbody Hextract Hsave Hfiles Hgroups Hreadable Hprompt Hok.
  unfold handleStreamingGenerate.
  rewrite bool_decide_eq_false_2 by done. rewrite Hok. cbn [negb].
  rewrite generation_read_events by done.
  rewrite generation_frames_decoded by done.
  rewrite Hgroups.
  by rewrite (generation_frames_of_run env body conversation systemPrompt d
                chunks newFiles status trace).
Qed.

End Wire.

End EndToEnd.

Lemma generation_page_stores_extracted_witness :
  let sent := events (stream_task lexeme_itself (env_with capped_stream)
                        streaming_request None
                        (GenerationPrompt (Some (js "Create a counter")) None)
                        (mkState [] ∅)).2 in
  handleStreamingGenerate decode_strings
    (Response 200
       (Some (map (wire_chunk (wire_payload some_message))
                  [take 2 sent; drop 2 sent], None)))
    (js "Create a counter")
    (mkGeneration (mkGenerationPage [(js "/old.js", js "0")] None None)
                  [] true)
  = mkGeneration
      (mkGenerationPage [(js "/a.js", js "1")] (Some [(js "/a.js", js "1")])
                        (Some (js "Create a counter")))
      [] false.
Proof.
  cbv zeta.
  apply (generation_page_stores_extracted lexeme_itself some_message
           (wire_payload some_message) decode_strings
           (env_with capped_stream) streaming_request None
           (GenerationPrompt (Some (js "Create a counter")) None) ∅
           (default [] (fst <$> stream_body capped_stream))
           [(js "/a.js", js "1")] 200 [Fetch]).
  - reflexivity.
  - reflexivity.
  - vm_compute. reflexivity.
  - reflexivity.
  - repeat constructor; discriminate.
  - vm_compute. reflexivity.
  - match goal with
    | |- Forall _ ?l => let l' := eval vm_compute in l in change l with l'
    end.
    repeat constructor; try by_compute;
      (eexists; split; [vm_compute; reflexivity|repeat split]).
  - by_compute.
  - reflexivity.
Defined.

Section EndToEndWorkspace.
Variable Number_toString : jsstring → jsstring.
Variable message : failure → jsstring.

(** X23. After an iterative update that runs to its [complete] event,
    the workspace page shows the files the collection now holds: the
    page that reads the task's events ends with its files equal to the
    [currentFiles] of the document saved by the request, points to that
    document's id, holds the change list of the request, has left the
    streaming state and cleared the prompt field, and has put the same
    files in [sessionStorage]. *)
Theorem workspace_shows_stored_files (env : Env) (body : Body)
    (conversation : option (jsstring * Conversation))
    (systemPrompt : system_prompt) (d : store)
    (chunks : list jsstring) (newFiles : object)
    (status : Z) (trace : list action)
    (chatPrompt : jsstring) (prevFiles : object) (w : Workspace) :
  fetchWithRetry (fetch (provider env systemPrompt true))
                 default_retries default_backoff = (inr status, trace) →
  stream_body (provider env systemPrompt true) = Some (chunks, true) →
  extractAndParseJSON Number_toString (concat (deltas chunks))
  = inr newFiles →
  save_ok env = true →
  isIterativeUpdate body = Some true →
  let previousFiles := previous_files body conversation in
  let changes := detectFileChanges previousFiles newFiles in
  let document :=
    next_document env body conversation newFiles
                  (spread previousFiles newFiles) changes in
  document.1 ≠ [] →
  let st := (stream_task Number_toString env body conversation systemPrompt
               (mkState [] d)).2 in
  let w' := workspace_frames chatPrompt prevFiles
              (map (frame_of_event message) (events st)) w in
  db st !! document.1 = Some document.2
  ∧ ws_files w' = currentFiles document.2
  ∧ ws_conversationId w' = Some document.1
  ∧ ws_changedFiles w' = changes
  ∧ ws_isStreaming w' = false
  ∧ ws_chatPrompt w' = []
  ∧ ws_storedFiles w' = Some (currentFiles document.2).
Proof.
  intros Hfetch Hbody Hextract Hsave Hiter. cbv zeta. intros Hid.
  rewrite (stream_task_success Number_toString env body conversation
             systemPrompt d chunks newFiles status trace) by done.
  cbn [snd events db]. rewrite Hiter. cbn [default].
  set (prev := previous_files body conversation) in *.
  destruct (next_document_appends env body conversation newFiles
              (spread prev newFiles) (detectFileChanges prev newFiles))
    as (turn & _ & Hcur & _).
  destruct (next_document _ _ _ _ _ _) as [id document]. cbn [fst snd] in *.
  split; [by rewrite lookup_insert_eq|].
  unfold workspace_frames.
  rewrite !app_assoc, map_app, fold_left_app. cbn [map fold_left].
  unfold workspace_frame at 1. cbn [frame_of_event p_type p_fileName
    p_content p_fullFiles p_changedFiles p_conversationId].
  rewrite bool_decide_eq_false_2 by done. cbn [andb].
  rewrite bool_decide_eq_true_2 by done.
  cbn [ws_files ws_conversationId ws_changedFiles ws_isStreaming
       ws_chatPrompt ws_storedFiles default].
  rewrite Hcur. split_and!; try done.
  by destruct id.
Qed.

End EndToEndWorkspace.

Lemma workspace_shows_stored_files_witness :
  let env := env_with capped_stream in
  let body := foreign_update in
  let conversation := Some (js "65f0aaaa", alice_conversation) in
  let systemPrompt :=
    IterativePrompt (Some (js "Make it blue")) [(js "/src/App.js", js "v1")]
                    (conversationTurns alice_conversation) in
  let newFiles := [(js "/a.js", js "1")] in
  let previousFiles := previous_files body conversation in
  let changes := detectFileChanges previousFiles newFiles in
  let document :=
    next_document env body conversation newFiles
                  (spread previousFiles newFiles) changes in
  let st := (stream_task lexeme_itself env body conversation systemPrompt
               (mkState [] one_conversation)).2 in
  let w' := workspace_frames (js "Make it blue")
              [(js "/src/App.js", js "v1")]
              (map (frame_of_event some_message) (events st))
              (chat_workspace chat_before) in
  db st !! document.1 = Some document.2
  ∧ ws_files w' = currentFiles document.2
  ∧ ws_conversationId w' = Some document.1
  ∧ ws_changedFiles w' = changes
  ∧ ws_isStreaming w' = false
  ∧ ws_chatPrompt w' = []
  ∧ ws_storedFiles w' = Some (currentFiles document.2).
Proof.
  cbv zeta.
  apply (workspace_shows_stored_files lexeme_itself some_message
           (env_with capped_stream) foreign_update
           (Some (js "65f0aaaa", alice_conversation))
           (IterativePrompt (Some (js "Make it blue"))
              [(js "/src/App.js", js "v1")]
              (conversationTurns alice_conversation))
           one_conversation
           (default [] (fst <$> stream_body capped_stream))
           [(js "/a.js", js "1")] 200 [Fetch]
           (js "Make it blue") [(js "/src/App.js", js "v1")]
           (chat_workspace chat_before)).
  - reflexivity.
  - reflexivity.
  - vm_compute. reflexivity.
  - reflexivity.
  - reflexivity.
  - discriminate.
Defined.

Section GenerationFacts.
Variable decode : jsstring → option Parsed.

Lemma generation_frame_quiet (currentPrompt : jsstring) (data : Parsed)
    (g : GenerationPage) :
  p_type data ≠ js "complete" →
  gp_storedFiles (generation_frame currentPrompt data g) = gp_storedFiles g
  ∧ gp_storedPrompt (generation_frame currentPrompt data g)
    = gp_storedPrompt g.
Proof.
  intros Htype. unfold generation_frame.
  destruct (bool_decide (p_type data = js "file")).
  - by destruct (present (p_fileName data) && present (p_content data)).
  - by rewrite bool_decide_eq_false_2.
Qed.

(** X24. A generation whose stream carries no [complete] frame ends
    silently on the generation page: when the body ends, whatever else it
    carried (an [error] event of the server is thrown and caught per
    line), no error text is set, the page has left the generating state,
    and [sessionStorage] holds what it held before, so nothing of this
    generation reaches the workspace. *)
Theorem handleStreamingGenerate_without_complete (status : Z)
    (chunks : list jsstring) (currentPrompt : jsstring) (s : Generation) :
  trim currentPrompt ≠ [] →
  ok status = true →
  no_complete decode (generation_read chunks) →
  let s' := handleStreamingGenerate decode
              (Response status (Some (chunks, None))) currentPrompt s in
  gen_error s' = []
  ∧ gen_isGenerating s' = false
  ∧ gp_storedFiles (gen_page s') = gp_storedFiles (gen_page s)
  ∧ gp_storedPrompt (gen_page s') = gp_storedPrompt (gen_page s).
Proof.
  intros Hprompt Hok Hquiet. cbv zeta. unfold handleStreamingGenerate.
  rewrite bool_decide_eq_false_2 by done. rewrite Hok.
  cbn [negb gen_error gen_isGenerating gen_page].
  split; [done|]. split; [done|].
  match goal with
  | |- context [fold_left ?f ?l ?g0] =>
      assert (gp_storedFiles (fold_left f l g0) = gp_storedFiles g0
              ∧ gp_storedPrompt (fold_left f l g0) = gp_storedPrompt g0)
        as [-> ->]; [|done];
      generalize g0
  end.
  unfold no_complete in Hquiet.
  induction (generation_read chunks) as [|payload payloads IH]; intros g0;
    [done|].
  apply Forall_cons in Hquiet as [Hpayload Hquiet].
  cbn [omap list_omap]. destruct (decode payload) as [data|]; [|by apply IH].
  cbn [fold_left].
  destruct (generation_frame_quiet currentPrompt data g0) as [<- <-];
    [by apply Hpayload|].
  by apply IH.
Qed.

End GenerationFacts.

Lemma handleStreamingGenerate_without_complete_witness :
  let s' := handleStreamingGenerate decode_strings
              (Response 200
                 (Some ([concat (map sse_frame error_payloads)], None)))
              (js "Create a counter")
              (mkGeneration
                 (mkGenerationPage [] (Some [(js "/old.js", js "0")])
                                   (Some (js "An earlier prompt")))
                 [] true) in
  gen_error s' = []
  ∧ gen_isGenerating s' = false
  ∧ gp_storedFiles (gen_page s') = Some [(js "/old.js", js "0")]
  ∧ gp_storedPrompt (gen_page s') = Some (js "An earlier prompt").
Proof.
  apply (handleStreamingGenerate_without_complete decode_strings 200
           [concat (map sse_frame error_payloads)] (js "Create a counter")
           (mkGeneration
              (mkGenerationPage [] (Some [(js "/old.js", js "0")])
                                (Some (js "An earlier prompt")))
              [] true)).
  - by_compute.
  - reflexivity.
  - assert (generation_read [concat (map sse_frame error_payloads)]
            = error_payloads) as -> by (vm_compute; reflexivity).
    repeat constructor; intros parsed [= <-]; by_compute.
Defined.

(** ** The chat request at the handler *)

Section ChatRequest.
Variable Number_toString : jsstring → jsstring.

Lemma generate_streaming (env : Env) (body : Body)
    (conversation : option (jsstring * Conversation))
    (systemPrompt : system_prompt) (st : state) :
  streaming body = Some true →
  ∃ st', generate Number_toString env body conversation systemPrompt st
         = (inr EventStream, st').
Proof.
  intros Hs. unfold generate. rewrite Hs. cbn [default from_option id].
  unfold mbind, task_bind.
  destruct (stream_task_returns Number_toString env body conversation
              systemPrompt st) as [st' ->].
  by exists st'.
Qed.

(** X25. The request the workspace page sends for a non-blank prompt
    passes the validation of [POST]; the database, the API key and the
    lookup being there, it is answered in one of two ways.  If the page
    points to a conversation the collection does not hold, the answer is
    the JSON error 404, no event is sent and nothing is written.  In every
    other case, whether the page has a conversation id or not, the answer
    is the event stream. *)
Theorem chat_request_answer (env : Env) (w : Workspace) (d : store) :
  trim (ws_chatPrompt w) ≠ [] →
  connect_ok env = true → ¬ no_key env → (∀ id, find_ok env id = true) →
  missing_input (chat_request w) = false
  ∧ (∀ id, ws_conversationId w = Some id → id ≠ [] → d !! id = None →
       POST Number_toString env (Some (chat_request w)) d
       = (Json 404 (ErrorReply (js "Conversation not found")), mkState [] d))
  ∧ (ws_conversationId w = None ∨ ws_conversationId w = Some []
     ∨ (∃ id c, ws_conversationId w = Some id ∧ d !! id = Some c) →
     (POST Number_toString env (Some (chat_request w)) d).1 = EventStream).
Proof.
  intros Hprompt Hconnect Hkey Hfind.
  assert (missing_input (chat_request w) = false) as Hinput.
  { unfold missing_input, chat_request. cbn [prompt].
    destruct (ws_chatPrompt w); [by destruct Hprompt|done]. }
  assert (∃ k key, api_key env = Some (k :: key)) as (k & key & Hapi).
  { destruct (api_key env) as [[|k key]|] eqn:Hapi; [| by eauto |].
    - destruct Hkey. by right.
    - destruct Hkey. by left. }
  split; [done|]. split.
  - intros cid Hid Hne Hnone. unfold POST, handle.
    unfold mbind, task_bind, mret, task_ret, throw.
    rewrite Hconnect, Hinput, Hapi.
    unfold chat_request at 1 2.
    cbn [isIterativeUpdate conversationId default from_option id].
    rewrite Hid. destruct cid as [|c id']; [done|]. cbn [present].
    unfold findById. rewrite Hfind. cbn [db]. by rewrite Hnone.
  - intros Hcases. unfold POST, handle.
    unfold mbind, task_bind, mret, task_ret, throw.
    rewrite Hconnect, Hinput, Hapi.
    unfold chat_request at 1 2.
    cbn [isIterativeUpdate conversationId default from_option id].
    assert (∀ conversation systemPrompt,
      (let (r, st) := generate Number_toString env (chat_request w)
                        conversation systemPrompt (mkState [] d) in
       match r with
       | inr r => (r, st)
       | inl e => (Json 500 (FailureReply e), st)
       end).1 = EventStream) as Hgen.
    { intros conversation systemPrompt.
      destruct (generate_streaming env (chat_request w) conversation
                  systemPrompt (mkState [] d)) as [st' ->]; done. }
    destruct Hcases as [->|[->|(id & c & -> & Hc)]]; cbn [present].
    + apply Hgen.
    + apply Hgen.
    + destruct id as [|c0 id']; cbn [present]; [apply Hgen|].
      unfold findById. rewrite Hfind. cbn [db]. rewrite Hc. apply Hgen.
Qed.

End ChatRequest.

Lemma chat_request_answer_witness :
  missing_input (chat_request stale_workspace) = false
  ∧ (∀ id, ws_conversationId stale_workspace = Some id → id ≠ [] →
       one_conversation !! id = None →
       POST lexeme_itself (env_with capped_stream)
            (Some (chat_request stale_workspace)) one_conversation
       = (Json 404 (ErrorReply (js "Conversation not found")),
          mkState [] one_conversation))
  ∧ (ws_conversationId stale_workspace = None
     ∨ ws_conversationId stale_workspace = Some []
     ∨ (∃ id c, ws_conversationId stale_workspace = Some id
                ∧ one_conversation !! id = Some c) →
     (POST lexeme_itself (env_with capped_stream)
           (Some (chat_request stale_workspace)) one_conversation).1
     = EventStream).
Proof.
  apply (chat_request_answer lexeme_itself (env_with capped_stream)
           stale_workspace one_conversation).
  - by_compute.
  - reflexivity.
  - intros [H|H]; discriminate H.
  - intros id. reflexivity.
Defined.

(** ** The reveal without files *)

(** X26. With no files the reveal component never completes: after any
    number of timer ticks it is in its initial state, no timer is
    pending, the completion callback has not been called and the page
    has not navigated. *)
Theorem reveal_without_files (n : nat) :
  after_ticks [] n = reveal_start
  ∧ effect [] (after_ticks [] n) = Nothing
  ∧ completions (after_ticks [] n) = 0%nat
  ∧ hasNavigated (after_ticks [] n) = false.
Proof.
  assert (after_ticks [] n = reveal_start) as ->; [|done].
  induction n as [|n IH]; [done|].
  change (after_ticks [] (S n)) with (tick [] (after_ticks [] n)).
  by rewrite IH.
Qed.

(** ** File upload on the home page *)

Lemma read_files_result (files : list PickedFile) :
  ∀ newFiles error result error',
    read_files files newFiles error = Some (result, error') →
    result = newFiles ++ omap uploaded files
    ∧ Forall (fun file => too_large file = true
                          ∨ is_Some (upload_content file)) files.
Proof.
  induction files as [|file files IH]; intros newFiles error result error' H.
  - injection H as <- <-. by rewrite app_nil_r.
  - cbn [read_files] in H. cbn [omap list_omap]. unfold uploaded at 1.
    destruct (too_large file) eqn:Hsize.
    + apply IH in H as [-> Hall]. split; [done|].
      constructor; [by left|done].
    + destruct (upload_content file) as [text|] eqn:Htext; [|done].
      apply IH in H as [-> Hall]. cbn [fmap option_fmap option_map].
      rewrite <- app_assoc. split; [done|].
      constructor; [right; by eexists|done].
Qed.

(** X27. When [handleFileUpload] gets to its end, the new list is the
    old list followed by the picked files of at most 10 MB, in the order
    they were picked, a PDF or a spreadsheet with its placeholder as
    content; no file above 10 MB is in it, and every file that was read
    gave a non-empty result. *)
Theorem handleFileUpload_result (files : list PickedFile)
    (uploadedFiles : list UploadedFile) (error : option jsstring)
    (updatedFiles : list UploadedFile) (error' : option jsstring) :
  handleFileUpload files uploadedFiles error
  = Some (updatedFiles, error') →
  updatedFiles = uploadedFiles ++ omap uploaded files
  ∧ Forall (fun file => (uf_size file ≤ 10 * 1024 * 1024)%Z
                        ∧ uf_content file ≠ [])
           (omap uploaded files).
Proof.
  unfold handleFileUpload.
  destruct (read_files files [] error) as [[newFiles e]|] eqn:Hread; [|done].
  intros [= <- <-]. apply read_files_result in Hread as [-> _].
  split; [done|]. apply Forall_forall. intros file Hin.
  apply list_elem_of_omap in Hin as (picked & _ & Hpicked).
  unfold uploaded in Hpicked.
  destruct (too_large picked) eqn:Hsize; [done|].
  destruct (upload_content picked) as [text|] eqn:Htext; [|done].
  injection Hpicked as <-. cbn [uf_size uf_content]. split.
  - unfold too_large in Hsize. lia.
  - unfold upload_content, reader_result in Htext.
    repeat case_match; by simplify_eq.
Qed.

Lemma handleFileUpload_result_witness :
  [mkUploadedFile 1 (js "notes.txt") (js "text/plain") 5 (js "hello") 0]
  = [] ++ omap uploaded [huge_file; notes_file]
  ∧ Forall (fun file => (uf_size file ≤ 10 * 1024 * 1024)%Z
                        ∧ uf_content file ≠ [])
           (omap uploaded [huge_file; notes_file]).
Proof.
  apply (handleFileUpload_result [huge_file; notes_file] [] None
           [mkUploadedFile 1 (js "notes.txt") (js "text/plain") 5
                           (js "hello") 0]
           (Some (jq "File 'video.bin' is too large. Maximum size is 10MB."))).
  vm_compute. reflexivity.
Defined.

(** X28. One file whose read gives nothing blocks the whole upload: if
    among the picked files of at most 10 MB there is a text file that is
    empty (or an image or text file whose read fails), the handler never
    gets to its end, so none of the picked files is added, the others no
    more than this one. *)
Theorem handleFileUpload_blocked (files : list PickedFile)
    (uploadedFiles : list UploadedFile) (error : option jsstring)
    (file : PickedFile) :
  file ∈ files → too_large file = false → upload_content file = None →
  handleFileUpload files uploadedFiles error = None.
Proof.
  intros Hin Hsize Hcontent. unfold handleFileUpload.
  destruct (read_files files [] error) as [[newFiles e]|] eqn:Hread; [|done].
  apply read_files_result in Hread as [_ Hall].
  rewrite Forall_forall in Hall. destruct (Hall file Hin) as [Hl|[text Ht]];
    congruence.
Qed.

Lemma handleFileUpload_blocked_witness :
  handleFileUpload [notes_file; empty_file] [] None = None.
Proof.
  apply (handleFileUpload_blocked [notes_file; empty_file] [] None
           empty_file).
  - right. left.
  - reflexivity.
  - reflexivity.
Defined.

(** ** The change type of a [file] event *)

Lemma difference_path (A B : object) (p : jsstring) (c : FileChange) :
  difference A B p = Some c → path c = p.
Proof.
  unfold difference. repeat case_match; intros [= <-]; done.
Qed.

Lemma find_difference (A B : object) (p : jsstring) (l : list jsstring) :
  p ∈ l →
  List.find (fun c => bool_decide (path c = p)) (omap (difference A B) l)
  = difference A B p.
Proof.
  induction l as [|q l IH]; intros Hin; [by apply elem_of_nil in Hin|].
  cbn [omap list_omap].
  destruct (decide (q = p)) as [->|Hne].
  - destruct (difference A B p) as [c|] eqn:Hc.
    + cbn [List.find]. by rewrite bool_decide_eq_true_2
        by (by apply (difference_path A B)).
    + clear IH Hin. induction l as [|q l IH]; [done|]. cbn [omap list_omap].
      destruct (difference A B q) as [c|] eqn:Hq; [|done].
      cbn [List.find]. apply difference_path in Hq as Hpath.
      rewrite bool_decide_eq_false_2; [done|].
      intros Heq. rewrite Hpath in Heq. subst q. congruence.
  - apply elem_of_cons in Hin as [?|Hin]; [done|].
    destruct (difference A B q) as [c|] eqn:Hq; [|by apply IH].
    cbn [List.find]. apply difference_path in Hq as Hpath.
    rewrite bool_decide_eq_false_2 by congruence. by apply IH.
Qed.

(** X29. The change type a [file] event carries, for FileStates with
    non-empty contents and no path named like a member of
    [Object.prototype]: a generated file whose path was not there before
    is sent as new, one whose content differs from the previous one as
    updated, and one that is returned with the very content it had is
    sent as new too, because the change list has no entry for it. *)
Theorem file_event_change_type (previousFiles newFiles : object)
    (fileName text : jsstring) :
  plain previousFiles → plain newFiles →
  assoc newFiles fileName = Some text →
  change_type (detectFileChanges previousFiles newFiles) fileName
  = match assoc previousFiles fileName with
    | Some old => if decide (old = text) then New else Updated
    | None => New
    end.
Proof.
  intros Ha Hb Htext. unfold change_type.
  rewrite detectFileChanges_omap_difference by done.
  rewrite find_difference.
  - unfold difference. rewrite Htext.
    destruct (assoc previousFiles fileName) as [old|]; [|done].
    by case_decide.
  - apply union_paths_elem. right. apply assoc_is_Some. by rewrite Htext.
Qed.

Lemma file_event_change_type_witness :
  change_type (detectFileChanges first_version second_version)
              (js "/src/index.js")
  = match assoc first_version (js "/src/index.js") with
    | Some old => if decide (old = js "i") then New else Updated
    | None => New
    end.
Proof.
  apply (file_event_change_type first_version second_version
           (js "/src/index.js") (js "i")).
  - split; [by_compute|]. repeat constructor; by_compute.
  - split; [by_compute|]. repeat constructor; by_compute.
  - reflexivity.
Defined.

(** ** The two modes side by side *)

Section Modes.
Variable Number_toString : jsstring → jsstring.



End Modes.

